(** * FullComponentStore: a shallow embedding and its verification

    The development follows
    [include/ogdf/internal/steinertree/FullComponentStore.h]: the store of
    full components of a Steiner-tree instance, kept in one shared weighted
    graph, together with its loss extension.

    Nodes and edges are identified by their index, as [IndexComparer] does.
    A null pointer is an absent entry of a map, or [None].  A failed
    [OGDF_ASSERT], a null or dangling dereference and an exhausted loop
    budget are all the result [None]. *)

From stdpp Require Import gmap list sorting.
From Stdlib Require Import ZArith Lia.

Local Open Scope Z_scope.
Local Set Warnings "-register-all".

(** ** The graph classes used by the store

    [Graph], [EdgeWeightedGraph], [AdjElement] and the containers are not
    part of the files at hand; the definitions below give them the behaviour
    the store relies on. *)

(** Modelled from the spec: an adjacency handle ([adjEntry]) is one of the two
    ends of an edge; [isTgt] tells which end. *)
Record adjEntry : Type := AdjE { theEdge : nat; isTgt : bool }.

Global Instance adjEntry_eq_dec : EqDecision adjEntry.
Proof. solve_decision. Defined.

(** [adj->twin()] *)
Definition twin (a : adjEntry) : adjEntry := AdjE (theEdge a) (negb (isTgt a)).

Record EdgeElement : Type := EdgeE { source : nat; target : nat; weight : Z }.

(** [e->adjSource()], [e->adjTarget()] *)
Definition adjSource (e : nat) : adjEntry := AdjE e false.
Definition adjTarget (e : nat) : adjEntry := AdjE e true.

(** The end of an edge record on which a handle sits. *)
Definition endpoint (r : EdgeElement) (tgt : bool) : nat :=
  if tgt then target r else source r.

(** Modelled from the spec: the weighted graph as the adjacency list of every
    live node, the record of every live edge, and the two index counters. *)
Record EdgeWeightedGraph : Type := mkGraph {
  adjEntries : gmap nat (list adjEntry);
  edges : gmap nat EdgeElement;
  nodeIdCount : nat;
  edgeIdCount : nat
}.

Definition emptyGraph : EdgeWeightedGraph := mkGraph ∅ ∅ 0 0.

(** [adj->theNode()] and [adj->twinNode()] *)
Definition theNode (G : EdgeWeightedGraph) (a : adjEntry) : option nat :=
  r ← edges G !! theEdge a; Some (endpoint r (isTgt a)).

Definition twinNode (G : EdgeWeightedGraph) (a : adjEntry) : option nat :=
  theNode G (twin a).

(** [G.newNode()] *)
Definition newNode (G : EdgeWeightedGraph) : nat * EdgeWeightedGraph :=
  (nodeIdCount G,
   mkGraph (<[nodeIdCount G := []]> (adjEntries G)) (edges G)
           (S (nodeIdCount G)) (edgeIdCount G)).

(** [G.newEdge(v, w, weight)]: both handles go to the end of the adjacency
    lists of their nodes. *)
Definition newEdge (G : EdgeWeightedGraph) (v w : nat) (wt : Z)
  : option (nat * EdgeWeightedGraph) :=
  match adjEntries G !! v, adjEntries G !! w with
  | Some _, Some _ =>
      let e := edgeIdCount G in
      Some (e, mkGraph
                 (alter (λ l, l ++ [adjTarget e]) w
                    (alter (λ l, l ++ [adjSource e]) v (adjEntries G)))
                 (<[e := EdgeE v w wt]> (edges G))
                 (nodeIdCount G) (S e))
  | _, _ => None
  end.

(** [G.delEdge(e)] *)
Definition delEdge (G : EdgeWeightedGraph) (e : nat) : option EdgeWeightedGraph :=
  r ← edges G !! e;
  Some (mkGraph
          (alter (filter (λ a, a ≠ adjTarget e)) (target r)
             (alter (filter (λ a, a ≠ adjSource e)) (source r) (adjEntries G)))
          (delete e (edges G))
          (nodeIdCount G) (edgeIdCount G)).

(** [G.delNode(v)]: the incident edges go first, one per handle still there. *)
Definition delNode (G : EdgeWeightedGraph) (v : nat) : option EdgeWeightedGraph :=
  l ← adjEntries G !! v;
  let G' := foldl (λ g a, default g (delEdge g (theEdge a))) G l in
  Some (mkGraph (delete v (adjEntries G')) (edges G')
                (nodeIdCount G') (edgeIdCount G')).

(** Position of a handle in an adjacency list. *)
Fixpoint index_of (a : adjEntry) (l : list adjEntry) : option nat :=
  match l with
  | [] => None
  | b :: l' => if decide (b = a) then Some 0%nat else S <$> index_of a l'
  end.

(** [adj->cyclicSucc()] *)
Definition cyclicSucc (G : EdgeWeightedGraph) (a : adjEntry) : option adjEntry :=
  v ← theNode G a;
  l ← adjEntries G !! v;
  i ← index_of a l;
  l !! ((S i) mod (length l))%nat.

(** A [BoundedStack] refuses a push when it is full. *)
Definition stack_push {A} (capacity : Z) (x : A) (st : list A) : option (list A) :=
  if decide (Z.of_nat (length st) < capacity) then Some (x :: st) else None.

(** [IndexComparer] and [Array::quicksort]: ascending node index. *)
Fixpoint insert_sorted (x : nat) (l : list nat) : list nat :=
  match l with
  | [] => [x]
  | y :: l' => if decide (x ≤ y)%nat then x :: l else y :: insert_sorted x l'
  end.

Definition quicksort (l : list nat) : list nat := foldr insert_sorted [] l.

(** [Array::linearSearch]: the first position of [x], or [-1]. *)
Fixpoint linearSearch_from (i : Z) (x : nat) (l : list nat) : Z :=
  match l with
  | [] => -1
  | y :: l' => if decide (y = x) then i else linearSearch_from (i + 1) x l'
  end.

Definition linearSearch (x : nat) (l : list nat) : Z := linearSearch_from 0 x l.

(** Modelled from the spec: the tree handed to [insert], an
    [EdgeWeightedGraphCopy]: its nodes and edges in iteration order, and for
    every node the node of the original graph it stands for. *)
Record CopyEdge : Type := CopyE { ce_source : nat; ce_target : nat; ce_weight : Z }.

Record EdgeWeightedGraphCopy : Type := mkCopy {
  c_nodes : list nat;
  c_edges : list CopyEdge;
  c_original : nat → nat
}.

(** ** The store *)

Record Metadata (Y : Type) : Type := mkMetadata {
  start : option adjEntry;
  terminals : list nat;
  cost : Z;
  extra : Y
}.
Arguments mkMetadata {Y} _ _ _ _.
Arguments start {Y} _.
Arguments terminals {Y} _.
Arguments cost {Y} _.
Arguments extra {Y} _.

Record Store (Y : Type) : Type := mkStore {
  m_graph : EdgeWeightedGraph;
  m_nodeCopy : gmap nat nat;
  m_nodeOrig : gmap nat nat;
  m_components : list (Metadata Y)
}.
Arguments mkStore {Y} _ _ _ _.
Arguments m_graph {Y} _.
Arguments m_nodeCopy {Y} _.
Arguments m_nodeOrig {Y} _.
Arguments m_components {Y} _.

(** Modelled from the spec: [m_components[id]].  [ArrayBuffer] is not part
    of the files at hand; its index operator is bounds-checked against the
    current size and fails on an identifier out of range. *)
Definition component {Y} (s : Store Y) (id : Z) : option (Metadata Y) :=
  if decide (0 ≤ id) then m_components s !! Z.to_nat id else None.

(** The tail of [remove]: [pop()], or [m_components[id] = popRet()]. *)
Definition remove_record {A} (comps : list A) (id : Z) : option (list A) :=
  if decide (Z.of_nat (length comps) = id + 1) then Some (removelast comps)
  else
    lst ← last comps;
    if decide (0 ≤ id ∧ id < Z.of_nat (length (removelast comps)))
    then Some (<[Z.to_nat id := lst]> (removelast comps))
    else None.

Section FullComponentStore.
(** The original instance: the terminal list and its incidence vector. *)
Context (m_terminals : list nat) (m_isTerminal : nat → bool).
(** The extra data of a component and its default value. *)
Context {Y : Type} (extra0 : Y).

(** The constructor: one node of the shared graph per terminal. *)
Definition init_step (st : EdgeWeightedGraph * gmap nat nat * gmap nat nat) (v : nat)
  : EdgeWeightedGraph * gmap nat nat * gmap nat nat :=
  let '(G, cp, og) := st in
  let '(u, G') := newNode G in
  (G', <[v := u]> cp, <[u := v]> og).

Definition init : Store Y :=
  let '(G, cp, og) := foldl init_step (emptyGraph, ∅, ∅) m_terminals in
  mkStore G cp og [].

(** The first loop of [insert]: nodes. *)
Record InsertNodes : Type := mkInsertNodes {
  in_graph : EdgeWeightedGraph;
  in_nodeCopy : gmap nat nat;
  in_nodeOrig : gmap nat nat;
  in_tempUse : list nat;
  in_terminals : list nat
}.

Definition insert_node (comp : EdgeWeightedGraphCopy) (st : InsertNodes) (v : nat)
  : InsertNodes :=
  let vO := c_original comp v in
  match in_nodeCopy st !! vO with
  | None =>
      let '(vC, G') := newNode (in_graph st) in
      mkInsertNodes G' (<[vO := vC]> (in_nodeCopy st)) (<[vC := vO]> (in_nodeOrig st))
                    (in_tempUse st ++ [vO]) (in_terminals st)
  | Some _ =>
      mkInsertNodes (in_graph st) (in_nodeCopy st) (in_nodeOrig st)
                    (in_tempUse st) (in_terminals st ++ [vO])
  end.

(** The second loop of [insert]: edges. *)
Record InsertEdges : Type := mkInsertEdges {
  ie_graph : EdgeWeightedGraph;
  ie_cost : Z;
  ie_start : option adjEntry
}.

Definition insert_edge (comp : EdgeWeightedGraphCopy) (nodeCopy : gmap nat nat)
    (st : InsertEdges) (e : CopyEdge) : option InsertEdges :=
  let uO := c_original comp (ce_source e) in
  let vO := c_original comp (ce_target e) in
  uC ← nodeCopy !! uO;
  vC ← nodeCopy !! vO;
  '(eC, G') ← newEdge (ie_graph st) uC vC (ce_weight e);
  Some (mkInsertEdges G' (ie_cost st + ce_weight e)
          (if m_isTerminal uO then Some (adjSource eC)
           else if m_isTerminal vO then Some (adjTarget eC)
           else ie_start st)).

Fixpoint insert_edges (comp : EdgeWeightedGraphCopy) (nodeCopy : gmap nat nat)
    (st : InsertEdges) (es : list CopyEdge) : option InsertEdges :=
  match es with
  | [] => Some st
  | e :: es' => st' ← insert_edge comp nodeCopy st e; insert_edges comp nodeCopy st' es'
  end.

(** [insert(comp)].  The function has no result; the new state is what the
    model returns.  [OGDF_ASSERT(!comp.empty())] is the first test;
    [isTree(comp)] is a precondition of the theorems below. *)
Definition insert (s : Store Y) (comp : EdgeWeightedGraphCopy) : option (Store Y) :=
  if decide (c_nodes comp = []) then None else
  let st := foldl (insert_node comp)
              (mkInsertNodes (m_graph s) (m_nodeCopy s) (m_nodeOrig s) [] [])
              (c_nodes comp) in
  r ← insert_edges comp (in_nodeCopy st) (mkInsertEdges (in_graph st) 0 None) (c_edges comp);
  let data := mkMetadata (ie_start r) (quicksort (in_terminals st)) (ie_cost r) extra0 in
  Some (mkStore (ie_graph r)
          (foldl (λ cp vO, delete vO cp) (in_nodeCopy st) (in_tempUse st))
          (in_nodeOrig st)
          (m_components s ++ [data])).

(** [size()], [isEmpty()] *)
Definition size (s : Store Y) : Z := Z.of_nat (length (m_components s)).
Definition isEmpty (s : Store Y) : bool := bool_decide (m_components s = []).

(** [OGDF_ASSERT(id >= 0); OGDF_ASSERT(id < m_components.size())] *)
Definition assert_id (s : Store Y) (id : Z) : option unit :=
  if decide (0 ≤ id ∧ id < size s) then Some tt else None.

(** [terminals(id)], [isTerminal(id, t)], [cost(i)], [start(i)] *)
Definition terminals_of (s : Store Y) (id : Z) : option (list nat) :=
  _ ← assert_id s id; terminals <$> component s id.

Definition isTerminal_in (s : Store Y) (id : Z) (t : nat) : option bool :=
  _ ← assert_id s id;
  c ← component s id;
  Some (bool_decide (linearSearch t (terminals c) ≠ -1)).

Definition cost_of (s : Store Y) (i : Z) : option Z :=
  _ ← assert_id s i; cost <$> component s i.

Definition start_of (s : Store Y) (i : Z) : option (option adjEntry) :=
  _ ← assert_id s i; start <$> component s i.

(** [isTerminal(v)] for a node of the shared graph *)
Definition isTerminal (s : Store Y) (v : nat) : option bool :=
  m_isTerminal <$> m_nodeOrig s !! v.

(** [original(v)] *)
Definition original (s : Store Y) (v : nat) : option nat := m_nodeOrig s !! v.

(** [remove(id)]: the walk that takes the private nodes and edges of the
    component out of the shared graph.  [stack] has its top first. *)
Definition push_twinNode (G : EdgeWeightedGraph) (capacity : Z)
    (st : option (list nat)) (adj : adjEntry) : option (list nat) :=
  st0 ← st; w ← twinNode G adj; stack_push capacity w st0.

Fixpoint remove_walk (fuel : nat) (s : Store Y) (capacity : Z)
    (G : EdgeWeightedGraph) (stack : list nat) : option EdgeWeightedGraph :=
  match stack with
  | [] => Some G
  | v :: stack' =>
      match fuel with
      | O => None
      | S fuel' =>
          t ← isTerminal s v;
          if t : bool then remove_walk fuel' s capacity G stack'
          else
            l ← adjEntries G !! v;
            stack'' ← foldl (push_twinNode G capacity) (Some stack') l;
            G' ← delNode G v;
            remove_walk fuel' s capacity G' stack''
      end
  end.

Definition remove_in_graph (fuel : nat) (s : Store Y) (comp : Metadata Y)
  : option EdgeWeightedGraph :=
  st ← start comp;
  if decide (length (terminals comp) = 2%nat) then delEdge (m_graph s) (theEdge st)
  else
    let capacity := 2 * Z.of_nat (length (terminals comp)) - 3 in
    v ← twinNode (m_graph s) st;
    stack ← stack_push capacity v [];
    G ← delEdge (m_graph s) (theEdge st);
    remove_walk fuel s capacity G stack.

Definition remove (fuel : nat) (s : Store Y) (id : Z) : option (Store Y) :=
  comp ← component s id;
  G ← remove_in_graph fuel s comp;
  comps ← remove_record (m_components s) id;
  Some (mkStore G (m_nodeCopy s) (m_nodeOrig s) comps).

(** [foreachAdjEntry(i, f)].  The callback [f] runs on a state of type [A]
    and may fail. *)
Fixpoint push_others (n : nat) (G : EdgeWeightedGraph) (capacity : Z)
    (back adj : adjEntry) (stack : list adjEntry) : option (list adjEntry) :=
  if decide (adj = back) then Some stack
  else match n with
       | O => None
       | S n' =>
           stack' ← stack_push capacity adj stack;
           adj' ← cyclicSucc G adj;
           push_others n' G capacity back adj' stack'
       end.

Fixpoint foreach_walk {A} (fuel : nat) (s : Store Y) (capacity : Z)
    (f : adjEntry → A → option A) (stack : list adjEntry) (acc : A) : option A :=
  match stack with
  | [] => Some acc
  | top :: stack' =>
      match fuel with
      | O => None
      | S fuel' =>
          let back := twin top in
          acc' ← f back acc;
          v ← theNode (m_graph s) back;
          t ← isTerminal s v;
          if t : bool then foreach_walk fuel' s capacity f stack' acc'
          else
            l ← adjEntries (m_graph s) !! v;
            adj ← cyclicSucc (m_graph s) back;
            stack'' ← push_others (length l) (m_graph s) capacity back adj stack';
            foreach_walk fuel' s capacity f stack'' acc'
      end
  end.

Definition foreachAdjEntry {A} (fuel : nat) (s : Store Y) (i : Z)
    (f : adjEntry → A → option A) (acc : A) : option A :=
  comp ← component s i;
  st ← start comp;
  if decide (length (terminals comp) = 2%nat) then f (twin st) acc
  else
    let capacity := 2 * Z.of_nat (length (terminals comp)) - 2 in
    stack ← stack_push capacity st [];
    foreach_walk fuel s capacity f stack acc.

(** The handles [foreachAdjEntry(i, ·)] visits, in order. *)
Definition visited (fuel : nat) (s : Store Y) (i : Z) : option (list adjEntry) :=
  foreachAdjEntry fuel s i (λ back l, Some (l ++ [back])) [].

(** [foreachNode(id, f)] *)
Definition foreachNode {A} (fuel : nat) (s : Store Y) (id : Z)
    (f : nat → A → option A) (acc : A) : option A :=
  st0 ← start_of s id;
  st ← st0;
  v ← theNode (m_graph s) st;
  vO ← original s v;
  acc' ← f vO acc;
  foreachAdjEntry fuel s id
    (λ back a, w ← theNode (m_graph s) back; wO ← original s w; f wO a) acc'.

(** [e->opposite(v)] *)
Definition opposite (e : EdgeElement) (v : nat) : nat :=
  if decide (v = source e) then target e else source e.

(** [for (v = ...; pred[u][v]; v = pred[u][v]->opposite(v)) f(...)] *)
Fixpoint path_edges {A} (fuel : nat) (pred : nat → nat → option EdgeElement)
    (f : EdgeElement → nat → A → option A) (u v : nat) (acc : A) : option A :=
  match pred u v with
  | None => Some acc
  | Some e =>
      match fuel with
      | O => None
      | S fuel' => acc' ← f e v acc; path_edges fuel' pred f u (opposite e v) acc'
      end
  end.

(** [foreachEdge(id, pred, f)] *)
Definition foreachEdge {A} (fuel : nat) (s : Store Y) (id : Z)
    (pred : nat → nat → option EdgeElement)
    (f : EdgeElement → A → option A) (acc : A) : option A :=
  foreachAdjEntry fuel s id
    (λ back a,
       x ← twinNode (m_graph s) back; u ← original s x;
       y ← theNode (m_graph s) back; v ← original s y;
       path_edges fuel pred (λ e _, f e) u v a) acc.

(** [while (v != u) { v = pred[u][v]->opposite(v); f(v); }] *)
Fixpoint path_to {A} (fuel : nat) (pred : nat → nat → option EdgeElement)
    (f : nat → A → option A) (u v : nat) (acc : A) : option A :=
  if decide (v = u) then Some acc
  else match fuel with
       | O => None
       | S fuel' =>
           e ← pred u v;
           acc' ← f (opposite e v) acc;
           path_to fuel' pred f u (opposite e v) acc'
       end.

Definition hub_step {A} (fuel : nat) (s : Store Y)
    (pred : nat → nat → option EdgeElement) (f : nat → A → option A)
    (cO : nat) (acc : option A) (adj : adjEntry) : option A :=
  a ← acc;
  x ← twinNode (m_graph s) adj; u ← original s x;
  path_to fuel pred f u cO a.

(** [foreachNode(id, pred, f)] *)
Definition foreachNode_pred {A} (fuel : nat) (s : Store Y) (id : Z)
    (pred : nat → nat → option EdgeElement)
    (f : nat → A → option A) (acc : A) : option A :=
  comp ← component s id;
  if decide (length (terminals comp) = 3%nat) then
    st ← start comp;
    c ← twinNode (m_graph s) st;
    cO ← original s c;
    acc' ← f cO acc;
    l ← adjEntries (m_graph s) !! c;
    foldl (hub_step fuel s pred f cO) (Some acc') l
  else
    st0 ← start_of s id;
    st ← st0;
    v ← theNode (m_graph s) st;
    vO ← original s v;
    acc' ← f vO acc;
    foreachAdjEntry fuel s id
      (λ back a,
         x ← twinNode (m_graph s) back; u ← original s x;
         y ← theNode (m_graph s) back; w ← original s y;
         path_edges fuel pred (λ _ v', f v') u w a) acc'.

End FullComponentStore.

(** ** The loss extension *)

Record LossMetadata : Type := mkLoss { loss : Z; bridges : list nat }.

Definition LossMetadata0 : LossMetadata := mkLoss 0 [].

Record LossStore : Type := mkLossStore {
  store : Store LossMetadata;
  m_lossTerminal : gmap nat nat
}.

Section FullComponentWithLossStore.
Context (m_terminals : list nat) (m_isTerminal : nat → bool).
(** [computeMinST(s, G, weights, pred, isLossEdge)] is not part of the files
    at hand: it is a parameter, giving the predecessor edge of every node and
    the flag of every edge. *)
Context (computeMinST : nat → EdgeWeightedGraph → (nat → option nat) * (nat → bool)).

(** [findLossTerminal(u, pred)]; the result is the new [m_lossTerminal] and
    the returned node, if any. *)
Fixpoint findLossTerminal (fuel : nat) (G : EdgeWeightedGraph) (pred : nat → option nat)
    (lt : gmap nat nat) (u : nat) : option (gmap nat nat * option nat) :=
  match lt !! u, pred u with
  | None, Some e =>
      match fuel with
      | O => None
      | S fuel' =>
          r ← edges G !! e;
          '(lt', res) ← findLossTerminal fuel' G pred lt (opposite r u);
          let lt'' := match res with
                      | Some t => <[u := t]> lt'
                      | None => delete u lt'
                      end in
          Some (lt'', lt'' !! u)
      end
  | _, _ => Some (lt, lt !! u)
  end.

(** The zero-cost edges from the first terminal to every other one. *)
Definition add_zero_edge (cp : gmap nat nat) (sC : nat)
    (st : option (EdgeWeightedGraph * gmap nat nat * list nat)) (v : nat)
  : option (EdgeWeightedGraph * gmap nat nat * list nat) :=
  '(G, lt, zeroEdges) ← st;
  vC ← cp !! v;
  '(e, G') ← newEdge G sC vC 0;
  Some (G', <[vC := v]> lt, zeroEdges ++ [e]).

(** The callback of the last loop of [computeAllLosses]. *)
Definition classify (fuel : nat) (G : EdgeWeightedGraph)
    (pred : nat → option nat) (isLossEdge : nat → bool)
    (adj : adjEntry) (st : LossMetadata * gmap nat nat)
  : option (LossMetadata * gmap nat nat) :=
  let '(x, lt) := st in
  let e := theEdge adj in
  r ← edges G !! e;
  if isLossEdge e then Some (mkLoss (loss x + weight r) (bridges x), lt)
  else
    '(lt1, _) ← findLossTerminal fuel G pred lt (source r);
    '(lt2, _) ← findLossTerminal fuel G pred lt1 (target r);
    Some (mkLoss (loss x) (bridges x ++ [e]), lt2).

Definition set_extra (x : LossMetadata) (c : Metadata LossMetadata)
  : Metadata LossMetadata :=
  mkMetadata (start c) (terminals c) (cost c) x.

Definition loss_step (fuel : nat) (pred : nat → option nat) (isLossEdge : nat → bool)
    (st : option LossStore) (id : nat) : option LossStore :=
  ls ← st;
  let s := store ls in
  c ← component s (Z.of_nat id);
  '(x, lt) ← foreachAdjEntry m_isTerminal fuel s (Z.of_nat id)
               (classify fuel (m_graph s) pred isLossEdge) (extra c, m_lossTerminal ls);
  Some (mkLossStore
          (mkStore (m_graph s) (m_nodeCopy s) (m_nodeOrig s)
                   (<[id := set_extra x c]> (m_components s)))
          lt).

(** [computeAllLosses()] *)
Definition computeAllLosses (fuel : nat) (ls : LossStore) : option LossStore :=
  let s := store ls in
  t ← head m_terminals;
  sC ← m_nodeCopy s !! t;
  '(G1, lt, zeroEdges) ←
    foldl (add_zero_edge (m_nodeCopy s) sC)
          (Some (m_graph s, {[sC := t]}, [])) (tail m_terminals);
  let '(pred, isLossEdge) := computeMinST sC G1 in
  G2 ← foldl (λ g e, g0 ← g; delEdge g0 e) (Some G1) zeroEdges;
  foldl (loss_step fuel pred isLossEdge)
        (Some (mkLossStore
                 (mkStore G2 (m_nodeCopy s) (m_nodeOrig s) (m_components s)) lt))
        (seq 0 (length (m_components s))).

(** [loss(id)], [lossBridges(id)], [lossTerminal(v)] *)
Definition loss_of (ls : LossStore) (id : Z) : option Z :=
  _ ← assert_id (store ls) id; (λ c, loss (extra c)) <$> component (store ls) id.

Definition lossBridges (ls : LossStore) (id : Z) : option (list nat) :=
  _ ← assert_id (store ls) id; (λ c, bridges (extra c)) <$> component (store ls) id.

Definition lossTerminal (ls : LossStore) (v : nat) : option nat :=
  m_lossTerminal ls !! v.

End FullComponentWithLossStore.


(** ** Notions used to state the properties of the store *)

(** Every handle of an adjacency list belongs to a live edge that has the
    node of the list at that end, and the counters are above every index in
    use. *)
Record graph_ok (G : EdgeWeightedGraph) : Prop := mkGraphOk {
  gok_handle : ∀ x l a, adjEntries G !! x = Some l → a ∈ l → theNode G a = Some x;
  gok_node : ∀ x, is_Some (adjEntries G !! x) → (x < nodeIdCount G)%nat;
  gok_edge : ∀ e, is_Some (edges G !! e) → (e < edgeIdCount G)%nat
}.

(** The graph without the edges [D] and the nodes [N]. *)
Definition drop_edges (D : list nat) (l : list adjEntry) : list adjEntry :=
  filter (λ a, theEdge a ∉ D) l.

Definition prune (G : EdgeWeightedGraph) (D N : list nat) : EdgeWeightedGraph :=
  mkGraph (drop_edges D <$> filter (λ kv, kv.1 ∉ N) (adjEntries G))
          (filter (λ kv, kv.1 ∉ D) (edges G))
          (nodeIdCount G) (edgeIdCount G).

Global Arguments prune : simpl never.
Global Arguments drop_edges : simpl never.

Definition Zsum (l : list Z) : Z := foldr Z.add 0 l.

Definition edge_weight (G : EdgeWeightedGraph) (e : nat) : Z :=
  default 0 (weight <$> edges G !! e).

(** A full component seen from its start handle: the handle [a] leaves the
    parent node, [v] is the node at the other end, and [subs] are the
    branches that leave [v]. *)
Inductive branch : Type := Br (a : adjEntry) (v : nat) (subs : list branch).

Definition br_entry (B : branch) : adjEntry := match B with Br a _ _ => a end.
Definition br_node (B : branch) : nat := match B with Br _ v _ => v end.
Definition br_subs (B : branch) : list branch := match B with Br _ _ subs => subs end.

Fixpoint br_edges (B : branch) : list nat :=
  match B with Br a _ subs => theEdge a :: (subs ≫= br_edges) end.

Fixpoint br_entries (B : branch) : list adjEntry :=
  match B with Br a _ subs => a :: (subs ≫= br_entries) end.

Fixpoint br_nodes (B : branch) : list nat :=
  match B with Br _ v subs => v :: (subs ≫= br_nodes) end.

(** The nodes that have branches of their own: the Steiner nodes. *)
Fixpoint br_inner (B : branch) : list nat :=
  match B with
  | Br _ _ [] => []
  | Br _ v subs => v :: (subs ≫= br_inner)
  end.

(** The nodes without branches: the terminals below the start handle. *)
Fixpoint br_leaves (B : branch) : nat :=
  match B with
  | Br _ _ [] => 1
  | Br _ _ subs => sum_list (br_leaves <$> subs)
  end.

(** How a tree of the caller looks from one of its nodes.  [T] lists the
    edges with their index; [incident T v] lists the handles on [v] in the
    order of [T]. *)
Definition incident_one (v : nat) (t : nat * EdgeElement) : list adjEntry :=
  (if decide (source t.2 = v) then [adjSource t.1] else []) ++
  (if decide (target t.2 = v) then [adjTarget t.1] else []).

Definition incident (T : list (nat * EdgeElement)) (v : nat) : list adjEntry :=
  T ≫= incident_one v.

Inductive covers (T : list (nat * EdgeElement)) : nat → branch → Prop :=
| covers_intro p a v subs r :
    (theEdge a, r) ∈ T →
    endpoint r (isTgt a) = p →
    endpoint r (negb (isTgt a)) = v →
    incident T v ≡ₚ twin a :: (br_entry <$> subs) →
    Forall (covers T v) subs →
    covers T p (Br a v subs).

(** Modelled from the spec: [isTree] is not part of the files at hand.  A
    tree is connected and has no cycle: it is one node, or a tree with one
    more node hung on one of its nodes by one more edge, whatever the order
    of the nodes and of the edges. *)
Inductive isTree : list nat → list (nat * nat) → Prop :=
| isTree_single v : isTree [v] []
| isTree_leaf V E u v :
    isTree V E → u ∈ V → v ∉ V → isTree (v :: V) ((u, v) :: E)
| isTree_leaf_rev V E u v :
    isTree V E → u ∈ V → v ∉ V → isTree (v :: V) ((v, u) :: E)
| isTree_perm V V' E E' :
    V ≡ₚ V' → E ≡ₚ E' → isTree V E → isTree V' E'.

Definition copy_pairs (comp : EdgeWeightedGraphCopy) : list (nat * nat) :=
  (λ e, (ce_source e, ce_target e)) <$> c_edges comp.

(** The number of edge ends on a node of the tree. *)
Definition degree (comp : EdgeWeightedGraphCopy) (v : nat) : nat :=
  (length (filter (λ e, ce_source e = v) (c_edges comp)) +
   length (filter (λ e, ce_target e = v) (c_edges comp)))%nat.

Section Invariant.
Context (m_terminals : list nat) (m_isTerminal : nat → bool).

(** The incidence vector marks the nodes of the terminal list. *)
Definition instance_ok : Prop :=
  ∀ v, m_isTerminal v = true ↔ v ∈ m_terminals.

(** The branch [B], entered from the node [p], is laid out in the shared
    graph: a terminal ends it, a Steiner node has exactly the handle back
    and the handles of at least two further branches. *)
Inductive embeds (G : EdgeWeightedGraph) (og : gmap nat nat) : nat → branch → Prop :=
| embeds_intro p a v subs r vO :
    edges G !! theEdge a = Some r →
    endpoint r (isTgt a) = p →
    endpoint r (negb (isTgt a)) = v →
    og !! v = Some vO →
    (if m_isTerminal vO then subs = []
     else ∃ l, adjEntries G !! v = Some l ∧
               l ≡ₚ twin a :: (br_entry <$> subs) ∧ (2 ≤ length subs)%nat) →
    Forall (embeds G og v) subs →
    embeds G og p (Br a v subs).

(** The same once the edge of the handle back has been deleted. *)
Inductive hanging (G : EdgeWeightedGraph) (og : gmap nat nat) : branch → Prop :=
| hanging_intro a v subs vO :
    og !! v = Some vO →
    (if m_isTerminal vO then subs = []
     else ∃ l, adjEntries G !! v = Some l ∧
               l ≡ₚ br_entry <$> subs ∧ (2 ≤ length subs)%nat) →
    Forall (embeds G og v) subs →
    hanging G og (Br a v subs).

(** The tree handed to [insert] is a full component: a tree whose nodes
    stand for distinct original nodes, whose terminals are leaves and whose
    other nodes have degree at least three. *)
Record full_component (comp : EdgeWeightedGraphCopy) : Prop := mkFullComponent {
  fc_tree : isTree (c_nodes comp) (copy_pairs comp);
  fc_injective : ∀ u v, u ∈ c_nodes comp → v ∈ c_nodes comp →
                 c_original comp u = c_original comp v → u = v;
  fc_leaf : ∀ v, v ∈ c_nodes comp →
            m_isTerminal (c_original comp v) = true → degree comp v = 1%nat;
  fc_inner : ∀ v, v ∈ c_nodes comp →
             m_isTerminal (c_original comp v) = false → (3 ≤ degree comp v)%nat
}.

Context {Y : Type} (extra0 : Y).

(** A record of the table and the branch it stands for. *)
Record component_ok (s : Store Y) (c : Metadata Y) (B : branch) : Prop := mkComponentOk {
  cok_start : start c = Some (br_entry B);
  cok_root : ∃ p t, embeds (m_graph s) (m_nodeOrig s) p B ∧
                    m_nodeOrig s !! p = Some t ∧ m_isTerminal t = true;
  cok_terminals : length (terminals c) = S (br_leaves B);
  cok_cost : cost c = Zsum (edge_weight (m_graph s) <$> br_edges B);
  cok_shared : ∀ v vO,
    theNode (m_graph s) (br_entry B) = Some v ∨ v ∈ br_nodes B →
    m_nodeOrig s !! v = Some vO → m_isTerminal vO = true →
    m_nodeCopy s !! vO = Some v
}.

(** The invariant of the store. *)
Record store_ok (s : Store Y) : Prop := mkStoreOk {
  sok_graph : graph_ok (m_graph s);
  sok_copy_dom : ∀ v, is_Some (m_nodeCopy s !! v) ↔ v ∈ m_terminals;
  sok_copy_orig : ∀ t c, m_nodeCopy s !! t = Some c →
                  m_nodeOrig s !! c = Some t ∧ is_Some (adjEntries (m_graph s) !! c);
  sok_orig_bound : ∀ v, is_Some (m_nodeOrig s !! v) → (v < nodeIdCount (m_graph s))%nat;
  sok_components : ∃ Bs, Forall2 (component_ok s) (m_components s) Bs ∧
                         NoDup (Bs ≫= br_edges) ∧ NoDup (Bs ≫= br_inner)
}.

(** The stores that arise from the constructor by inserting full components
    and removing components. *)
Inductive reachable : Store Y → Prop :=
| reachable_init : reachable (init m_terminals)
| reachable_insert s comp s' :
    reachable s → full_component comp →
    insert m_isTerminal extra0 s comp = Some s' → reachable s'
| reachable_remove s fuel id s' :
    reachable s → remove m_isTerminal fuel s id = Some s' → reachable s'.

End Invariant.

(** Running a callback over a list of handles, in order. *)
Fixpoint visit_all {A} (f : adjEntry → A → option A) (vis : list adjEntry) (acc : A)
  : option A :=
  match vis with
  | [] => Some acc
  | a :: vis' => acc' ← f a acc; visit_all f vis' acc'
  end.

(** ** The graph operations *)

Section GraphFacts.
Implicit Types (G : EdgeWeightedGraph) (a : adjEntry) (l : list adjEntry).

Lemma filter_ext_in {A} (P Q : A → Prop) `{∀ x, Decision (P x)} `{∀ x, Decision (Q x)}
    (l : list A) :
  (∀ x, x ∈ l → (P x ↔ Q x)) → filter P l = filter Q l.
Proof.
  induction l as [|x l IH]; intros HPQ; [done|].
  rewrite !filter_cons.
  assert (P x ↔ Q x) as Hx by (apply HPQ; left).
  rewrite IH by (intros y Hy; apply HPQ; by right).
  destruct (decide (P x)), (decide (Q x)); tauto.
Qed.

Lemma filter_all {A} (P : A → Prop) `{∀ x, Decision (P x)} (l : list A) :
  (∀ x, x ∈ l → P x) → filter P l = l.
Proof.
  induction l as [|x l IH]; intros HP; [done|].
  rewrite filter_cons. rewrite decide_True by (apply HP; left).
  f_equal. apply IH. intros y Hy. apply HP. by right.
Qed.

Lemma twin_twin a : twin (twin a) = a.
Proof. destruct a as [e b]. unfold twin. simpl. by rewrite negb_involutive. Qed.

Lemma twin_ne a : twin a ≠ a.
Proof. destruct a as [e []]; unfold twin; simpl; congruence. Qed.

Lemma theEdge_twin a : theEdge (twin a) = theEdge a.
Proof. done. Qed.

Lemma theNode_Some G a x :
  theNode G a = Some x ↔ ∃ r, edges G !! theEdge a = Some r ∧ endpoint r (isTgt a) = x.
Proof.
  unfold theNode. destruct (edges G !! theEdge a) as [r|]; simpl.
  - split; [intros [= <-]; eauto | intros (r' & [= <-] & <-); done].
  - split; [done | intros (r' & ? & _); done].
Qed.

Lemma lookup_prune_adj G D N x :
  adjEntries (prune G D N) !! x =
  if decide (x ∈ N) then None else drop_edges D <$> adjEntries G !! x.
Proof.
  unfold prune; simpl. rewrite lookup_fmap, map_lookup_filter.
  destruct (adjEntries G !! x) as [l|]; simpl; [|by case_decide].
  case_guard; case_decide; simpl in *; done.
Qed.

Lemma lookup_prune_edges G D N e :
  edges (prune G D N) !! e = if decide (e ∈ D) then None else edges G !! e.
Proof.
  unfold prune; simpl. rewrite map_lookup_filter.
  destruct (edges G !! e) as [r|]; simpl; [|by case_decide].
  case_guard; case_decide; simpl in *; done.
Qed.

Lemma graph_eq G G' :
  (∀ x, adjEntries G !! x = adjEntries G' !! x) →
  (∀ e, edges G !! e = edges G' !! e) →
  nodeIdCount G = nodeIdCount G' → edgeIdCount G = edgeIdCount G' → G = G'.
Proof.
  destruct G, G'; simpl. intros H1 H2 -> ->.
  f_equal; by apply map_eq.
Qed.

Lemma drop_edges_drop_edges D1 D2 l :
  drop_edges D2 (drop_edges D1 l) = drop_edges (D1 ++ D2) l.
Proof.
  unfold drop_edges. rewrite list_filter_filter.
  apply list_filter_iff. intros a. rewrite elem_of_app. tauto.
Qed.

Lemma prune_prune G D1 N1 D2 N2 :
  prune (prune G D1 N1) D2 N2 = prune G (D1 ++ D2) (N1 ++ N2).
Proof.
  apply graph_eq; try done.
  - intros x. rewrite !lookup_prune_adj.
    repeat case_decide; try done; try (exfalso; set_solver).
    destruct (adjEntries G !! x); simpl; [|done].
    by rewrite drop_edges_drop_edges.
  - intros e. rewrite !lookup_prune_edges.
    repeat case_decide; try done; exfalso; set_solver.
Qed.

Lemma prune_ext G D N D' N' :
  (∀ e, e ∈ D ↔ e ∈ D') → (∀ x, x ∈ N ↔ x ∈ N') → prune G D N = prune G D' N'.
Proof.
  intros HD HN. apply graph_eq; try done.
  - intros x. rewrite !lookup_prune_adj.
    repeat case_decide; try done; try (exfalso; naive_solver).
    destruct (adjEntries G !! x); simpl; [|done].
    f_equal. apply list_filter_iff. intros a. by rewrite HD.
  - intros e. rewrite !lookup_prune_edges.
    repeat case_decide; try done; exfalso; naive_solver.
Qed.

Lemma prune_nil G : prune G [] [] = G.
Proof.
  apply graph_eq; try done.
  - intros x. rewrite lookup_prune_adj. rewrite decide_False by set_solver.
    destruct (adjEntries G !! x) as [l|]; simpl; [|done].
    f_equal. apply filter_all. intros; set_solver.
  - intros e. rewrite lookup_prune_edges. by rewrite decide_False by set_solver.
Qed.

Lemma graph_ok_prune G D N : graph_ok G → graph_ok (prune G D N).
Proof.
  intros [Hh Hn He]. split.
  - intros x l a. rewrite lookup_prune_adj. case_decide; [done|].
    destruct (adjEntries G !! x) as [l0|] eqn:Hx; simpl; [|done].
    intros [= <-] [Ha Hin]%list_elem_of_filter.
    specialize (Hh _ _ _ Hx Hin).
    apply theNode_Some in Hh as (r & Hr & Hend). apply theNode_Some.
    exists r. split; [|done]. rewrite lookup_prune_edges. by rewrite decide_False.
  - intros x. rewrite lookup_prune_adj. case_decide; [by intros [? ?]|].
    intros Hs. apply Hn. by apply fmap_is_Some in Hs.
  - intros e. rewrite lookup_prune_edges. case_decide; [by intros [? ?]|]. apply He.
Qed.

Lemma prune_dead G e D N :
  graph_ok G → edges G !! e = None → prune G (e :: D) N = prune G D N.
Proof.
  intros [Hh _ _] He. apply graph_eq; try done.
  - intros x. rewrite !lookup_prune_adj. case_decide; [done|].
    destruct (adjEntries G !! x) as [l|] eqn:Hx; simpl; [|done].
    f_equal. apply filter_ext_in. intros a Ha. cbn beta.
    rewrite elem_of_cons. split; [tauto|]. intros HD [Heq|?]; [|done].
    specialize (Hh _ _ _ Hx Ha). apply theNode_Some in Hh as (r & Hr & _). congruence.
  - intros e'. rewrite !lookup_prune_edges.
    repeat case_decide; try done.
    + set_solver.
    + destruct (decide (e' = e)) as [->|]; [done|]. set_solver.
Qed.

Lemma delEdge_prune G e r :
  graph_ok G → edges G !! e = Some r → delEdge G e = Some (prune G [e] []).
Proof.
  intros [Hh _ _] He. unfold delEdge. rewrite He. simpl. apply (f_equal Some).
  apply graph_eq; try done.
  - intros x. rewrite lookup_prune_adj. rewrite decide_False by set_solver. simpl.
    assert (alter (filter (λ a, a ≠ adjTarget e)) (target r)
             (alter (filter (λ a, a ≠ adjSource e)) (source r) (adjEntries G)) !! x
            = (λ l, (if decide (target r = x) then filter (λ a, a ≠ adjTarget e) else id)
                      ((if decide (source r = x) then filter (λ a, a ≠ adjSource e) else id) l))
              <$> adjEntries G !! x) as ->.
    { rewrite !lookup_alter.
      destruct (decide (target r = x)) as [Ht|Ht], (decide (source r = x)) as [Hs|Hs];
        rewrite ?Ht, ?Hs; try rewrite decide_True by congruence;
        try rewrite decide_False by congruence;
        destruct (adjEntries G !! x); simpl; done. }
    destruct (adjEntries G !! x) as [l|] eqn:Hx; simpl; [|done].
    assert (∀ a, a ∈ l → theEdge a = e → endpoint r (isTgt a) = x) as Hend.
    { intros a Ha Hae. specialize (Hh _ _ _ Hx Ha).
      apply theNode_Some in Hh as (r' & Hr' & Hend). rewrite Hae in Hr'. congruence. }
    unfold drop_edges. f_equal.
    repeat case_decide; subst; simpl.
    + rewrite list_filter_filter. apply filter_ext_in. intros [e' b] Ha.
      unfold adjSource, adjTarget. rewrite list_elem_of_singleton. simpl.
      split; [intros [? ?] ->; destruct b; congruence|].
      intros Hne; split; congruence.
    + apply filter_ext_in. intros [e' b] Ha.
      unfold adjTarget. rewrite list_elem_of_singleton. simpl.
      split; [intros ? ->; destruct b; [congruence|] | intros Hne; congruence].
      specialize (Hend _ Ha eq_refl). simpl in Hend. congruence.
    + apply filter_ext_in. intros [e' b] Ha.
      unfold adjSource. rewrite list_elem_of_singleton. simpl.
      split; [intros ? ->; destruct b; [|congruence] | intros Hne; congruence].
      specialize (Hend _ Ha eq_refl). simpl in Hend. congruence.
    + symmetry. apply filter_all. intros [e' b] Ha.
      rewrite list_elem_of_singleton. simpl. intros ->.
      specialize (Hend _ Ha eq_refl). destruct b; simpl in Hend; congruence.
  - intros e'. rewrite lookup_prune_edges. simpl.
    case_decide as Hin.
    + apply list_elem_of_singleton in Hin as ->. by rewrite lookup_delete_eq.
    + rewrite lookup_delete_ne; [done|]. set_solver.
Qed.

Lemma delEdges_prune G (es : list nat) :
  graph_ok G →
  foldl (λ g e, default g (delEdge g e)) G es = prune G es [].
Proof.
  revert G. induction es as [|e es IH]; intros G HG; simpl.
  - by rewrite prune_nil.
  - destruct (edges G !! e) as [r|] eqn:He.
    + rewrite (delEdge_prune _ _ _ HG He). simpl.
      rewrite IH by by apply graph_ok_prune. by rewrite prune_prune.
    + assert (delEdge G e = None) as -> by (unfold delEdge; by rewrite He).
      simpl. rewrite IH by done. by rewrite prune_dead.
Qed.

Lemma delNode_prune G v l :
  graph_ok G → adjEntries G !! v = Some l →
  delNode G v = Some (prune G (theEdge <$> l) [v]).
Proof.
  intros HG Hv. unfold delNode. rewrite Hv. simpl. apply (f_equal Some).
  assert (foldl (λ g a, default g (delEdge g (theEdge a))) G l
          = prune G (theEdge <$> l) []) as ->.
  { rewrite <-delEdges_prune by done. clear. revert G.
    induction l as [|a l IH]; intros G; simpl; [done|]. by rewrite IH. }
  apply graph_eq; try done.
  - intros x. rewrite lookup_prune_adj. cbn [adjEntries].
    destruct (decide (x = v)) as [->|Hne].
    + rewrite lookup_delete_eq. by rewrite decide_True by set_solver.
    + rewrite lookup_delete_ne by done. rewrite lookup_prune_adj.
      by rewrite !decide_False by set_solver.
Qed.

Lemma graph_ok_newNode G : graph_ok G → graph_ok (newNode G).2.
Proof.
  intros [Hh Hn He]. split; simpl.
  - intros x l a. rewrite lookup_insert. case_decide.
    + intros [= <-]. by intros ?%elem_of_nil.
    + apply Hh.
  - intros x. rewrite lookup_insert. case_decide; [lia|].
    intros Hx. specialize (Hn _ Hx). lia.
  - done.
Qed.

Lemma graph_ok_newEdge G v w wt e G' :
  graph_ok G → newEdge G v w wt = Some (e, G') → graph_ok G'.
Proof.
  intros [Hh Hn He]. unfold newEdge.
  destruct (adjEntries G !! v) as [lv|] eqn:Hv; [|done].
  destruct (adjEntries G !! w) as [lw|] eqn:Hw; [|done].
  intros [= <- <-]. split; simpl.
  - intros x l a Hx Ha.
    assert (∀ b l0, adjEntries G !! x = Some l0 → b ∈ l0 →
              theNode (mkGraph (alter (λ l, l ++ [adjTarget (edgeIdCount G)]) w
                (alter (λ l, l ++ [adjSource (edgeIdCount G)]) v (adjEntries G)))
                (<[edgeIdCount G := EdgeE v w wt]> (edges G)) (nodeIdCount G)
                (S (edgeIdCount G))) b = Some x) as Hold.
    { intros b l0 Hl0 Hb. specialize (Hh _ _ _ Hl0 Hb).
      apply theNode_Some in Hh as (r & Hr & Hend). apply theNode_Some.
      exists r. split; [|done]. simpl. rewrite lookup_insert_ne; [done|].
      intros Heq. assert (is_Some (edges G !! theEdge b)) as Hs by eauto.
      apply He in Hs. lia. }
    assert (theNode (mkGraph (alter (λ l, l ++ [adjTarget (edgeIdCount G)]) w
                (alter (λ l, l ++ [adjSource (edgeIdCount G)]) v (adjEntries G)))
                (<[edgeIdCount G := EdgeE v w wt]> (edges G)) (nodeIdCount G)
                (S (edgeIdCount G))) (adjSource (edgeIdCount G)) = Some v) as Hsrc.
    { apply theNode_Some. eexists. simpl. by rewrite lookup_insert_eq. }
    assert (theNode (mkGraph (alter (λ l, l ++ [adjTarget (edgeIdCount G)]) w
                (alter (λ l, l ++ [adjSource (edgeIdCount G)]) v (adjEntries G)))
                (<[edgeIdCount G := EdgeE v w wt]> (edges G)) (nodeIdCount G)
                (S (edgeIdCount G))) (adjTarget (edgeIdCount G)) = Some w) as Htgt.
    { apply theNode_Some. eexists. simpl. by rewrite lookup_insert_eq. }
    rewrite !lookup_alter in Hx.
    repeat case_decide; subst; rewrite ?Hv, ?Hw in Hx; simpl in Hx;
      try (injection Hx as <-);
      repeat (apply elem_of_app in Ha as [Ha| ->%list_elem_of_singleton]); eauto.
  - intros x. rewrite !lookup_alter_is_Some. apply Hn.
  - intros e. rewrite lookup_insert. case_decide; [lia|].
    intros Hs. apply He in Hs. lia.
Qed.

End GraphFacts.

(** ** Branches *)

Section BranchFacts.
Local Open Scope nat_scope.

Lemma branch_induction (P : branch → Prop) :
  (∀ a v subs, Forall P subs → P (Br a v subs)) → ∀ B, P B.
Proof.
  intros H. fix IH 1. intros [a v subs]. apply H.
  induction subs as [|b subs IHs]; constructor; [apply IH | apply IHs].
Qed.

Lemma br_nodes_eq a v subs : br_nodes (Br a v subs) = v :: (subs ≫= br_nodes).
Proof. done. Qed.

Lemma br_edges_eq a v subs : br_edges (Br a v subs) = theEdge a :: (subs ≫= br_edges).
Proof. done. Qed.

Lemma br_entries_eq a v subs : br_entries (Br a v subs) = a :: (subs ≫= br_entries).
Proof. done. Qed.

Lemma br_inner_cons a v b subs :
  br_inner (Br a v (b :: subs)) = v :: ((b :: subs) ≫= br_inner).
Proof. done. Qed.

Lemma br_leaves_cons a v b subs :
  br_leaves (Br a v (b :: subs)) = sum_list (br_leaves <$> (b :: subs)).
Proof. done. Qed.

Lemma br_inner_nonempty a v subs :
  subs ≠ [] → br_inner (Br a v subs) = v :: (subs ≫= br_inner).
Proof. by destruct subs. Qed.

Lemma br_leaves_nonempty a v subs :
  subs ≠ [] → br_leaves (Br a v subs) = sum_list (br_leaves <$> subs).
Proof. by destruct subs. Qed.

Lemma br_leaves_pos B : 1 ≤ br_leaves B.
Proof.
  induction B as [a v subs IH] using branch_induction.
  destruct subs as [|b subs]; [clear IH; simpl; lia|].
  rewrite br_leaves_cons. apply Forall_cons in IH as [Hb _].
  rewrite fmap_cons. cbn beta in Hb. simpl. lia.
Qed.

Lemma length_le_leaves (Bs : list branch) : length Bs ≤ sum_list (br_leaves <$> Bs).
Proof.
  induction Bs as [|B Bs IH]; [simpl; lia|].
  rewrite fmap_cons. simpl. pose proof (br_leaves_pos B). lia.
Qed.

Lemma br_entry_edge B : theEdge (br_entry B) ∈ br_edges B.
Proof. destruct B; simpl. left. Qed.

Lemma br_edges_sub a v subs b e :
  b ∈ subs → e ∈ br_edges b → e ∈ br_edges (Br a v subs).
Proof.
  intros Hb He. simpl. right. apply list_elem_of_bind. eauto.
Qed.

Lemma br_inner_sub a v subs b x :
  b ∈ subs → x ∈ br_inner b → x ∈ br_inner (Br a v subs).
Proof.
  intros Hb Hx. rewrite br_inner_nonempty by (intros ->; by apply elem_of_nil in Hb).
  right. apply list_elem_of_bind. eauto.
Qed.

Lemma br_nodes_sub a v subs b x :
  b ∈ subs → x ∈ br_nodes b → x ∈ br_nodes (Br a v subs).
Proof.
  intros Hb Hx. simpl. right. apply list_elem_of_bind. eauto.
Qed.

Lemma br_inner_nodes B x : x ∈ br_inner B → x ∈ br_nodes B.
Proof.
  induction B as [a v subs IH] using branch_induction.
  destruct subs as [|b subs]; [by intros ?%elem_of_nil|].
  rewrite br_inner_cons, br_nodes_eq.
  intros [->|Hx]%elem_of_cons; [left|right].
  apply list_elem_of_bind in Hx as (c & Hx & Hc).
  apply list_elem_of_bind. exists c. split; [|done].
  rewrite Forall_forall in IH. by apply IH.
Qed.

Lemma br_entries_edges B : theEdge <$> br_entries B = br_edges B.
Proof.
  induction B as [a v subs IH] using branch_induction.
  rewrite br_entries_eq, br_edges_eq, fmap_cons. f_equal.
  induction IH as [|b subs Hb _ IHs]; [done|].
  rewrite !bind_cons, fmap_app. by rewrite Hb, IHs.
Qed.

Lemma br_edges_length B : length (br_edges B) = length (br_entries B).
Proof. by rewrite <-br_entries_edges, length_fmap. Qed.

End BranchFacts.

Section EmbedFacts.
Context (m_isTerminal : nat → bool).
Local Open Scope nat_scope.
Notation embeds := (embeds m_isTerminal).
Notation hanging := (hanging m_isTerminal).

Lemma embeds_inv G og p a v subs :
  embeds G og p (Br a v subs) →
  ∃ r vO, edges G !! theEdge a = Some r ∧ endpoint r (isTgt a) = p ∧
          endpoint r (negb (isTgt a)) = v ∧ og !! v = Some vO ∧
          (if m_isTerminal vO then subs = []
           else ∃ l, adjEntries G !! v = Some l ∧
                     l ≡ₚ twin a :: (br_entry <$> subs) ∧ 2 ≤ length subs) ∧
          Forall (embeds G og v) subs.
Proof. inversion 1; subst. eauto 10. Qed.

Lemma embeds_theNode G og p B :
  embeds G og p B → theNode G (br_entry B) = Some p ∧ twinNode G (br_entry B) = Some (br_node B).
Proof.
  destruct B as [a v subs]. intros (r & vO & Hr & Hp & Hv & _)%embeds_inv. simpl.
  unfold twinNode. split; apply theNode_Some; simpl; eauto.
Qed.

(** A branch only depends on its own edges and on the adjacency lists of its
    own Steiner nodes. *)
Lemma embeds_frame G G' og og' p B :
  (∀ e, e ∈ br_edges B → edges G' !! e = edges G !! e) →
  (∀ x l, x ∈ br_inner B → adjEntries G !! x = Some l →
          (∀ a, a ∈ l → theEdge a ∈ br_edges B) →
          ∃ l', adjEntries G' !! x = Some l' ∧ l' ≡ₚ l) →
  (∀ x, x ∈ br_nodes B → og' !! x = og !! x) →
  embeds G og p B → embeds G' og' p B.
Proof.
  revert p. induction B as [a v subs IH] using branch_induction.
  intros p He Hadj Hog (r & vO & Hr & Hp & Hv & HvO & Hsubs & Hall)%embeds_inv.
  apply embeds_intro with r vO; try done.
  - rewrite He; [done|]. simpl. left.
  - rewrite Hog; [done|]. simpl. left.
  - destruct (m_isTerminal vO); [done|].
    destruct Hsubs as (l & Hl & Hperm & Hlen).
    destruct (Hadj v l) as (l' & Hl' & Hperm'); [| done | |].
    + rewrite br_inner_nonempty by (intros ->; simpl in Hlen; lia). left.
    + intros b Hb. rewrite Hperm in Hb. simpl.
      apply elem_of_cons in Hb as [->|Hb]; [left|right].
      apply list_elem_of_fmap in Hb as (c & -> & Hc).
      apply list_elem_of_bind. exists c. split; [apply br_entry_edge | done].
    + exists l'. split; [done|]. split; [by rewrite Hperm'|done].
  - rewrite Forall_forall in IH, Hall. apply Forall_forall. intros b Hb.
    apply IH; [done| | | |by apply Hall].
    + intros e Hin. apply He. by eapply br_edges_sub.
    + intros x l Hx Hl Hedges. apply Hadj; [by eapply br_inner_sub|done|].
      intros c Hc. eapply br_edges_sub; [done|]. by apply Hedges.
    + intros x Hx. apply Hog. by eapply br_nodes_sub.
Qed.

Lemma embeds_prune G og p B D N :
  (∀ e, e ∈ br_edges B → e ∉ D) → (∀ x, x ∈ br_inner B → x ∉ N) →
  embeds G og p B → embeds (prune G D N) og p B.
Proof.
  intros HD HN. apply embeds_frame; [| |done].
  - intros e He. rewrite lookup_prune_edges. rewrite decide_False; [done|]. by apply HD.
  - intros x l Hx Hl Hedges. rewrite lookup_prune_adj, Hl. simpl.
    rewrite decide_False by by apply HN.
    eexists. split; [done|]. unfold drop_edges. rewrite filter_all; [done|].
    intros c Hc. apply HD. by apply Hedges.
Qed.

(** What is left of a branch once the edge of its handle is gone. *)
Lemma embeds_hanging_prune G og p a v subs D N :
  embeds G og p (Br a v subs) →
  theEdge a ∈ D →
  (∀ e, e ∈ subs ≫= br_edges → e ∉ D) →
  (∀ x, x ∈ br_inner (Br a v subs) → x ∉ N) →
  hanging (prune G D N) og (Br a v subs).
Proof.
  intros (r & vO & Hr & Hp & Hv & HvO & Hsubs & Hall)%embeds_inv Ha HD HN.
  apply hanging_intro with vO; [done| |].
  - destruct (m_isTerminal vO); [done|].
    destruct Hsubs as (l & Hl & Hperm & Hlen).
    exists (drop_edges D l). split; [|split; [|done]].
    + rewrite lookup_prune_adj, Hl. rewrite decide_False; [done|].
      apply HN. rewrite br_inner_nonempty by (intros ->; simpl in Hlen; lia). left.
    + unfold drop_edges. rewrite Hperm. rewrite filter_cons.
      rewrite decide_False by (intros Hn; by apply Hn).
      apply reflexive_eq, filter_all. intros b Hb.
      apply list_elem_of_fmap in Hb as (c & -> & Hc).
      apply HD. apply list_elem_of_bind. exists c. split; [apply br_entry_edge|done].
  - rewrite Forall_forall in Hall. apply Forall_forall. intros b Hb.
    apply embeds_prune; [| |by apply Hall].
    + intros e He. apply HD. apply list_elem_of_bind. eauto.
    + intros x Hx. apply HN. by eapply br_inner_sub.
Qed.

Lemma hanging_prune G og B D N :
  (∀ e, e ∈ br_subs B ≫= br_edges → e ∉ D) → (∀ x, x ∈ br_inner B → x ∉ N) →
  hanging G og B → hanging (prune G D N) og B.
Proof.
  intros HD HN. inversion 1 as [a v subs vO HvO Hsubs Hall]; subst. simpl in HD.
  apply hanging_intro with vO; [done| |].
  - destruct (m_isTerminal vO); [done|].
    destruct Hsubs as (l & Hl & Hperm & Hlen).
    exists l. split; [|done].
    rewrite lookup_prune_adj, Hl. rewrite decide_False.
    2:{ apply HN. rewrite br_inner_nonempty by (intros ->; simpl in Hlen; lia). left. }
    simpl. f_equal. apply filter_all. intros b Hb. rewrite Hperm in Hb.
    apply list_elem_of_fmap in Hb as (c & -> & Hc).
    apply HD. apply list_elem_of_bind. exists c. split; [apply br_entry_edge|done].
  - rewrite Forall_forall in Hall. apply Forall_forall. intros b Hb.
    apply embeds_prune; [| |by apply Hall].
    + intros e He. apply HD. apply list_elem_of_bind. eauto.
    + intros x Hx. apply HN. by eapply br_inner_sub.
Qed.

(** The Steiner nodes of a branch are live and are no terminals. *)
Lemma embeds_inner G og p B x :
  embeds G og p B → x ∈ br_inner B →
  is_Some (adjEntries G !! x) ∧ ∃ xO, og !! x = Some xO ∧ m_isTerminal xO = false.
Proof.
  revert p. induction B as [a v subs IH] using branch_induction.
  intros p (r & vO & Hr & Hp & Hv & HvO & Hsubs & Hall)%embeds_inv Hx.
  destruct subs as [|b subs]; [by apply elem_of_nil in Hx|].
  rewrite br_inner_cons in Hx. apply elem_of_cons in Hx as [->|Hx].
  - destruct (m_isTerminal vO) eqn:Ht; [done|].
    destruct Hsubs as (l & Hl & _). eauto.
  - apply list_elem_of_bind in Hx as (c & Hx & Hc).
    rewrite Forall_forall in IH, Hall. by eapply IH; [|apply Hall|].
Qed.

Lemma embeds_edges_live G og p B e :
  embeds G og p B → e ∈ br_edges B → is_Some (edges G !! e).
Proof.
  revert p. induction B as [a v subs IH] using branch_induction.
  intros p (r & vO & Hr & Hp & Hv & HvO & Hsubs & Hall)%embeds_inv He.
  simpl in He. apply elem_of_cons in He as [->|He]; [eauto|].
  apply list_elem_of_bind in He as (c & He & Hc).
  rewrite Forall_forall in IH, Hall. by eapply IH; [|apply Hall|].
Qed.

(** A branch with one leaf is a single edge to a terminal. *)
Lemma embeds_one_leaf G og p B :
  embeds G og p B → br_leaves B = 1 → br_subs B = [].
Proof.
  destruct B as [a v subs].
  intros (r & vO & Hr & Hp & Hv & HvO & Hsubs & Hall)%embeds_inv Hone. simpl.
  destruct (m_isTerminal vO); [done|].
  destruct Hsubs as (l & _ & _ & Hlen).
  destruct subs as [|b subs]; [done|].
  rewrite br_leaves_cons in Hone. pose proof (length_le_leaves (b :: subs)). lia.
Qed.

End EmbedFacts.

(** ** The cyclic order of an adjacency list *)

(** The handles after position [k], up to the one before it. *)
Definition others_of {A} (k : nat) (l : list A) : list A :=
  drop (S k) l ++ take k l.

Section CyclicOrder.
Local Open Scope nat_scope.
Implicit Types (G : EdgeWeightedGraph) (back : adjEntry).

Lemma fmap_perm_inv {A B} (f : A → B) (k : list B) (l : list A) :
  k ≡ₚ f <$> l → ∃ l', k = f <$> l' ∧ l ≡ₚ l'.
Proof. intros H. by apply Permutation_map_inv in H. Qed.

Lemma NoDup_bind_elem {A B} (f : A → list B) (l : list A) x :
  NoDup (l ≫= f) → x ∈ l → NoDup (f x).
Proof.
  induction l as [|y l IH]; [by intros _ ?%elem_of_nil|].
  rewrite bind_cons. intros (H1 & _ & H2)%NoDup_app [->|Hx]%elem_of_cons; auto.
Qed.

Lemma NoDup_bind_inj {A B} (f : A → list B) (l : list A) x y z :
  NoDup (l ≫= f) → x ∈ l → y ∈ l → z ∈ f x → z ∈ f y → x = y.
Proof.
  induction l as [|w l IH]; [by intros _ ?%elem_of_nil|].
  rewrite bind_cons. intros (H1 & Hd & H2)%NoDup_app.
  intros [->|Hx]%elem_of_cons [->|Hy]%elem_of_cons Hzx Hzy; auto.
  - exfalso. apply (Hd z Hzx). apply list_elem_of_bind. eauto.
  - exfalso. apply (Hd z Hzy). apply list_elem_of_bind. eauto.
Qed.

Lemma index_of_app (a : adjEntry) (l1 l2 : list adjEntry) : a ∉ l1 → index_of a (l1 ++ a :: l2) = Some (length l1).
Proof.
  induction l1 as [|b l1 IH]; intros Hn; simpl.
  - by rewrite decide_True.
  - rewrite decide_False by (intros ->; apply Hn; left).
    rewrite IH; [done|]. intros ?. apply Hn. by right.
Qed.

Lemma index_of_lookup (a : adjEntry) (l : list adjEntry) k : NoDup l → l !! k = Some a → index_of a l = Some k.
Proof.
  intros Hnd Hk. pose proof (take_drop_middle _ _ _ Hk) as Hl.
  rewrite <-Hl in Hnd |- *. apply NoDup_app in Hnd as (_ & Hd & _).
  rewrite index_of_app.
  - f_equal. rewrite length_take. apply lookup_lt_Some in Hk. lia.
  - intros Hin. apply (Hd _ Hin). left.
Qed.

Lemma cyclicSucc_at G v l k a :
  adjEntries G !! v = Some l → theNode G a = Some v → NoDup l → l !! k = Some a →
  cyclicSucc G a = l !! (S k mod length l).
Proof.
  intros Hl Hv Hnd Hk. unfold cyclicSucc. rewrite Hv. simpl. rewrite Hl. simpl.
  by rewrite (index_of_lookup _ _ _ Hnd Hk).
Qed.

Lemma others_perm {A} (l : list A) k a : l !! k = Some a → l ≡ₚ a :: others_of k l.
Proof.
  intros Hk. rewrite <-(take_drop_middle _ _ _ Hk) at 1. unfold others_of.
  rewrite <-Permutation_middle. by rewrite (comm (++)).
Qed.

Lemma others_length {A} (l : list A) k a :
  l !! k = Some a → length (others_of k l) = length l - 1.
Proof. intros Hk. apply others_perm in Hk. rewrite Hk at 2. simpl. lia. Qed.

Lemma cyc_lookup {A} (l : list A) k a j :
  l !! k = Some a → j < length l →
  (others_of k l ++ [a]) !! j = l !! ((S k + j) mod length l).
Proof.
  intros Hk Hj. pose proof (lookup_lt_Some _ _ _ Hk) as Hkn. unfold others_of.
  destruct (decide (S k + j < length l)) as [Hlt|Hge].
  - rewrite Nat.mod_small by done.
    rewrite <-app_assoc, lookup_app_l by (rewrite length_drop; lia).
    by rewrite lookup_drop.
  - assert ((S k + j) mod length l = S k + j - length l) as ->.
    { rewrite <-(Nat.mod_small (S k + j - length l) (length l)) by lia.
      replace (S k + j) with ((S k + j - length l) + 1 * length l) at 1 by lia.
      by rewrite Nat.Div0.mod_add. }
    rewrite <-app_assoc, lookup_app_r by (rewrite length_drop; lia).
    rewrite length_drop.
    destruct (decide (j - (length l - S k) < k)) as [Hlt|Hge'].
    + rewrite lookup_app_l by (rewrite length_take; lia).
      rewrite lookup_take_lt by done. f_equal. lia.
    + rewrite lookup_app_r by (rewrite length_take; lia).
      rewrite length_take.
      replace (j - (length l - S k) - k `min` length l) with 0 by lia.
      simpl. rewrite <-Hk. f_equal. lia.
Qed.

Lemma push_others_chain G cap back (pre : list adjEntry) :
  ∀ st n x0,
  (∀ j x, (pre ++ [back]) !! j = Some x → j < length pre →
          cyclicSucc G x = (pre ++ [back]) !! S j) →
  back ∉ pre → length pre ≤ n →
  (Z.of_nat (length st + length pre) ≤ cap)%Z →
  (pre ++ [back]) !! 0 = Some x0 →
  push_others n G cap back x0 st = Some (rev pre ++ st).
Proof.
  induction pre as [|x pre IH]; intros st n x0 Hchain Hnin Hn Hcap Hx0.
  - simpl in Hx0. injection Hx0 as <-. destruct n; simpl; by rewrite decide_True.
  - simpl in Hx0. injection Hx0 as <-.
    destruct n as [|n]; [simpl in Hn; lia|]. simpl.
    rewrite decide_False by (intros ->; apply Hnin; left).
    unfold stack_push. rewrite decide_True by (simpl in Hcap; lia). simpl.
    rewrite (Hchain 0 x) by (simpl; done || lia). simpl.
    destruct ((pre ++ [back]) !! 0) as [x1|] eqn:Hx1.
    2:{ apply lookup_ge_None in Hx1. rewrite length_app in Hx1. simpl in Hx1. lia. }
    simpl. rewrite (IH (x :: st) n x1); try done.
    + by rewrite <-app_assoc.
    + intros j y Hy Hj. apply (Hchain (S j) y); simpl; [done|lia].
    + intros ?. apply Hnin. by right.
    + simpl in Hn. lia.
    + simpl in *. lia.
Qed.

Lemma push_others_spec G cap v l k back st :
  adjEntries G !! v = Some l → NoDup l → (∀ x, x ∈ l → theNode G x = Some v) →
  l !! k = Some back →
  (Z.of_nat (length st + (length l - 1)) ≤ cap)%Z →
  ∃ adj0, cyclicSucc G back = Some adj0 ∧
          push_others (length l) G cap back adj0 st = Some (rev (others_of k l) ++ st).
Proof.
  intros Hl Hnd Hnode Hk Hcap.
  pose proof (lookup_lt_Some _ _ _ Hk) as Hkn.
  assert (∀ j, j < length l → ∃ x i, (others_of k l ++ [back]) !! j = Some x ∧
            i = (S k + j) mod length l ∧ l !! i = Some x) as Hcyc.
  { intros j Hj. rewrite (cyc_lookup _ _ _ _ Hk Hj).
    destruct (l !! ((S k + j) mod length l)) as [x|] eqn:Hx; [eauto|].
    apply lookup_ge_None in Hx.
    pose proof (Nat.mod_upper_bound (S k + j) (length l)). lia. }
  destruct (Hcyc 0) as (x0 & i0 & Hx0 & Hi0 & Hlx0); [lia|].
  exists x0. split.
  - rewrite (cyclicSucc_at _ _ _ _ _ Hl (Hnode _ (list_elem_of_lookup_2 _ _ _ Hk)) Hnd Hk).
    rewrite Hi0 in Hlx0. by rewrite Nat.add_0_r in Hlx0.
  - apply push_others_chain; try done.
    + intros j x Hx Hj. rewrite (others_length _ _ _ Hk) in Hj.
      destruct (Hcyc j) as (x' & i & Hx' & Hi & Hlx); [lia|].
      rewrite Hx in Hx'. injection Hx' as <-.
      rewrite (cyclicSucc_at _ _ _ _ _ Hl (Hnode _ (list_elem_of_lookup_2 _ _ _ Hlx)) Hnd Hlx).
      rewrite (cyc_lookup _ _ _ _ Hk) by lia. f_equal. subst i.
      replace (S k + S j) with (S (S k + j)) by lia.
      rewrite <-(Nat.add_1_r ((S k + j) mod length l)), <-(Nat.add_1_r (S k + j)).
      by rewrite Nat.Div0.add_mod_idemp_l.
    + pose proof (others_perm _ _ _ Hk) as Hp. rewrite Hp in Hnd.
      by apply NoDup_cons in Hnd as [? _].
    + rewrite (others_length _ _ _ Hk). lia.
    + by rewrite (others_length _ _ _ Hk).
Qed.

End CyclicOrder.

(** ** The walk of [foreachAdjEntry] *)

Section Traversal.
Context (m_isTerminal : nat → bool) {Y : Type}.
Local Open Scope nat_scope.
Notation embeds := (embeds m_isTerminal).
Notation hanging := (hanging m_isTerminal).
Implicit Types (s : Store Y) (B : branch) (Bs subs : list branch).

Lemma isTerminal_og s v vO :
  m_nodeOrig s !! v = Some vO → isTerminal m_isTerminal s v = Some (m_isTerminal vO).
Proof. intros H. unfold isTerminal. by rewrite H. Qed.

Lemma sub_entry_edges subs :
  sublist (theEdge <$> (br_entry <$> subs)) (subs ≫= br_edges).
Proof.
  induction subs as [|[a v bs] subs IH]; [done|].
  rewrite !fmap_cons, bind_cons, br_edges_eq. simpl.
  apply sublist_skip. by apply sublist_inserts_l.
Qed.

Lemma entries_NoDup (a : adjEntry) v subs :
  NoDup (br_edges (Br a v subs)) → NoDup (twin a :: (br_entry <$> subs)).
Proof.
  rewrite br_edges_eq. intros [Hn Hnd]%NoDup_cons.
  apply (NoDup_fmap_1 theEdge). rewrite fmap_cons. apply NoDup_cons. split.
  - intros Hin. apply Hn. eapply elem_of_sublist; [done|apply sub_entry_edges].
  - exact (sublist_NoDup _ _ Hnd (sub_entry_edges subs)).
Qed.

Lemma foreach_walk_step {A} fuel s cap (f : adjEntry → A → option A) top st acc :
  foreach_walk m_isTerminal (S fuel) s cap f (top :: st) acc =
  (acc' ← f (twin top) acc;
   v ← theNode (m_graph s) (twin top);
   t ← isTerminal m_isTerminal s v;
   if t : bool then foreach_walk m_isTerminal fuel s cap f st acc'
   else
     l ← adjEntries (m_graph s) !! v;
     adj ← cyclicSucc (m_graph s) (twin top);
     st' ← push_others (length l) (m_graph s) cap (twin top) adj st;
     foreach_walk m_isTerminal fuel s cap f st' acc').
Proof. done. Qed.

Lemma foreach_walk_spec s cap :
  ∀ n Bs,
  length (Bs ≫= br_edges) ≤ n →
  Forall (λ B, ∃ p, embeds (m_graph s) (m_nodeOrig s) p B) Bs →
  NoDup (Bs ≫= br_edges) →
  (Z.of_nat (sum_list (br_leaves <$> Bs)) ≤ cap)%Z →
  ∃ vis, vis ≡ₚ twin <$> (Bs ≫= br_entries) ∧
    ∀ fuel A (f : adjEntry → A → option A) acc, n ≤ fuel →
      foreach_walk m_isTerminal fuel s cap f (br_entry <$> Bs) acc = visit_all f vis acc.
Proof.
  induction n as [|n IH]; intros Bs Hn Hemb Hnd Hcap.
  { destruct Bs as [|[a v subs] Bs]; [|rewrite bind_cons, br_edges_eq in Hn; simpl in Hn; lia].
    exists []. split; [done|]. intros fuel A f acc _. by destruct fuel. }
  destruct Bs as [|[a v subs] Bs].
  { exists []. split; [done|]. intros fuel A f acc _. by destruct fuel. }
  apply Forall_cons in Hemb as [[p Hp] Hemb].
  pose proof Hp as (r & vO & Hr & Hpe & Hv & HvO & Hsubs & Hall)%embeds_inv.
  destruct (embeds_theNode _ _ _ _ _ Hp) as [_ Htw]. simpl in Htw.
  rewrite bind_cons in Hnd. pose proof Hnd as (HndB & Hdisj & HndBs)%NoDup_app.
  rewrite bind_cons, length_app, br_edges_eq in Hn. simpl in Hn.
  rewrite fmap_cons in Hcap.
  destruct (m_isTerminal vO) eqn:Hterm.
  - subst subs.
    destruct (IH Bs) as (vis & Hvis & Hwalk); try done.
    { simpl in Hn. lia. }
    { simpl in Hcap. lia. }
    exists (twin a :: vis). split.
    { rewrite bind_cons, br_entries_eq. simpl. by rewrite Hvis. }
    intros fuel A f acc Hfuel. destruct fuel as [|fuel]; [lia|].
    rewrite fmap_cons, foreach_walk_step. simpl br_entry. simpl visit_all.
    destruct (f (twin a) acc) as [acc'|]; [simpl|done].
    unfold twinNode in Htw. rewrite Htw. simpl.
    rewrite (isTerminal_og _ _ _ HvO), Hterm. simpl.
    apply Hwalk. lia.
  - destruct Hsubs as (l & Hl & Hperm & Hlen).
    assert (NoDup l) as Hndl.
    { rewrite Hperm. by apply entries_NoDup with v. }
    assert (∀ x, x ∈ l → theNode (m_graph s) x = Some v) as Hnode.
    { intros x Hx. rewrite Hperm in Hx. apply elem_of_cons in Hx as [->|Hx]; [done|].
      apply list_elem_of_fmap in Hx as (c & -> & Hc).
      rewrite Forall_forall in Hall. by apply (embeds_theNode _ _ _ _ _ (Hall _ Hc)). }
    assert (twin a ∈ l) as Hin by (rewrite Hperm; left).
    apply list_elem_of_lookup_1 in Hin as [k Hk].
    assert (others_of k l ≡ₚ br_entry <$> subs) as Hothers.
    { apply (Permutation_cons_inv (a:=twin a)). by rewrite <-others_perm, <-Hperm. }
    destruct (fmap_perm_inv br_entry (rev (others_of k l)) subs) as (subs' & Hrev & Hsubs').
    { by rewrite <-Permutation_rev. }
    assert (subs ≠ []) as Hne by (intros ->; simpl in Hlen; lia).
    rewrite br_leaves_nonempty in Hcap by done.
    destruct (push_others_spec (m_graph s) cap v l k (twin a) (br_entry <$> Bs))
      as (adj0 & Hsucc & Hpush); try done.
    { rewrite length_fmap. rewrite Hperm. simpl. rewrite length_fmap.
      pose proof (length_le_leaves Bs). pose proof (length_le_leaves subs).
      simpl in Hcap. lia. }
    destruct (IH (subs' ++ Bs)) as (vis & Hvis & Hwalk).
    { rewrite bind_app, length_app. rewrite <-Hsubs'. lia. }
    { apply Forall_app. split; [|done]. rewrite <-Hsubs'.
      eapply Forall_impl; [exact Hall|]. intros b Hb. by exists v. }
    { rewrite bind_app. rewrite <-Hsubs'. rewrite br_edges_eq in Hnd.
      simpl in Hnd. by apply NoDup_cons in Hnd as [_ ?]. }
    { rewrite fmap_app, sum_list_with_app. rewrite <-Hsubs'.
      simpl in Hcap. unfold sum_list in Hcap |- *. lia. }
    exists (twin a :: vis). split.
    { rewrite bind_cons, br_entries_eq. simpl. rewrite Hvis.
      rewrite bind_app. by rewrite <-Hsubs'. }
    intros fuel A f acc Hfuel. destruct fuel as [|fuel]; [lia|].
    rewrite fmap_cons, foreach_walk_step. simpl br_entry. simpl visit_all.
    destruct (f (twin a) acc) as [acc'|]; [simpl|done].
    unfold twinNode in Htw. rewrite Htw. simpl.
    rewrite (isTerminal_og _ _ _ HvO), Hterm. simpl.
    rewrite Hl. simpl. rewrite Hsucc. simpl. rewrite Hpush. simpl.
    rewrite Hrev, <-fmap_app. apply Hwalk. lia.
Qed.

End Traversal.

(** ** The walk of [remove] *)

(** The edges below the node of a branch. *)
Definition sub_edges (B : branch) : list nat := br_subs B ≫= br_edges.

Section RemoveWalk.
Context (m_isTerminal : nat → bool) {Y : Type}.
Local Open Scope nat_scope.
Notation embeds := (embeds m_isTerminal).
Notation hanging := (hanging m_isTerminal).
Implicit Types (s : Store Y) (B : branch) (Bs subs : list branch).

Lemma prune_perm G D D' N N' : D ≡ₚ D' → N ≡ₚ N' → prune G D N = prune G D' N'.
Proof. intros HD HN. apply prune_ext; intros x; [by rewrite HD | by rewrite HN]. Qed.

Lemma entry_sub_edges subs :
  (theEdge <$> (br_entry <$> subs)) ++ (subs ≫= sub_edges) ≡ₚ subs ≫= br_edges.
Proof.
  induction subs as [|[a v bs] subs IH]; [done|].
  rewrite !fmap_cons, !bind_cons, br_edges_eq. unfold sub_edges at 1. simpl.
  apply Permutation_skip. rewrite <-IH.
  rewrite !app_assoc. apply Permutation_app_tail. apply Permutation_app_comm.
Qed.

Lemma push_twinNode_spec G og cap v subs :
  ∀ st, Forall (embeds G og v) subs →
  (Z.of_nat (length st + length subs) ≤ cap)%Z →
  foldl (push_twinNode G cap) (Some st) (br_entry <$> subs)
  = Some (rev (br_node <$> subs) ++ st).
Proof.
  induction subs as [|b subs IH]; intros st Hall Hcap; [done|].
  apply Forall_cons in Hall as [Hb Hall].
  destruct (embeds_theNode _ _ _ _ _ Hb) as [_ Htw].
  assert (push_twinNode G cap (Some st) (br_entry b) = Some (br_node b :: st)) as Hstep.
  { unfold push_twinNode. simpl. rewrite Htw. simpl.
    unfold stack_push. by rewrite decide_True by (simpl in Hcap; lia). }
  rewrite !fmap_cons. cbn [foldl]. rewrite Hstep.
  rewrite IH; [|done|simpl in *; lia].
  simpl. by rewrite <-app_assoc.
Qed.

Lemma remove_walk_step fuel s cap G v st :
  remove_walk m_isTerminal (S fuel) s cap G (v :: st) =
  (t ← isTerminal m_isTerminal s v;
   if t : bool then remove_walk m_isTerminal fuel s cap G st
   else
     l ← adjEntries G !! v;
     st' ← foldl (push_twinNode G cap) (Some st) l;
     G' ← delNode G v;
     remove_walk m_isTerminal fuel s cap G' st').
Proof. done. Qed.

Lemma remove_walk_spec s cap :
  ∀ n G Bs,
  length (Bs ≫= br_nodes) ≤ n →
  graph_ok G →
  Forall (hanging G (m_nodeOrig s)) Bs →
  NoDup (Bs ≫= br_edges) → NoDup (Bs ≫= br_inner) →
  (Z.of_nat (sum_list (br_leaves <$> Bs)) ≤ cap)%Z →
  ∀ fuel, n ≤ fuel →
    remove_walk m_isTerminal fuel s cap G (br_node <$> Bs)
    = Some (prune G (Bs ≫= sub_edges) (Bs ≫= br_inner)).
Proof.
  induction n as [|n IH]; intros G Bs Hn HG Hhang HndE HndI Hcap fuel Hfuel.
  { destruct Bs as [|[a v subs] Bs]; [|rewrite bind_cons, br_nodes_eq in Hn; simpl in Hn; lia].
    destruct fuel; simpl; by rewrite prune_nil. }
  destruct Bs as [|[a v subs] Bs].
  { destruct fuel; simpl; by rewrite prune_nil. }
  destruct fuel as [|fuel]; [lia|].
  apply Forall_cons in Hhang as [HB Hhang].
  inversion HB as [a' v' subs' vO HvO Hsubs Hall]; subst a' v' subs'.
  rewrite bind_cons in HndE, HndI.
  pose proof HndE as (HndEB & HdisjE & HndEBs)%NoDup_app.
  pose proof HndI as (HndIB & HdisjI & HndIBs)%NoDup_app.
  rewrite bind_cons, length_app, br_nodes_eq in Hn. simpl in Hn.
  rewrite fmap_cons in Hcap.
  destruct (m_isTerminal vO) eqn:Hterm.
  - subst subs.
    transitivity (remove_walk m_isTerminal fuel s cap G (br_node <$> Bs)).
    { rewrite fmap_cons, remove_walk_step. simpl br_node.
      rewrite (isTerminal_og _ _ _ _ HvO). simpl. by rewrite Hterm. }
    rewrite (IH G Bs); try done; try lia.
    simpl in Hcap. lia.
  - destruct Hsubs as (l & Hl & Hperm & Hlen).
    assert (subs ≠ []) as Hne by (intros ->; simpl in Hlen; lia).
    rewrite br_inner_nonempty in HndI, HndIB, HdisjI by done.
    rewrite br_leaves_nonempty in Hcap by done.
    rewrite br_edges_eq in HndEB, HdisjE.
    apply NoDup_cons in HndEB as [HaE HndEs].
    apply NoDup_cons in HndIB as [HvI HndIs].
    destruct (fmap_perm_inv br_entry l subs Hperm) as (subs' & -> & Hsubs').
    transitivity (remove_walk m_isTerminal fuel s cap
                    (prune G (theEdge <$> (br_entry <$> subs')) [v])
                    (br_node <$> (rev subs' ++ Bs))).
    { rewrite fmap_cons, remove_walk_step. simpl br_node.
      rewrite (isTerminal_og _ _ _ _ HvO). simpl. rewrite Hterm, Hl. simpl.
      rewrite (push_twinNode_spec G (m_nodeOrig s) cap v subs').
      - simpl. rewrite (delNode_prune _ _ _ HG Hl). simpl.
        by rewrite <-map_rev, <-fmap_app.
      - by rewrite <-Hsubs'.
      - rewrite length_fmap, <-Hsubs'.
        pose proof (length_le_leaves Bs). pose proof (length_le_leaves subs).
        simpl in Hcap. lia. }
    rewrite (IH _ (rev subs' ++ Bs)); try lia.
    + rewrite prune_prune. apply (f_equal Some). apply prune_perm.
      * rewrite bind_cons. unfold sub_edges at 3. simpl br_subs.
        rewrite bind_app, app_assoc. apply Permutation_app_tail.
        rewrite <-Permutation_rev, <-Hsubs'. apply entry_sub_edges.
      * rewrite bind_cons, br_inner_nonempty by done. simpl.
        apply Permutation_skip. rewrite bind_app.
        apply Permutation_app_tail. by rewrite <-Permutation_rev, <-Hsubs'.
    + rewrite bind_app, length_app, <-Permutation_rev, <-Hsubs'. lia.
    + by apply graph_ok_prune.
    + apply Forall_app. split.
      * rewrite Forall_forall in Hall. apply Forall_forall. intros b Hb.
        rewrite <-Permutation_rev, <-Hsubs' in Hb.
        destruct b as [ab vb subsb].
        apply embeds_hanging_prune with v; [by apply Hall| | |].
        -- apply list_elem_of_fmap. exists ab. split; [done|].
           apply list_elem_of_fmap. exists (Br ab vb subsb). rewrite <-Hsubs'. done.
        -- intros e He HeD.
           apply list_elem_of_fmap in HeD as (x & -> & Hx).
           apply list_elem_of_fmap in Hx as (c & -> & Hc). rewrite <-Hsubs' in Hc.
           assert (Br ab vb subsb = c) as <-.
           { apply (NoDup_bind_inj br_edges subs _ _ (theEdge (br_entry c))); try done.
             - rewrite br_edges_eq. by right.
             - apply br_entry_edge. }
           pose proof (NoDup_bind_elem br_edges subs _ HndEs Hb) as Hndb.
           rewrite br_edges_eq in Hndb. apply NoDup_cons in Hndb as [Hn' _]. by apply Hn'.
        -- intros x Hx ->%list_elem_of_singleton. apply HvI.
           apply list_elem_of_bind. eauto.
      * rewrite Forall_forall in Hhang. apply Forall_forall. intros b Hb.
        apply hanging_prune; [| |by apply Hhang].
        -- intros e He HeD.
           apply list_elem_of_fmap in HeD as (x & -> & Hx).
           apply list_elem_of_fmap in Hx as (c & -> & Hc). rewrite <-Hsubs' in Hc.
           apply (HdisjE (theEdge (br_entry c))).
           ++ right. apply list_elem_of_bind. exists c. split; [apply br_entry_edge|done].
           ++ apply list_elem_of_bind. exists b. split; [|done].
              destruct b as [ab vb subsb]. rewrite br_edges_eq. by right.
        -- intros x Hx ->%list_elem_of_singleton. apply (HdisjI v); [left|].
           apply list_elem_of_bind. eauto.
    + rewrite bind_app, <-Permutation_rev, <-Hsubs'.
      apply NoDup_app. split; [done|]. split; [|done].
      intros e He. apply HdisjE. by right.
    + rewrite bind_app, <-Permutation_rev, <-Hsubs'.
      apply NoDup_app. split; [done|]. split; [|done].
      intros x Hx. apply HdisjI. by right.
    + rewrite fmap_app, sum_list_with_app, <-Permutation_rev, <-Hsubs'.
      simpl in Hcap. unfold sum_list in Hcap |- *. lia.
Qed.

End RemoveWalk.

(** ** The table of records *)

Section RecordTable.
Local Open Scope nat_scope.

Lemma bind_singleton {A B} (f : A → list B) x : [x] ≫= f = f x.
Proof. rewrite bind_cons. apply app_nil_r. Qed.

Lemma removelast_take {A} (l : list A) : removelast l = take (length l - 1) l.
Proof. rewrite removelast_firstn_len. f_equal. lia. Qed.

Lemma insert_delete_perm {A} (k : list A) i x y :
  k !! i = Some x → x :: <[i:=y]> k ≡ₚ y :: k.
Proof.
  intros Hi. pose proof (lookup_lt_Some _ _ _ Hi) as Hlt.
  rewrite insert_take_drop by done.
  rewrite <-(take_drop_middle _ _ _ Hi) at 3.
  rewrite <-!Permutation_middle. apply perm_swap.
Qed.

Lemma remove_record_eq {A} (l : list A) (id : Z) :
  remove_record l id =
  if decide (Z.of_nat (length l) = id + 1)%Z then Some (take (length l - 1) l)
  else lst ← l !! (length l - 1);
       if decide (0 ≤ id ∧ id < Z.of_nat (length l - 1))%Z
       then Some (<[Z.to_nat id := lst]> (take (length l - 1) l))
       else None.
Proof.
  unfold remove_record. rewrite !removelast_take, last_lookup.
  replace (pred (length l)) with (length l - 1) by lia.
  case_decide; [done|].
  destruct (l !! (length l - 1)) as [lst|] eqn:Hlst; [simpl|done].
  apply lookup_lt_Some in Hlst. rewrite length_take.
  replace ((length l - 1) `min` length l) with (length l - 1) by lia. done.
Qed.

Lemma remove_record_Some {A} (l : list A) (id : Z) x :
  (0 ≤ id)%Z → l !! Z.to_nat id = Some x →
  ∃ l', remove_record l id = Some l' ∧ l ≡ₚ x :: l' ∧ S (length l') = length l.
Proof.
  intros Hid Hx. pose proof (lookup_lt_Some _ _ _ Hx) as Hlt.
  rewrite remove_record_eq.
  case_decide as Hlast.
  - exists (take (length l - 1) l). split; [done|]. split.
    + assert (Z.to_nat id = length l - 1) as Heq by lia. rewrite Heq in Hx.
      rewrite <-(take_drop_middle _ _ _ Hx) at 1.
      rewrite drop_ge by lia. by rewrite <-Permutation_cons_append.
    + rewrite length_take. lia.
  - destruct (l !! (length l - 1)) as [lst|] eqn:Hlst.
    2:{ apply lookup_ge_None in Hlst. lia. }
    simpl. rewrite decide_True by lia.
    eexists. split; [done|]. split.
    + rewrite insert_delete_perm by (rewrite lookup_take_lt by lia; done).
      rewrite <-(take_drop_middle _ _ _ Hlst) at 1.
      rewrite drop_ge by lia. by rewrite <-Permutation_cons_append.
    + rewrite length_insert, length_take. lia.
Qed.

Lemma remove_record_inv {A} (l l' : list A) (id : Z) :
  remove_record l id = Some l' → (0 ≤ id < Z.of_nat (length l))%Z →
  S (length l') = length l ∧
  (∀ j, j < length l' → j ≠ Z.to_nat id → l' !! j = l !! j) ∧
  (Z.to_nat id < length l' → l' !! Z.to_nat id = l !! (length l - 1)).
Proof.
  intros Hrem Hid. rewrite remove_record_eq in Hrem.
  case_decide as Hlast.
  - injection Hrem as <-. rewrite length_take. split; [lia|]. split.
    + intros j Hj _. by rewrite lookup_take_lt by lia.
    + lia.
  - destruct (l !! (length l - 1)) as [lst|] eqn:Hlst; [|done].
    simpl in Hrem. case_decide; [|done].
    injection Hrem as <-. rewrite length_insert, length_take. split; [lia|]. split.
    + intros j Hj Hne. rewrite list_lookup_insert_ne by done.
      by rewrite lookup_take_lt by lia.
    + intros Hlt. by rewrite list_lookup_insert_eq by (rewrite length_take; lia).
Qed.

Lemma remove_record_Forall2 {A B} (R : A → B → Prop) l k (id : Z) l' :
  Forall2 R l k → remove_record l id = Some l' →
  ∃ k', remove_record k id = Some k' ∧ Forall2 R l' k'.
Proof.
  intros HR Hrem. pose proof (Forall2_length _ _ _ HR) as Hlen.
  rewrite remove_record_eq in Hrem. setoid_rewrite remove_record_eq. rewrite <-Hlen.
  case_decide.
  - injection Hrem as <-. eexists. split; [done|]. by apply Forall2_take.
  - destruct (l !! (length l - 1)) as [lst|] eqn:Hlst; [|done].
    destruct (Forall2_lookup_l _ _ _ _ _ HR Hlst) as (lstk & -> & Hlast).
    simpl in *.
    case_decide; [|done]. injection Hrem as <-.
    eexists. split; [done|]. apply Forall2_insert; [|done]. by apply Forall2_take.
Qed.

End RecordTable.

(** ** [remove] and [foreachAdjEntry] on a store that satisfies the invariant *)

Section StoreWalks.
Context (m_terminals : list nat) (m_isTerminal : nat → bool) {Y : Type}.
Local Open Scope nat_scope.
Notation embeds := (embeds m_isTerminal).
Notation hanging := (hanging m_isTerminal).
Notation component_ok := (component_ok m_isTerminal).
Notation store_ok := (store_ok m_terminals m_isTerminal).
Implicit Types (s : Store Y) (B : branch) (Bs subs : list branch).

Lemma visit_all_one {A} (f : adjEntry → A → option A) a acc :
  visit_all f [a] acc = f a acc.
Proof. simpl. by destruct (f a acc). Qed.

Lemma foreachAdjEntry_spec s id c B :
  component s id = Some c → component_ok s c B → NoDup (br_edges B) →
  ∃ vis, vis ≡ₚ twin <$> br_entries B ∧
    ∀ fuel A (f : adjEntry → A → option A) acc, length (br_edges B) ≤ fuel →
      foreachAdjEntry m_isTerminal fuel s id f acc = visit_all f vis acc.
Proof.
  intros Hc [Hstart (p & t & Hemb & _) Hterm _ _] Hnd.
  destruct (decide (br_leaves B = 1)) as [Hone|Hmany].
  - pose proof (embeds_one_leaf _ _ _ _ _ Hemb Hone) as Hsubs.
    destruct B as [a v subs]. simpl in Hsubs. subst subs.
    exists [twin a]. split; [done|]. intros fuel A f acc _.
    unfold foreachAdjEntry. rewrite Hc. simpl. rewrite Hstart. simpl.
    rewrite decide_True by (rewrite Hterm; simpl; lia).
    symmetry. apply visit_all_one.
  - pose proof (br_leaves_pos B) as Hpos.
    destruct (foreach_walk_spec m_isTerminal s
                (2 * Z.of_nat (length (terminals c)) - 2) (length (br_edges B)) [B])
      as (vis & Hvis & Hwalk).
    + rewrite bind_singleton. done.
    + apply Forall_singleton. eauto.
    + by rewrite bind_singleton.
    + simpl. lia.
    + exists vis. split.
      { rewrite Hvis. by rewrite bind_singleton. }
      intros fuel A f acc Hfuel.
      unfold foreachAdjEntry. rewrite Hc. simpl. rewrite Hstart. simpl.
      rewrite decide_False by lia.
      unfold stack_push. rewrite decide_True by (simpl; lia). simpl.
      by apply (Hwalk fuel A f acc).
Qed.

Lemma remove_in_graph_spec s c B :
  graph_ok (m_graph s) → component_ok s c B →
  NoDup (br_edges B) → NoDup (br_inner B) →
  ∀ fuel, length (br_nodes B) ≤ fuel →
    remove_in_graph m_isTerminal fuel s c
    = Some (prune (m_graph s) (br_edges B) (br_inner B)).
Proof.
  intros HG [Hstart (p & t & Hemb & _) Hterm _ _] Hnd HndI fuel Hfuel.
  unfold remove_in_graph. rewrite Hstart. simpl.
  destruct B as [a v subs]. simpl br_entry.
  pose proof Hemb as (r & vO & Hr & Hpe & Hv & HvO & Hsubs & Hall)%embeds_inv.
  destruct (decide (br_leaves (Br a v subs) = 1)) as [Hone|Hmany].
  - pose proof (embeds_one_leaf _ _ _ _ _ Hemb Hone) as Hs. simpl in Hs. subst subs.
    rewrite decide_True by (rewrite Hterm; simpl; lia).
    by rewrite (delEdge_prune _ _ _ HG Hr).
  - pose proof (br_leaves_pos (Br a v subs)) as Hpos.
    rewrite decide_False by lia.
    destruct (embeds_theNode _ _ _ _ _ Hemb) as [_ Htw]. simpl in Htw.
    rewrite Htw. simpl.
    unfold stack_push. rewrite decide_True by (simpl; lia). simpl.
    rewrite (delEdge_prune _ _ _ HG Hr). simpl.
    rewrite br_edges_eq in Hnd. apply NoDup_cons in Hnd as [Ha Hnds].
    rewrite (remove_walk_spec m_isTerminal s _ (length (br_nodes (Br a v subs)))
               _ [Br a v subs]); try done.
    + rewrite prune_prune. apply (f_equal Some). apply prune_perm.
      * rewrite bind_singleton. done.
      * rewrite bind_singleton. done.
    + by rewrite bind_singleton.
    + by apply graph_ok_prune.
    + apply Forall_singleton. apply embeds_hanging_prune with p; try done.
      * left.
      * intros e He ->%list_elem_of_singleton. done.
      * intros x _ ?%elem_of_nil. done.
    + rewrite bind_singleton, br_edges_eq. by apply NoDup_cons.
    + by rewrite bind_singleton.
    + rewrite Hterm. rewrite fmap_cons, fmap_nil.
      set (k := br_leaves (Br a v subs)) in *. simpl. lia.
Qed.

Lemma remove_walk_mono s cap :
  ∀ fuel G st G', remove_walk m_isTerminal fuel s cap G st = Some G' →
  ∀ fuel', fuel ≤ fuel' → remove_walk m_isTerminal fuel' s cap G st = Some G'.
Proof.
  induction fuel as [|fuel IH]; intros G st G' Hw fuel' Hle.
  - destruct st; [|done]. by destruct fuel'.
  - destruct st as [|v st]; [by destruct fuel'|].
    destruct fuel' as [|fuel']; [lia|].
    rewrite remove_walk_step in Hw |- *.
    destruct (isTerminal m_isTerminal s v) as [[]|]; simpl in *; [|..|done].
    + apply IH; [done|lia].
    + destruct (adjEntries G !! v) as [l|]; simpl in *; [|done].
      destruct (foldl (push_twinNode G cap) (Some st) l) as [st'|]; simpl in *; [|done].
      destruct (delNode G v) as [G1|]; simpl in *; [|done].
      apply IH; [done|lia].
Qed.

Lemma remove_in_graph_mono s c fuel fuel' G' :
  remove_in_graph m_isTerminal fuel s c = Some G' → fuel ≤ fuel' →
  remove_in_graph m_isTerminal fuel' s c = Some G'.
Proof.
  unfold remove_in_graph. intros Hr Hle.
  destruct (start c) as [st|]; simpl in *; [|done].
  case_decide; [done|].
  destruct (twinNode (m_graph s) st) as [v|]; simpl in *; [|done].
  destruct (stack_push _ v []) as [stack|]; simpl in *; [|done].
  destruct (delEdge (m_graph s) (theEdge st)) as [G|]; simpl in *; [|done].
  by eapply remove_walk_mono.
Qed.

Lemma component_lookup s id c :
  component s id = Some c ↔ (0 ≤ id)%Z ∧ m_components s !! Z.to_nat id = Some c.
Proof. unfold component. case_decide; naive_solver. Qed.

(** What [remove] does to a store that satisfies the invariant. *)
Lemma remove_characterise s fuel id s' :
  store_ok s → remove m_isTerminal fuel s id = Some s' →
  ∃ c B Bs Bs' comps',
    component s id = Some c ∧ component_ok s c B ∧
    Forall2 (component_ok s) (m_components s) Bs ∧
    NoDup (Bs ≫= br_edges) ∧ NoDup (Bs ≫= br_inner) ∧
    Bs ≡ₚ B :: Bs' ∧
    remove_record (m_components s) id = Some comps' ∧
    Forall2 (component_ok s) comps' Bs' ∧
    s' = mkStore (prune (m_graph s) (br_edges B) (br_inner B))
                 (m_nodeCopy s) (m_nodeOrig s) comps'.
Proof.
  intros [HG _ _ _ (Bs & HBs & HndE & HndI)] Hrem.
  unfold remove in Hrem.
  destruct (component s id) as [c|] eqn:Hc; simpl in Hrem; [|done].
  destruct (remove_in_graph m_isTerminal fuel s c) as [G'|] eqn:HG'; simpl in Hrem; [|done].
  destruct (remove_record (m_components s) id) as [comps'|] eqn:Hrec; simpl in Hrem; [|done].
  injection Hrem as <-.
  apply component_lookup in Hc as [Hid Hc].
  destruct (Forall2_lookup_l _ _ _ _ _ HBs Hc) as (B & HB & HcB).
  destruct (remove_record_Forall2 _ _ _ _ _ HBs Hrec) as (Bs' & HrecB & HBs').
  destruct (remove_record_Some Bs id B Hid HB) as (Bs'' & HrecB' & Hperm & _).
  rewrite HrecB in HrecB'. injection HrecB' as <-.
  exists c, B, Bs, Bs', comps'. split_and!; try done; try (by apply component_lookup).
  f_equal.
  assert (B ∈ Bs) as HBin by by eapply list_elem_of_lookup_2.
  pose proof (remove_in_graph_spec s c B HG HcB
                (NoDup_bind_elem _ _ _ HndE HBin) (NoDup_bind_elem _ _ _ HndI HBin)
                (fuel `max` length (br_nodes B))) as Hspec.
  pose proof (remove_in_graph_mono _ _ _ (fuel `max` length (br_nodes B)) _ HG'
                ltac:(lia)) as Hmono.
  rewrite Hspec in Hmono by lia. by injection Hmono as <-.
Qed.

Lemma remove_total s id :
  store_ok s → (0 ≤ id < Z.of_nat (length (m_components s)))%Z →
  ∃ n, ∀ fuel, n ≤ fuel → is_Some (remove m_isTerminal fuel s id).
Proof.
  intros [HG _ _ _ (Bs & HBs & HndE & HndI)] Hid.
  destruct (m_components s !! Z.to_nat id) as [c|] eqn:Hc.
  2:{ apply lookup_ge_None in Hc. lia. }
  destruct (Forall2_lookup_l _ _ _ _ _ HBs Hc) as (B & HB & HcB).
  assert (B ∈ Bs) as HBin by by eapply list_elem_of_lookup_2.
  exists (length (br_nodes B)). intros fuel Hfuel.
  unfold remove. rewrite (proj2 (component_lookup s id c)) by (split; [lia|done]).
  simpl. rewrite (remove_in_graph_spec s c B HG HcB
                    (NoDup_bind_elem _ _ _ HndE HBin) (NoDup_bind_elem _ _ _ HndI HBin)) by done.
  simpl. destruct (remove_record_Some (m_components s) id c) as (l' & -> & _); [lia|done|].
  simpl. eauto.
Qed.

Section WithInstance.
Hypothesis Hinst : instance_ok m_terminals m_isTerminal.

Lemma remove_store_ok s fuel id s' :
  store_ok s → remove m_isTerminal fuel s id = Some s' → store_ok s'.
Proof.
  intros Hok Hrem.
  destruct (remove_characterise _ _ _ _ Hok Hrem)
    as (c & B & Bs & Bs' & comps' & Hc & HcB & HBs & HndE & HndI & Hperm & Hrec & HBs' & ->).
  destruct Hok as [HG Hdom Horig Hbound _].
  rewrite Hperm, bind_cons in HndE, HndI.
  apply NoDup_app in HndE as (HndEB & HdisjE & HndE').
  apply NoDup_app in HndI as (HndIB & HdisjI & HndI').
  destruct HcB as [_ (p & t & Hemb & _) _ _ _].
  split; cbn [m_graph m_nodeCopy m_nodeOrig m_components].
  - by apply graph_ok_prune.
  - done.
  - intros t' c' Hcp. destruct (Horig _ _ Hcp) as [Hog Halive]. split; [done|].
    rewrite lookup_prune_adj. rewrite decide_False.
    + by apply fmap_is_Some.
    + intros Hin. destruct (embeds_inner _ _ _ _ _ _ Hemb Hin) as (_ & xO & HxO & Hnt).
      assert (xO = t') as -> by congruence.
      assert (m_isTerminal t' = true) as Ht.
      { apply Hinst, Hdom. eauto. }
      congruence.
  - done.
  - exists Bs'. split; [|done].
    apply Forall2_same_length_lookup_2; [by eapply Forall2_length|].
    intros i c' B' Hc' HB'.
    pose proof (Forall2_lookup_lr _ _ _ _ _ _ HBs' Hc' HB') as [Hst (p' & t' & Hemb' & Hroot) Hterm Hcost Hshared].
    assert (B' ∈ Bs') as HBin by by eapply list_elem_of_lookup_2.
    assert (∀ e, e ∈ br_edges B' → e ∉ br_edges B) as HE.
    { intros e He HeB. apply (HdisjE e HeB). apply list_elem_of_bind. eauto. }
    assert (∀ x, x ∈ br_inner B' → x ∉ br_inner B) as HI.
    { intros x Hx HxB. apply (HdisjI x HxB). apply list_elem_of_bind. eauto. }
    split; cbn [m_graph m_nodeCopy m_nodeOrig m_components]; try done.
    + exists p', t'. split; [|done]. by apply embeds_prune.
    + rewrite Hcost. f_equal. apply list_fmap_ext. intros j e He.
      unfold edge_weight. rewrite lookup_prune_edges. rewrite decide_False; [done|].
      apply HE. by eapply list_elem_of_lookup_2.
    + intros v vO [Hv|Hv]; [|by apply Hshared; right].
      apply Hshared. left. apply theNode_Some in Hv as (r & Hr & Hend).
      apply theNode_Some. exists r. split; [|done].
      rewrite lookup_prune_edges in Hr. by case_decide.
Qed.

End WithInstance.

End StoreWalks.

(** ** Trees seen from one of their nodes *)

(** The pairs of end nodes of a list of indexed edges. *)
Definition pairs (T : list (nat * EdgeElement)) : list (nat * nat) :=
  (λ t, (source t.2, target t.2)) <$> T.

Section Rooting.
Local Open Scope nat_scope.
Implicit Types (T : list (nat * EdgeElement)) (B : branch) (subs : list branch).

Lemma isTree_NoDup V E : isTree V E → NoDup V.
Proof.
  induction 1 as [v|V E u v _ IH Hu Hv|V E u v _ IH Hu Hv|V V' E E' HV HE _ IH].
  - apply NoDup_singleton.
  - by apply NoDup_cons.
  - by apply NoDup_cons.
  - by rewrite <-HV.
Qed.

Lemma isTree_ends V E x y : isTree V E → (x, y) ∈ E → x ∈ V ∧ y ∈ V.
Proof.
  induction 1 as [v|V E u v _ IH Hu Hv|V E u v _ IH Hu Hv|V V' E E' HV HE _ IH].
  - by intros ?%elem_of_nil.
  - intros [[= -> ->]|Hin]%elem_of_cons; [split; [by right|left]|].
    destruct (IH Hin). split; by right.
  - intros [[= -> ->]|Hin]%elem_of_cons; [split; [left|by right]|].
    destruct (IH Hin). split; by right.
  - rewrite <-HE, <-HV. apply IH.
Qed.

Lemma incident_cons T t x : incident (t :: T) x = incident_one x t ++ incident T x.
Proof. done. Qed.

Lemma incident_off T x :
  (∀ t, t ∈ T → source t.2 ≠ x ∧ target t.2 ≠ x) → incident T x = [].
Proof.
  induction T as [|t T IH]; intros H; [done|].
  rewrite incident_cons, IH by (intros t' Ht'; apply H; by right).
  destruct (H t) as [Hs Ht]; [left|].
  unfold incident_one. by rewrite !decide_False.
Qed.

Lemma incident_perm T T' x : T ≡ₚ T' → incident T x ≡ₚ incident T' x.
Proof. intros H. unfold incident. by rewrite H. Qed.

(** The handles of an edge with the ends [u] and [v]. *)
Lemma incident_one_ends (i : nat) (r : EdgeElement) (d : bool) u v x :
  u ≠ v → endpoint r d = u → endpoint r (negb d) = v →
  incident_one x (i, r) =
  if decide (x = u) then [AdjE i d] else if decide (x = v) then [AdjE i (negb d)] else [].
Proof.
  intros Hne Hu Hv. unfold incident_one, adjSource, adjTarget. simpl.
  destruct d; simpl in *; subst u v;
    repeat case_decide; simplify_eq; try done.
Qed.

Lemma covers_inv T p a v subs :
  covers T p (Br a v subs) →
  ∃ r, (theEdge a, r) ∈ T ∧ endpoint r (isTgt a) = p ∧
       endpoint r (negb (isTgt a)) = v ∧
       incident T v ≡ₚ twin a :: (br_entry <$> subs) ∧
       Forall (covers T v) subs.
Proof. inversion 1; subst. eauto 10. Qed.

Lemma covers_perm T T' p B : T ≡ₚ T' → covers T p B → covers T' p B.
Proof.
  intros HT. revert p. induction B as [a v subs IH] using branch_induction.
  intros p (r & Hr & Hp & Hv & Hinc & Hall)%covers_inv.
  apply covers_intro with r; try done.
  - by rewrite <-HT.
  - by rewrite <-(incident_perm _ _ _ HT).
  - rewrite Forall_forall in IH, Hall. apply Forall_forall. intros b Hb.
    apply IH; [done|]. by apply Hall.
Qed.

(** A branch is not affected by an edge between nodes it does not have. *)
Lemma covers_frame T t p B :
  source t.2 ∉ br_nodes B → target t.2 ∉ br_nodes B →
  covers T p B → covers (t :: T) p B.
Proof.
  revert p. induction B as [a v subs IH] using branch_induction.
  intros p Hs Ht (r & Hr & Hp & Hv & Hinc & Hall)%covers_inv.
  rewrite br_nodes_eq in Hs, Ht.
  apply not_elem_of_cons in Hs as [Hsv Hs], Ht as [Htv Ht].
  apply covers_intro with r; try done.
  - by right.
  - rewrite incident_cons. unfold incident_one. by rewrite !decide_False.
  - rewrite Forall_forall in IH, Hall. apply Forall_forall. intros b Hb.
    apply IH; [done| | |by apply Hall].
    + intros Hin. apply Hs. apply list_elem_of_bind. eauto.
    + intros Hin. apply Ht. apply list_elem_of_bind. eauto.
Qed.

Lemma covers_frame_all T t p subs :
  source t.2 ∉ subs ≫= br_nodes → target t.2 ∉ subs ≫= br_nodes →
  Forall (covers T p) subs → Forall (covers (t :: T) p) subs.
Proof.
  intros Hs Ht Hall. rewrite Forall_forall in Hall. apply Forall_forall.
  intros b Hb. apply covers_frame; [| |by apply Hall].
  - intros Hin. apply Hs. apply list_elem_of_bind. eauto.
  - intros Hin. apply Ht. apply list_elem_of_bind. eauto.
Qed.

(** Hanging the new node [v] on the node [u] of a branch. *)
Lemma covers_graft T (i : nat) (r : EdgeElement) (d : bool) u v B :
  u ≠ v → endpoint r d = u → endpoint r (negb d) = v → incident T v = [] →
  ∀ p, covers T p B → NoDup (br_nodes B) → u ∈ br_nodes B → v ∉ br_nodes B →
  ∃ B', covers ((i, r) :: T) p B' ∧ br_entry B' = br_entry B ∧
        br_nodes B' ≡ₚ v :: br_nodes B ∧ br_edges B' ≡ₚ i :: br_edges B.
Proof.
  intros Hne Hu Hv Hnew.
  assert (source r = u ∧ target r = v ∨ source r = v ∧ target r = u) as Hends.
  { destruct d; simpl in *; subst; auto. }
  induction B as [a x subs IH] using branch_induction.
  intros p (r' & Hr' & Hp & Hx & Hinc & Hall)%covers_inv Hnd Huin Hvin.
  rewrite br_nodes_eq in Hnd, Huin, Hvin.
  apply NoDup_cons in Hnd as [Hxs Hnd].
  apply not_elem_of_cons in Hvin as [Hvx Hvin].
  destruct (decide (x = u)) as [->|Hxu].
  - exists (Br a u (Br (AdjE i d) v [] :: subs)). split; [|split; [done|split]].
    + apply covers_intro with r'; try done.
      * by right.
      * rewrite incident_cons, (incident_one_ends i r d u v) by done.
        rewrite decide_True by done. rewrite fmap_cons. simpl.
        rewrite Hinc. apply perm_swap.
      * apply Forall_cons. split.
        -- apply covers_intro with r; try done; [left|..].
           ++ rewrite incident_cons, (incident_one_ends i r d u v) by done.
              rewrite decide_False by done. rewrite decide_True by done.
              by rewrite Hnew.
        -- apply covers_frame_all; [| |done]; simpl;
             destruct Hends as [[Hs Ht]|[Hs Ht]]; rewrite ?Hs, ?Ht; done.
    + rewrite !br_nodes_eq, bind_cons, br_nodes_eq. simpl. apply perm_swap.
    + rewrite !br_edges_eq, bind_cons, br_edges_eq. simpl. apply perm_swap.
  - apply elem_of_cons in Huin as [->|Huin]; [done|].
    apply list_elem_of_bind in Huin as (b & Hub & Hb).
    apply list_elem_of_split in Hb as (s1 & s2 & ->).
    rewrite bind_app, bind_cons in Hnd, Hxs, Hvin.
    apply Forall_app in IH as [_ [IHb _]%Forall_cons].
    apply Forall_app in Hall as [Hall1 [Hb Hall2]%Forall_cons].
    destruct (IHb x Hb) as (b' & Hb' & Hentry & Hnodes & Hedges).
    { apply NoDup_app in Hnd as (_ & _ & Hnd). by apply NoDup_app in Hnd as (? & _ & _). }
    { done. }
    { intros ?. apply Hvin. set_solver. }
    assert (u ∉ s1 ≫= br_nodes ∧ u ∉ s2 ≫= br_nodes) as [Hu1 Hu2].
    { apply NoDup_app in Hnd as (_ & Hd1 & Hnd).
      apply NoDup_app in Hnd as (_ & Hd2 & _). split.
      - intros Hin. apply (Hd1 _ Hin). set_solver.
      - intros Hin. by apply (Hd2 _ Hub). }
    exists (Br a x (s1 ++ b' :: s2)). split; [|split; [done|split]].
    + apply covers_intro with r'; try done.
      * by right.
      * rewrite incident_cons, (incident_one_ends i r d u v) by done.
        rewrite !decide_False by done. simpl.
        rewrite Hinc. rewrite !fmap_app, !fmap_cons. by rewrite Hentry.
      * apply Forall_app. split; [|apply Forall_cons; split; [done|]].
        -- apply covers_frame_all; [| |done]; simpl;
             destruct Hends as [[Hs Ht]|[Hs Ht]]; rewrite ?Hs, ?Ht; set_solver.
        -- apply covers_frame_all; [| |done]; simpl;
             destruct Hends as [[Hs Ht]|[Hs Ht]]; rewrite ?Hs, ?Ht; set_solver.
    + rewrite !br_nodes_eq, !bind_app, !bind_cons. rewrite Hnodes.
      simpl. rewrite <-Permutation_middle. apply perm_swap.
    + rewrite !br_edges_eq, !bind_app, !bind_cons. rewrite Hedges.
      simpl. rewrite <-Permutation_middle. apply perm_swap.
Qed.

(** The branches [subs] that leave the node [r] make up the tree. *)
Definition rooted T (r : nat) subs (V : list nat) : Prop :=
  incident T r ≡ₚ br_entry <$> subs ∧ Forall (covers T r) subs ∧
  r :: (subs ≫= br_nodes) ≡ₚ V ∧ subs ≫= br_edges ≡ₚ T.*1.

Lemma rooting_step T (i : nat) (r : EdgeElement) (d : bool) u v V :
  endpoint r d = u → endpoint r (negb d) = v →
  NoDup V → u ∈ V → v ∉ V →
  (∀ t, t ∈ T → source t.2 ∈ V ∧ target t.2 ∈ V) →
  (∀ x, x ∈ V → ∃ subs, rooted T x subs V) →
  ∀ x, x ∈ v :: V → ∃ subs, rooted ((i, r) :: T) x subs (v :: V).
Proof.
  intros Hu Hv HndV HuV HvV Hends IH x Hx.
  assert (u ≠ v) as Hne by (intros ->; done).
  assert (incident T v = []) as Hnew.
  { apply incident_off. intros t Ht. destruct (Hends t Ht). split; intros ?; congruence. }
  assert (source r = u ∧ target r = v ∨ source r = v ∧ target r = u) as Hst.
  { destruct d; simpl in *; subst; auto. }
  destruct (decide (x = v)) as [->|Hxv].
  - destruct (IH u HuV) as (subs & Hinc & Hall & Hnodes & Hedges).
    exists [Br (AdjE i (negb d)) u subs]. split; [|split; [|split]].
    + rewrite incident_cons, (incident_one_ends i r d u v) by done.
      rewrite decide_False by done. rewrite decide_True by done. by rewrite Hnew.
    + apply Forall_singleton. apply covers_intro with r.
      * left.
      * done.
      * simpl. by rewrite negb_involutive.
      * rewrite incident_cons, (incident_one_ends i r d u v) by done.
        rewrite decide_True by done. unfold twin. simpl. rewrite negb_involutive.
        simpl. by rewrite Hinc.
      * rewrite <-Hnodes in HndV, HvV. apply NoDup_cons in HndV as [HuS _].
        apply not_elem_of_cons in HvV as [_ HvS].
        apply covers_frame_all; [| |done]; simpl;
          destruct Hst as [[Hs Ht]|[Hs Ht]]; rewrite ?Hs, ?Ht; done.
    + rewrite bind_singleton, br_nodes_eq. by rewrite Hnodes.
    + rewrite bind_singleton, br_edges_eq. simpl. by rewrite Hedges.
  - apply elem_of_cons in Hx as [->|Hx]; [done|].
    destruct (IH x Hx) as (subs & Hinc & Hall & Hnodes & Hedges).
    pose proof HndV as HndV'. rewrite <-Hnodes in HndV', HvV, HuV.
    apply NoDup_cons in HndV' as [HxS HndS].
    apply not_elem_of_cons in HvV as [_ HvS].
    destruct (decide (x = u)) as [->|Hxu].
    + exists (Br (AdjE i d) v [] :: subs). split; [|split; [|split]].
      * rewrite incident_cons, (incident_one_ends i r d u v) by done.
        rewrite decide_True by done. rewrite fmap_cons. simpl. by rewrite Hinc.
      * apply Forall_cons. split.
        -- apply covers_intro with r; [left|done|done| |done].
           rewrite incident_cons, (incident_one_ends i r d u v) by done.
           rewrite decide_False by done. rewrite decide_True by done.
           by rewrite Hnew.
        -- apply covers_frame_all; [| |done]; simpl;
             destruct Hst as [[Hs Ht]|[Hs Ht]]; rewrite ?Hs, ?Ht; done.
      * rewrite bind_cons, br_nodes_eq. simpl. rewrite <-Hnodes. apply perm_swap.
      * rewrite bind_cons, br_edges_eq. simpl. by rewrite Hedges.
    + apply elem_of_cons in HuV as [->|HuS]; [done|].
      apply list_elem_of_bind in HuS as (b & Hub & Hb).
      apply list_elem_of_split in Hb as (s1 & s2 & ->).
      rewrite bind_app, bind_cons in HndS, HxS, HvS, Hnodes, Hedges.
      apply Forall_app in Hall as [Hall1 [Hb Hall2]%Forall_cons].
      destruct (covers_graft T i r d u v b Hne Hu Hv Hnew x Hb)
        as (b' & Hb' & Hentry & Hbn & Hbe).
      { apply NoDup_app in HndS as (_ & _ & Hnd). by apply NoDup_app in Hnd as (? & _ & _). }
      { done. }
      { intros ?. apply HvS. set_solver. }
      assert (u ∉ s1 ≫= br_nodes ∧ u ∉ s2 ≫= br_nodes) as [Hu1 Hu2].
      { apply NoDup_app in HndS as (_ & Hd1 & Hnd).
        apply NoDup_app in Hnd as (_ & Hd2 & _). split.
        - intros Hin. apply (Hd1 _ Hin). set_solver.
        - intros Hin. by apply (Hd2 _ Hub). }
      exists (s1 ++ b' :: s2). split; [|split; [|split]].
      * rewrite incident_cons, (incident_one_ends i r d u v) by done.
        rewrite !decide_False by done. simpl.
        rewrite Hinc. rewrite !fmap_app, !fmap_cons. by rewrite Hentry.
      * apply Forall_app. split; [|apply Forall_cons; split; [done|]].
        -- apply covers_frame_all; [| |done]; simpl;
             destruct Hst as [[Hs Ht]|[Hs Ht]]; rewrite ?Hs, ?Ht; set_solver.
        -- apply covers_frame_all; [| |done]; simpl;
             destruct Hst as [[Hs Ht]|[Hs Ht]]; rewrite ?Hs, ?Ht; set_solver.
      * rewrite bind_app, bind_cons, Hbn. rewrite <-Hnodes.
        simpl. rewrite <-Permutation_middle. apply perm_swap.
      * rewrite bind_app, bind_cons, Hbe. simpl. rewrite <-Hedges.
        by rewrite <-Permutation_middle.
Qed.

Lemma rooting V E :
  isTree V E → ∀ T, pairs T = E → ∀ x, x ∈ V → ∃ subs, rooted T x subs V.
Proof.
  induction 1 as [v|V E u v Htree IH Hu Hv|V E u v Htree IH Hu Hv|V V' E E' HV HE Htree IH];
    intros T HT x Hx.
  - apply list_elem_of_singleton in Hx as ->.
    destruct T; [|done]. exists []. by repeat split.
  - destruct T as [|[i r] T]; [done|]. injection HT as Hs Ht HT.
    apply (rooting_step T i r false u v V); try done.
    + by apply isTree_NoDup in Htree.
    + intros t Hin. apply (isTree_ends V E); [done|].
      rewrite <-HT. apply list_elem_of_fmap. eauto.
    + intros y Hy. by apply IH.
  - destruct T as [|[i r] T]; [done|]. injection HT as Hs Ht HT.
    apply (rooting_step T i r true u v V); try done.
    + by apply isTree_NoDup in Htree.
    + intros t Hin. apply (isTree_ends V E); [done|].
      rewrite <-HT. apply list_elem_of_fmap. eauto.
    + intros y Hy. by apply IH.
  - rewrite <-HT in HE. unfold pairs in HE.
    destruct (fmap_perm_inv _ _ _ HE) as (T0 & HT0 & Hperm).
    rewrite <-HV in Hx.
    destruct (IH T0 (eq_sym HT0) x Hx) as (subs & Hinc & Hall & Hnodes & Hedges).
    exists subs. split; [|split; [|split]].
    + by rewrite (incident_perm _ _ _ Hperm).
    + eapply Forall_impl; [done|]. intros b. by apply covers_perm.
    + by rewrite Hnodes.
    + by rewrite Hedges, Hperm.
Qed.

End Rooting.

(** ** The two loops of [insert] *)

(** The edges [insert] adds to the shared graph, with their index: [f] gives
    the node of the shared graph for a node of the tree. *)
Fixpoint tag_edges (f : nat → nat) (e0 : nat) (es : list CopyEdge)
  : list (nat * EdgeElement) :=
  match es with
  | [] => []
  | e :: es' =>
      (e0, EdgeE (f (ce_source e)) (f (ce_target e)) (ce_weight e))
        :: tag_edges f (S e0) es'
  end.

(** The start handle [insert] ends up with. *)
Fixpoint start_after (isT : nat → bool) (e0 : nat) (es : list CopyEdge)
    (cur : option adjEntry) : option adjEntry :=
  match es with
  | [] => cur
  | e :: es' =>
      start_after isT (S e0) es'
        (if isT (ce_source e) then Some (adjSource e0)
         else if isT (ce_target e) then Some (adjTarget e0)
         else cur)
  end.

Section TreeMap.
Local Open Scope nat_scope.

Lemma isTree_fmap (f : nat → nat) V E :
  isTree V E → (∀ x y, x ∈ V → y ∈ V → f x = f y → x = y) →
  isTree (f <$> V) (prod_map f f <$> E).
Proof.
  induction 1 as [v|V E u v _ IH Hu Hv|V E u v _ IH Hu Hv|V V' E E' HV HE _ IH];
    intros Hinj.
  - apply isTree_single.
  - rewrite !fmap_cons. apply isTree_leaf.
    + apply IH. intros x y Hx Hy. apply Hinj; by right.
    + by apply list_elem_of_fmap_2.
    + intros (y & Hy & Hin)%list_elem_of_fmap.
      apply Hinj in Hy; [|left|by right]. by subst.
  - rewrite !fmap_cons. apply isTree_leaf_rev.
    + apply IH. intros x y Hx Hy. apply Hinj; by right.
    + by apply list_elem_of_fmap_2.
    + intros (y & Hy & Hin)%list_elem_of_fmap.
      apply Hinj in Hy; [|left|by right]. by subst.
  - apply isTree_perm with (f <$> V) (prod_map f f <$> E).
    + by rewrite HV.
    + by rewrite HE.
    + apply IH. intros x y Hx Hy. apply Hinj; by rewrite <-HV.
Qed.

Lemma pairs_tag_edges f e0 es :
  pairs (tag_edges f e0 es) = prod_map f f <$> ((λ e, (ce_source e, ce_target e)) <$> es).
Proof.
  revert e0. induction es as [|e es IH]; intros e0; [done|].
  specialize (IH (S e0)). unfold pairs in *. simpl in *. by f_equal.
Qed.

Lemma tag_edges_tags f e0 es : (tag_edges f e0 es).*1 = seq e0 (length es).
Proof.
  revert e0. induction es as [|e es IH]; intros e0; [done|].
  simpl. f_equal. apply IH.
Qed.

Lemma tag_edges_elem f e0 es t :
  t ∈ tag_edges f e0 es →
  e0 ≤ t.1 < e0 + length es ∧
  ∃ e, e ∈ es ∧ t.2 = EdgeE (f (ce_source e)) (f (ce_target e)) (ce_weight e).
Proof.
  revert e0. induction es as [|e es IH]; intros e0; [by intros ?%elem_of_nil|].
  simpl. intros [->|Hin]%elem_of_cons.
  - simpl. split; [lia|]. exists e. split; [left|done].
  - destruct (IH _ Hin) as [Hb (e' & He' & Ht)]. split; [lia|].
    exists e'. split; [by right|done].
Qed.

Lemma tag_edges_weights f e0 es :
  Zsum ((λ t, weight t.2) <$> tag_edges f e0 es) = Zsum (ce_weight <$> es).
Proof.
  revert e0. induction es as [|e es IH]; intros e0; [done|].
  simpl. by rewrite IH.
Qed.

(** The handles on an image node correspond to the edge ends on the node. *)
Lemma incident_tag_length f e0 (comp : EdgeWeightedGraphCopy) (V : list nat) v :
  (∀ x y, x ∈ V → y ∈ V → f x = f y → x = y) → v ∈ V →
  (∀ e, e ∈ c_edges comp → ce_source e ∈ V ∧ ce_target e ∈ V) →
  length (incident (tag_edges f e0 (c_edges comp)) (f v)) = degree comp v.
Proof.
  intros Hinj Hv. unfold degree. generalize (c_edges comp). clear comp.
  intros es. revert e0. induction es as [|e es IH]; intros e0 Hends; [done|].
  simpl tag_edges. rewrite incident_cons, length_app, !filter_cons.
  rewrite IH by (intros e' He'; apply Hends; by right).
  destruct (Hends e) as [Hs Ht]; [left|].
  unfold incident_one. simpl.
  destruct (decide (ce_source e = v)) as [Hsv|Hsv], (decide (ce_target e = v)) as [Htv|Htv].
  - rewrite !decide_True by congruence. simpl. lia.
  - rewrite decide_True by congruence.
    rewrite decide_False by (intros Heq; apply Htv, Hinj; done). simpl. lia.
  - rewrite decide_False by (intros Heq; apply Hsv, Hinj; done).
    rewrite decide_True by congruence. simpl. lia.
  - rewrite decide_False by (intros Heq; apply Hsv, Hinj; done).
    rewrite decide_False by (intros Heq; apply Htv, Hinj; done). simpl. lia.
Qed.

Lemma incident_elem T (i : nat) (r : EdgeElement) (d : bool) :
  (i, r) ∈ T → AdjE i d ∈ incident T (endpoint r d).
Proof.
  intros Hin. apply list_elem_of_bind. exists (i, r). split; [|done].
  unfold incident_one. simpl. destruct d; simpl.
  - apply elem_of_app. right. rewrite decide_True by done. left.
  - apply elem_of_app. left. rewrite decide_True by done. left.
Qed.

Lemma incident_inv T a x :
  a ∈ incident T x → ∃ r, (theEdge a, r) ∈ T ∧ endpoint r (isTgt a) = x.
Proof.
  intros ([i r] & Ha & Hin)%list_elem_of_bind.
  unfold incident_one in Ha. simpl in Ha.
  apply elem_of_app in Ha as [Ha|Ha]; case_decide; try (by apply elem_of_nil in Ha);
    apply list_elem_of_singleton in Ha as ->; simpl; eauto.
Qed.

End TreeMap.

Section InsertLoops.
Local Open Scope nat_scope.
Implicit Types (G : EdgeWeightedGraph) (cp og : gmap nat nat) (comp : EdgeWeightedGraphCopy).

(** What holds after the first loop has seen the nodes [pre]. *)
Record nodes_inv G cp og comp (pre : list nat) (st : InsertNodes) : Prop := mkNodesInv {
  ni_edges : edges (in_graph st) = edges G;
  ni_eid : edgeIdCount (in_graph st) = edgeIdCount G;
  ni_nid : nodeIdCount G ≤ nodeIdCount (in_graph st);
  ni_gok : graph_ok (in_graph st);
  ni_old_adj : ∀ x, x < nodeIdCount G →
    adjEntries (in_graph st) !! x = adjEntries G !! x;
  ni_old_og : ∀ x, x < nodeIdCount G → in_nodeOrig st !! x = og !! x;
  ni_og_bound : ∀ x, is_Some (in_nodeOrig st !! x) → x < nodeIdCount (in_graph st);
  ni_cp_old : ∀ k c, cp !! k = Some c → in_nodeCopy st !! k = Some c;
  ni_cp_new : ∀ k c, cp !! k = None → in_nodeCopy st !! k = Some c →
    k ∈ in_tempUse st ∧ nodeIdCount G ≤ c ∧
    adjEntries (in_graph st) !! c = Some [] ∧ in_nodeOrig st !! c = Some k;
  ni_temp : ∀ k, k ∈ in_tempUse st →
    cp !! k = None ∧ is_Some (in_nodeCopy st !! k) ∧
    ∃ u, u ∈ pre ∧ c_original comp u = k;
  ni_all : ∀ v, v ∈ pre → is_Some (in_nodeCopy st !! c_original comp v);
  ni_terms : in_terminals st =
    c_original comp <$> filter (λ v, is_Some (cp !! c_original comp v)) pre
}.

Lemma nodes_inv_init G cp og comp :
  graph_ok G → (∀ x, is_Some (og !! x) → x < nodeIdCount G) →
  nodes_inv G cp og comp [] (mkInsertNodes G cp og [] []).
Proof.
  intros HG Hog. split; simpl; try done.
  - intros k c Hk Hk'. congruence.
  - by intros k ?%elem_of_nil.
  - by intros v ?%elem_of_nil.
Qed.

Lemma nodes_inv_step G cp og comp pre st v :
  nodes_inv G cp og comp pre st →
  (∀ u, u ∈ pre → c_original comp u ≠ c_original comp v) →
  nodes_inv G cp og comp (pre ++ [v]) (insert_node comp st v).
Proof.
  intros [He Hei Hni HG Hadj Hog Hogb Hold Hnew Htemp Hall Hterms] Hfresh.
  unfold insert_node.
  destruct (in_nodeCopy st !! c_original comp v) as [c|] eqn:Hv.
  - split; simpl; try done.
    + intros k Hk. destruct (Htemp k Hk) as (? & ? & u & Hu & Hku).
      split; [done|]. split; [done|]. exists u. split; [|done].
      apply elem_of_app. by left.
    + intros u [Hu| ->%list_elem_of_singleton]%elem_of_app; [by apply Hall|].
      rewrite Hv. eauto.
    + rewrite filter_app, fmap_app, Hterms. f_equal.
      rewrite filter_cons, filter_nil.
      destruct (cp !! c_original comp v) as [c'|] eqn:Hcp.
      * rewrite decide_True by eauto. done.
      * destruct (Hnew _ _ Hcp Hv) as (Hin & _).
        destruct (Htemp _ Hin) as (_ & _ & u & Hu & Hku).
        by destruct (Hfresh u Hu).
  - pose proof (gok_node _ HG) as Hbound.
    assert (adjEntries (in_graph st) !! nodeIdCount (in_graph st) = None) as Hdead.
    { destruct (adjEntries (in_graph st) !! nodeIdCount (in_graph st)) eqn:Hx; [|done].
      assert (nodeIdCount (in_graph st) < nodeIdCount (in_graph st)); [|lia].
      apply Hbound. eauto. }
    split; simpl; try done.
    + lia.
    + by apply graph_ok_newNode.
    + intros x Hx. rewrite lookup_insert_ne by lia. by apply Hadj.
    + intros x Hx. rewrite lookup_insert_ne by lia. by apply Hog.
    + intros x. rewrite lookup_insert. case_decide; [lia|].
      intros Hs. apply Hogb in Hs. lia.
    + intros k c Hk. rewrite lookup_insert_ne; [by apply Hold|].
      intros <-. apply Hold in Hk. congruence.
    + intros k c Hk. rewrite lookup_insert. case_decide as Hkv.
      * intros [= <-]. subst k. split; [apply elem_of_app; right; left|].
        split; [lia|]. by rewrite !lookup_insert_eq.
      * intros Hc. destruct (Hnew _ _ Hk Hc) as (Hin & Hge & Hc' & Hco).
        split; [apply elem_of_app; by left|]. split; [done|].
        assert (c ≠ nodeIdCount (in_graph st)) by (intros ->; congruence).
        by rewrite !lookup_insert_ne.
    + intros k [Hk| ->%list_elem_of_singleton]%elem_of_app.
      * destruct (Htemp k Hk) as (? & Hs & u & Hu & Hku).
        split; [done|]. split.
        -- rewrite lookup_insert. by case_decide.
        -- exists u. split; [|done]. apply elem_of_app. by left.
      * split; [|split].
        -- destruct (cp !! c_original comp v) eqn:Hcp; [|done].
           apply Hold in Hcp. congruence.
        -- rewrite lookup_insert_eq. eauto.
        -- exists v. split; [|done]. apply elem_of_app. right. left.
    + intros u [Hu| ->%list_elem_of_singleton]%elem_of_app.
      * rewrite lookup_insert. case_decide; [eauto|by apply Hall].
      * rewrite lookup_insert_eq. eauto.
    + rewrite filter_app, fmap_app, Hterms.
      rewrite filter_cons, filter_nil.
      rewrite decide_False; [by rewrite app_nil_r|].
      intros [c Hc]. apply Hold in Hc. congruence.
Qed.

Lemma nodes_inv_fold G cp og comp :
  ∀ suf pre st,
  nodes_inv G cp og comp pre st →
  NoDup (c_original comp <$> (pre ++ suf)) →
  nodes_inv G cp og comp (pre ++ suf) (foldl (insert_node comp) st suf).
Proof.
  induction suf as [|v suf IH]; intros pre st Hinv Hnd.
  - by rewrite app_nil_r.
  - simpl. rewrite (cons_middle v pre suf), app_assoc. apply IH.
    + apply nodes_inv_step; [done|].
      intros u Hu Heq. rewrite fmap_app, fmap_cons in Hnd.
      apply NoDup_app in Hnd as (_ & Hd & _). apply (Hd (c_original comp u)).
      * by apply list_elem_of_fmap_2.
      * rewrite Heq. left.
    + by rewrite <-app_assoc.
Qed.

(** The cleanup loop of [insert] restores the mapping of the terminals. *)
Lemma cleanup_lookup (cp : gmap nat nat) (temp : list nat) k :
  foldl (λ m vO, delete vO m) cp temp !! k
  = if decide (k ∈ temp) then None else cp !! k.
Proof.
  revert cp. induction temp as [|t temp IH]; intros cp; cbn [foldl].
  - case_decide as Hin; [by apply elem_of_nil in Hin|done].
  - rewrite IH. destruct (decide (k = t)) as [->|Hne].
    + rewrite lookup_delete_eq.
      repeat case_decide; try done; exfalso; set_solver.
    + rewrite lookup_delete_ne by done.
      repeat case_decide; try done; exfalso; set_solver.
Qed.

Lemma nodes_inv_cleanup G cp og comp pre st :
  nodes_inv G cp og comp pre st →
  foldl (λ m vO, delete vO m) (in_nodeCopy st) (in_tempUse st) = cp.
Proof.
  intros Hinv. apply map_eq. intros k. rewrite cleanup_lookup.
  case_decide as Hk.
  - by destruct (ni_temp _ _ _ _ _ _ Hinv k Hk) as (-> & _).
  - destruct (cp !! k) as [c|] eqn:Hcp.
    + by apply (ni_cp_old _ _ _ _ _ _ Hinv).
    + destruct (in_nodeCopy st !! k) as [c|] eqn:Hc; [|done].
      by destruct (ni_cp_new _ _ _ _ _ _ Hinv _ _ Hcp Hc) as (? & _).
Qed.

End InsertLoops.


Section InsertEdges.
Context (m_isTerminal : nat → bool).
Local Open Scope nat_scope.
Notation embeds := (embeds m_isTerminal).
Implicit Types (G : EdgeWeightedGraph) (cp og : gmap nat nat) (comp : EdgeWeightedGraphCopy).

Lemma newEdge_spec G v w wt :
  is_Some (adjEntries G !! v) → is_Some (adjEntries G !! w) →
  ∃ G', newEdge G v w wt = Some (edgeIdCount G, G') ∧
    (∀ x, adjEntries G' !! x
          = (λ l, l ++ incident_one x (edgeIdCount G, EdgeE v w wt)) <$> adjEntries G !! x) ∧
    edges G' = <[edgeIdCount G := EdgeE v w wt]> (edges G) ∧
    nodeIdCount G' = nodeIdCount G ∧ edgeIdCount G' = S (edgeIdCount G).
Proof.
  intros [lv Hv] [lw Hw]. unfold newEdge. rewrite Hv, Hw.
  eexists. split; [done|]. split; [|done]. intros x. simpl.
  unfold incident_one. simpl. rewrite !lookup_alter.
  destruct (decide (w = x)) as [->|Hwx], (decide (v = x)) as [->|Hvx];
    rewrite ?decide_True by done; rewrite ?decide_False by done;
    destruct (adjEntries G !! x); simpl; try done;
    by rewrite <-?app_assoc, ?app_nil_r.
Qed.

Lemma insert_edges_spec (f : nat → nat) comp cp :
  ∀ es st,
  (∀ e, e ∈ es →
     cp !! c_original comp (ce_source e) = Some (f (ce_source e)) ∧
     cp !! c_original comp (ce_target e) = Some (f (ce_target e)) ∧
     is_Some (adjEntries (ie_graph st) !! f (ce_source e)) ∧
     is_Some (adjEntries (ie_graph st) !! f (ce_target e))) →
  graph_ok (ie_graph st) →
  ∃ r, insert_edges m_isTerminal comp cp st es = Some r ∧
    graph_ok (ie_graph r) ∧
    (∀ x, adjEntries (ie_graph r) !! x
          = (λ l, l ++ incident (tag_edges f (edgeIdCount (ie_graph st)) es) x)
              <$> adjEntries (ie_graph st) !! x) ∧
    (∀ t, t ∈ tag_edges f (edgeIdCount (ie_graph st)) es →
          edges (ie_graph r) !! t.1 = Some t.2) ∧
    (∀ e, e < edgeIdCount (ie_graph st) →
          edges (ie_graph r) !! e = edges (ie_graph st) !! e) ∧
    nodeIdCount (ie_graph r) = nodeIdCount (ie_graph st) ∧
    edgeIdCount (ie_graph r) = edgeIdCount (ie_graph st) + length es ∧
    ie_cost r = (ie_cost st + Zsum (ce_weight <$> es))%Z ∧
    ie_start r = start_after (λ v, m_isTerminal (c_original comp v))
                   (edgeIdCount (ie_graph st)) es (ie_start st).
Proof.
  induction es as [|e es IH]; intros st Hes HG.
  - exists st. split; [done|]. split; [done|]. split.
    { intros x. unfold incident. simpl.
      destruct (adjEntries (ie_graph st) !! x); simpl; [|done]. by rewrite app_nil_r. }
    split; [by intros t ?%elem_of_nil|].
    split; [done|]. split; [done|]. split; [simpl; lia|].
    split; [simpl; lia|done].
  - destruct (Hes e) as (Hs & Ht & Has & Hat); [left|].
    destruct (newEdge_spec (ie_graph st) _ _ (ce_weight e) Has Hat)
      as (G' & Hnew & Hadj & Hedges & Hnid & Heid).
    set (st' := mkInsertEdges G' (ie_cost st + ce_weight e)
            (if m_isTerminal (c_original comp (ce_source e))
             then Some (adjSource (edgeIdCount (ie_graph st)))
             else if m_isTerminal (c_original comp (ce_target e))
                  then Some (adjTarget (edgeIdCount (ie_graph st)))
                  else ie_start st)).
    assert (insert_edge m_isTerminal comp cp st e = Some st') as Hstep.
    { unfold insert_edge. rewrite Hs, Ht. simpl. by rewrite Hnew. }
    destruct (IH st') as (r & Hr & HGr & Hadjr & Hnewr & Holdr & Hnidr & Heidr & Hcost & Hstart).
    { intros e' He'. destruct (Hes e') as (? & ? & Hs' & Ht'); [by right|].
      split; [done|]. split; [done|]. simpl. rewrite !Hadj.
      split; by apply fmap_is_Some. }
    { simpl. by eapply graph_ok_newEdge. }
    subst st'. simpl in Hadjr, Hnewr, Holdr, Hnidr, Heidr, Hcost, Hstart.
    rewrite Heid in Hadjr, Hnewr, Holdr, Heidr, Hstart.
    exists r. split; [simpl; by rewrite Hstep|]. split; [done|]. split.
    { intros x. rewrite Hadjr, Hadj. simpl tag_edges. rewrite incident_cons.
      destruct (adjEntries (ie_graph st) !! x); simpl; [|done].
      by rewrite app_assoc. }
    split.
    { intros t [->|Hin]%elem_of_cons; [|by apply Hnewr]. simpl.
      rewrite Holdr by lia. rewrite Hedges. by rewrite lookup_insert_eq. }
    split.
    { intros e' He'. rewrite Holdr by lia. rewrite Hedges.
      rewrite lookup_insert_ne by lia. done. }
    split; [congruence|]. split; [simpl; lia|].
    split; [|done].
    rewrite Hcost, fmap_cons. unfold Zsum. cbn [foldr]. lia.
Qed.

(** The start handle sits on an edge with a terminal at that end. *)
Lemma start_after_elem (f : nat → nat) (isT : nat → bool) e0 es cur a :
  start_after isT e0 es cur = Some a →
  cur = Some a ∨
  ∃ e, e ∈ es ∧
    (theEdge a, EdgeE (f (ce_source e)) (f (ce_target e)) (ce_weight e))
      ∈ tag_edges f e0 es ∧
    isT (if isTgt a then ce_target e else ce_source e) = true.
Proof.
  revert e0 cur. induction es as [|e es IH]; intros e0 cur; simpl; [auto|].
  intros [Hcur|(e' & He' & Hin & Ht)]%IH.
  - destruct (isT (ce_source e)) eqn:Hs; [|destruct (isT (ce_target e)) eqn:Ht].
    + injection Hcur as <-. right. exists e. split; [left|]. split; [left|done].
    + injection Hcur as <-. right. exists e. split; [left|]. split; [left|done].
    + by left.
  - right. exists e'. split; [by right|]. split; [by right|done].
Qed.

Lemma start_after_Some (isT : nat → bool) e0 es cur :
  is_Some cur ∨ (∃ e, e ∈ es ∧ (isT (ce_source e) = true ∨ isT (ce_target e) = true)) →
  is_Some (start_after isT e0 es cur).
Proof.
  revert e0 cur. induction es as [|e es IH]; intros e0 cur; simpl.
  - intros [?|(e & ?%elem_of_nil & _)]; done.
  - intros [Hcur|(e' & [->|He']%elem_of_cons & Ht)]; apply IH.
    + left. by repeat case_match.
    + left. destruct Ht as [->| ->]; by repeat case_match.
    + right. eauto.
Qed.

Lemma insert_sorted_perm x l : insert_sorted x l ≡ₚ x :: l.
Proof.
  induction l as [|y l IH]; simpl; [done|].
  case_decide; [done|]. rewrite IH. apply perm_swap.
Qed.

Lemma quicksort_perm l : quicksort l ≡ₚ l.
Proof.
  induction l as [|x l IH]; simpl; [done|].
  by rewrite insert_sorted_perm, IH.
Qed.

Lemma br_inner_sublist B : br_inner B `sublist_of` br_nodes B.
Proof.
  induction B as [a v subs IH] using branch_induction.
  destruct subs as [|b subs]; [apply sublist_nil_l|].
  rewrite br_inner_cons, br_nodes_eq. apply sublist_skip.
  induction IH as [|c cs Hc _ IHcs]; [done|].
  rewrite !bind_cons. by apply sublist_app.
Qed.

(** A terminal node of the shared graph. *)
Definition term_node og (c : nat) : Prop :=
  from_option m_isTerminal false (og !! c) = true.

Global Instance term_node_dec og c : Decision (term_node og c).
Proof. unfold term_node. apply _. Defined.

Lemma embeds_leaves G og p B :
  embeds G og p B → br_leaves B = length (filter (term_node og) (br_nodes B)).
Proof.
  revert p. induction B as [a v subs IH] using branch_induction.
  intros p (r & vO & Hr & Hp & Hv & HvO & Hsubs & Hall)%embeds_inv.
  rewrite br_nodes_eq, filter_cons.
  destruct (m_isTerminal vO) eqn:Ht.
  - subst subs. rewrite decide_True by (unfold term_node; by rewrite HvO). done.
  - destruct Hsubs as (l & _ & _ & Hlen).
    rewrite decide_False by (unfold term_node; rewrite HvO; simpl; congruence).
    rewrite br_leaves_nonempty by (intros ->; simpl in Hlen; lia).
    clear Hlen. induction Hall as [|b bs Hb Hbs IHbs]; [done|].
    apply Forall_cons in IH as [IHb IH].
    rewrite fmap_cons, bind_cons, filter_app, length_app. simpl.
    rewrite (IHb _ Hb). f_equal. by apply IHbs.
Qed.

Lemma embeds_nodes_og G og p B x :
  embeds G og p B → x ∈ br_nodes B → is_Some (og !! x).
Proof.
  revert p. induction B as [a v subs IH] using branch_induction.
  intros p (r & vO & Hr & Hp & Hv & HvO & Hsubs & Hall)%embeds_inv.
  rewrite br_nodes_eq. intros [->|Hx]%elem_of_cons; [eauto|].
  apply list_elem_of_bind in Hx as (b & Hx & Hb).
  rewrite Forall_forall in IH, Hall. by eapply IH; [|apply Hall|].
Qed.

(** From the tree of the caller to the layout in the shared graph. *)
Lemma covers_embeds T G og (V : list nat) p B :
  (∀ t, t ∈ T → edges G !! t.1 = Some t.2) →
  (∀ t, t ∈ T → source t.2 ∈ V ∧ target t.2 ∈ V) →
  (∀ c, c ∈ V → ∃ o, og !! c = Some o ∧
      if m_isTerminal o then length (incident T c) = 1
      else adjEntries G !! c = Some (incident T c) ∧ 3 ≤ length (incident T c)) →
  covers T p B → embeds G og p B.
Proof.
  intros Hedges Hends Hnodes. revert p.
  induction B as [a v subs IH] using branch_induction.
  intros p (r & Hr & Hp & Hv & Hinc & Hall)%covers_inv.
  assert (v ∈ V) as HvV.
  { destruct (Hends _ Hr) as [Hs Ht]. simpl in *. subst v.
    by destruct (isTgt a). }
  destruct (Hnodes v HvV) as (o & Ho & Hdeg).
  apply embeds_intro with r o; try done.
  - by apply (Hedges _ Hr).
  - destruct (m_isTerminal o).
    + rewrite Hinc in Hdeg. simpl in Hdeg. rewrite length_fmap in Hdeg.
      destruct subs; [done|simpl in Hdeg; lia].
    + destruct Hdeg as [Hadj Hlen]. exists (incident T v).
      split; [done|]. split; [done|].
      rewrite Hinc in Hlen. simpl in Hlen. rewrite length_fmap in Hlen. lia.
  - rewrite Forall_forall in IH, Hall. apply Forall_forall. intros b Hb.
    apply IH; [done|]. by apply Hall.
Qed.

(** Below every handle of a full component there is a terminal. *)
Lemma covers_terminal T (isT : nat → bool) (V : list nat) p B :
  (∀ t, t ∈ T → source t.2 ∈ V ∧ target t.2 ∈ V) →
  (∀ c, c ∈ V → isT c = false → 3 ≤ length (incident T c)) →
  covers T p B →
  ∃ a r, (theEdge a, r) ∈ T ∧ isT (endpoint r (isTgt a)) = true.
Proof.
  intros Hends Hdeg. revert p. induction B as [a v subs IH] using branch_induction.
  intros p (r & Hr & Hp & Hv & Hinc & Hall)%covers_inv.
  assert (v ∈ V) as HvV.
  { destruct (Hends _ Hr) as [Hs Ht]. simpl in *. subst v.
    by destruct (isTgt a). }
  destruct (isT v) eqn:Ht.
  - exists (twin a), r. split; [done|]. simpl. by rewrite Hv.
  - specialize (Hdeg v HvV Ht). rewrite Hinc in Hdeg. simpl in Hdeg.
    rewrite length_fmap in Hdeg.
    destruct subs as [|b subs]; [simpl in Hdeg; lia|].
    apply Forall_cons in IH as [IHb _]. apply Forall_cons in Hall as [Hb _].
    by apply (IHb v).
Qed.

End InsertEdges.

(** ** [insert] keeps the invariant *)

(** The state after the first loop of [insert], and the node of the shared
    graph that stands for a node of the tree from then on. *)
Definition nodes_after {Y} (s : Store Y) (comp : EdgeWeightedGraphCopy) : InsertNodes :=
  foldl (insert_node comp)
        (mkInsertNodes (m_graph s) (m_nodeCopy s) (m_nodeOrig s) [] []) (c_nodes comp).

Definition copy_of {Y} (s : Store Y) (comp : EdgeWeightedGraphCopy) (v : nat) : nat :=
  default 0%nat (in_nodeCopy (nodes_after s comp) !! c_original comp v).

(** The edges [insert] adds for the tree. *)
Definition new_edges {Y} (s : Store Y) (comp : EdgeWeightedGraphCopy)
  : list (nat * EdgeElement) :=
  tag_edges (copy_of s comp) (edgeIdCount (m_graph s)) (c_edges comp).

Section InsertStore.
Context (m_terminals : list nat) (m_isTerminal : nat → bool) {Y : Type} (extra0 : Y).
Hypothesis Hinst : instance_ok m_terminals m_isTerminal.
Local Open Scope nat_scope.
Notation embeds := (embeds m_isTerminal).
Notation component_ok := (component_ok m_isTerminal).
Notation store_ok := (store_ok m_terminals m_isTerminal).
Notation full_component := (full_component m_isTerminal).
Implicit Types (s : Store Y) (comp : EdgeWeightedGraphCopy).

Lemma isTree_nonempty V E : isTree V E → V ≠ [].
Proof.
  induction 1 as [v|V E u v _ IH Hu Hv|V E u v _ IH Hu Hv|V V' E E' HV HE _ IH]; try done.
  intros ->. by apply Permutation_nil_r in HV.
Qed.

Lemma Zsum_perm (l k : list Z) : l ≡ₚ k → Zsum l = Zsum k.
Proof.
  induction 1 as [|x l k _ IH|x y l|l k m _ IH1 _ IH2]; simpl; try done.
  - by rewrite IH.
  - lia.
  - congruence.
Qed.

Lemma filter_fmap_length {A B} (f : A → B) (P : B → Prop) `{∀ y, Decision (P y)}
    (l : list A) :
  length (filter P (f <$> l)) = length (filter (λ x, P (f x)) l).
Proof.
  induction l as [|x l IH]; [done|].
  rewrite fmap_cons, !filter_cons. case_decide; simpl; by rewrite IH.
Qed.

Section Fixed.
Variables (s : Store Y) (comp : EdgeWeightedGraphCopy).
Hypothesis Hok : store_ok s.
Hypothesis Hfc : full_component comp.

Lemma fixed_nodes_inv :
  nodes_inv (m_graph s) (m_nodeCopy s) (m_nodeOrig s) comp (c_nodes comp) (nodes_after s comp).
Proof.
  destruct Hok as [HG _ _ Hb _]. destruct Hfc as [Htree Hinj _ _].
  apply (nodes_inv_fold _ _ _ _ (c_nodes comp) []).
  - by apply nodes_inv_init.
  - simpl. apply NoDup_fmap_2_strong; [|by eapply isTree_NoDup].
    intros x y Hx Hy. by apply Hinj.
Qed.

Lemma fixed_term_iff v :
  m_isTerminal (c_original comp v) = true ↔ is_Some (m_nodeCopy s !! c_original comp v).
Proof. rewrite (sok_copy_dom _ _ _ Hok). apply Hinst. Qed.

Lemma fixed_copy_of v :
  v ∈ c_nodes comp →
  in_nodeCopy (nodes_after s comp) !! c_original comp v = Some (copy_of s comp v).
Proof.
  intros Hv. unfold copy_of.
  destruct (ni_all _ _ _ _ _ _ fixed_nodes_inv v Hv) as [c ->]. done.
Qed.

Lemma fixed_copy_term v :
  v ∈ c_nodes comp → m_isTerminal (c_original comp v) = true →
  m_nodeCopy s !! c_original comp v = Some (copy_of s comp v) ∧
  m_nodeOrig s !! copy_of s comp v = Some (c_original comp v) ∧
  copy_of s comp v < nodeIdCount (m_graph s) ∧
  is_Some (adjEntries (m_graph s) !! copy_of s comp v).
Proof.
  intros Hv [c Hc]%fixed_term_iff.
  pose proof (ni_cp_old _ _ _ _ _ _ fixed_nodes_inv _ _ Hc) as Hc'.
  rewrite (fixed_copy_of v Hv) in Hc'. injection Hc' as ->.
  destruct (sok_copy_orig _ _ _ Hok _ _ Hc) as [Hog Halive].
  split; [done|]. split; [done|]. split; [|done].
  by apply (gok_node _ (sok_graph _ _ _ Hok)).
Qed.

Lemma fixed_copy_steiner v :
  v ∈ c_nodes comp → m_isTerminal (c_original comp v) = false →
  nodeIdCount (m_graph s) ≤ copy_of s comp v ∧
  adjEntries (in_graph (nodes_after s comp)) !! copy_of s comp v = Some [] ∧
  in_nodeOrig (nodes_after s comp) !! copy_of s comp v = Some (c_original comp v).
Proof.
  intros Hv Ht.
  assert (m_nodeCopy s !! c_original comp v = None) as Hnone.
  { destruct (m_nodeCopy s !! c_original comp v) eqn:Hc; [|done].
    assert (m_isTerminal (c_original comp v) = true) by (apply fixed_term_iff; eauto).
    congruence. }
  destruct (ni_cp_new _ _ _ _ _ _ fixed_nodes_inv _ _ Hnone (fixed_copy_of v Hv))
    as (_ & ? & ? & ?). done.
Qed.

Lemma fixed_copy_og v :
  v ∈ c_nodes comp →
  in_nodeOrig (nodes_after s comp) !! copy_of s comp v = Some (c_original comp v).
Proof.
  intros Hv. destruct (m_isTerminal (c_original comp v)) eqn:Ht.
  - destruct (fixed_copy_term v Hv Ht) as (_ & Hog & Hlt & _).
    by rewrite (ni_old_og _ _ _ _ _ _ fixed_nodes_inv).
  - by destruct (fixed_copy_steiner v Hv Ht) as (_ & _ & ?).
Qed.

Lemma fixed_copy_alive v :
  v ∈ c_nodes comp →
  is_Some (adjEntries (in_graph (nodes_after s comp)) !! copy_of s comp v).
Proof.
  intros Hv. destruct (m_isTerminal (c_original comp v)) eqn:Ht.
  - destruct (fixed_copy_term v Hv Ht) as (_ & _ & Hlt & Halive).
    by rewrite (ni_old_adj _ _ _ _ _ _ fixed_nodes_inv).
  - destruct (fixed_copy_steiner v Hv Ht) as (_ & -> & _). eauto.
Qed.

Lemma fixed_copy_inj x y :
  x ∈ c_nodes comp → y ∈ c_nodes comp → copy_of s comp x = copy_of s comp y → x = y.
Proof.
  intros Hx Hy Heq. apply (fc_injective _ _ Hfc); [done|done|].
  pose proof (fixed_copy_og x Hx) as Hox. pose proof (fixed_copy_og y Hy) as Hoy.
  rewrite Heq in Hox. congruence.
Qed.

Lemma fixed_ends e :
  e ∈ c_edges comp → ce_source e ∈ c_nodes comp ∧ ce_target e ∈ c_nodes comp.
Proof.
  intros He. apply (isTree_ends _ _ _ _ (fc_tree _ _ Hfc)).
  unfold copy_pairs. apply list_elem_of_fmap. eauto.
Qed.

Lemma fixed_edges :
  ∃ r, insert_edges m_isTerminal comp (in_nodeCopy (nodes_after s comp))
         (mkInsertEdges (in_graph (nodes_after s comp)) 0 None) (c_edges comp) = Some r ∧
    graph_ok (ie_graph r) ∧
    (∀ x, adjEntries (ie_graph r) !! x
          = (λ l, l ++ incident (new_edges s comp) x)
              <$> adjEntries (in_graph (nodes_after s comp)) !! x) ∧
    (∀ t, t ∈ new_edges s comp → edges (ie_graph r) !! t.1 = Some t.2) ∧
    (∀ e, e < edgeIdCount (m_graph s) → edges (ie_graph r) !! e = edges (m_graph s) !! e) ∧
    nodeIdCount (ie_graph r) = nodeIdCount (in_graph (nodes_after s comp)) ∧
    edgeIdCount (ie_graph r) = edgeIdCount (m_graph s) + length (c_edges comp) ∧
    ie_cost r = Zsum (ce_weight <$> c_edges comp) ∧
    ie_start r = start_after (λ v, m_isTerminal (c_original comp v))
                   (edgeIdCount (m_graph s)) (c_edges comp) None.
Proof.
  pose proof fixed_nodes_inv as Hinv.
  destruct (insert_edges_spec m_isTerminal (copy_of s comp) comp
              (in_nodeCopy (nodes_after s comp)) (c_edges comp)
              (mkInsertEdges (in_graph (nodes_after s comp)) 0 None))
    as (r & Hr & HG & Hadj & Hnew & Hold & Hnid & Heid & Hcost & Hstart).
  { intros e He. destruct (fixed_ends e He) as [Hs Ht]. simpl.
    split; [by apply fixed_copy_of|]. split; [by apply fixed_copy_of|].
    split; by apply fixed_copy_alive. }
  { simpl. apply (ni_gok _ _ _ _ _ _ Hinv). }
  simpl in *. rewrite (ni_eid _ _ _ _ _ _ Hinv) in *.
  exists r. split; [done|]. split; [done|]. split; [done|]. split; [done|].
  split. { intros e He. rewrite Hold by done. by rewrite (ni_edges _ _ _ _ _ _ Hinv). }
  split; [done|]. split; [done|]. split; [|done].
  rewrite Hcost. lia.
Qed.

Lemma fixed_tree :
  isTree (copy_of s comp <$> c_nodes comp) (pairs (new_edges s comp)).
Proof.
  unfold new_edges. rewrite pairs_tag_edges.
  apply isTree_fmap; [apply (fc_tree _ _ Hfc)|]. apply fixed_copy_inj.
Qed.

Lemma fixed_degree v :
  v ∈ c_nodes comp →
  length (incident (new_edges s comp) (copy_of s comp v)) = degree comp v.
Proof.
  intros Hv. apply (incident_tag_length _ _ _ (c_nodes comp)); try done.
  - apply fixed_copy_inj.
  - apply fixed_ends.
Qed.

Lemma fixed_new_ends t :
  t ∈ new_edges s comp →
  source t.2 ∈ copy_of s comp <$> c_nodes comp ∧
  target t.2 ∈ copy_of s comp <$> c_nodes comp.
Proof.
  intros (_ & e & He & ->)%tag_edges_elem. simpl.
  destruct (fixed_ends e He). split; by apply list_elem_of_fmap_2.
Qed.

Lemma fixed_terminal_edge :
  ∃ e, e ∈ c_edges comp ∧
       (m_isTerminal (c_original comp (ce_source e)) = true ∨
        m_isTerminal (c_original comp (ce_target e)) = true).
Proof.
  pose proof (isTree_nonempty _ _ (fc_tree _ _ Hfc)) as Hne.
  destruct (c_nodes comp) as [|x Vs] eqn:HVs; [done|]. clear Hne.
  assert (x ∈ c_nodes comp) as Hx by (rewrite HVs; left).
  assert (copy_of s comp x ∈ copy_of s comp <$> c_nodes comp) as Hfx
    by by apply list_elem_of_fmap_2.
  destruct (rooting _ _ fixed_tree (new_edges s comp) eq_refl _ Hfx)
    as (subs & Hinc & Hall & _ & _).
  pose proof (fixed_degree x Hx) as Hdeg. rewrite Hinc, length_fmap in Hdeg.
  assert (∃ a r, (theEdge a, r) ∈ new_edges s comp ∧
            from_option m_isTerminal false
              (in_nodeOrig (nodes_after s comp) !! endpoint r (isTgt a)) = true)
    as (a & r & Hr & Ht).
  { destruct (m_isTerminal (c_original comp x)) eqn:Htx.
    - rewrite (fc_leaf _ _ Hfc x Hx Htx) in Hdeg.
      destruct subs as [|[a v bs] subs]; [done|].
      apply Forall_cons in Hall as [(r & Hr & Hp & _)%covers_inv _].
      exists a, r. split; [done|]. rewrite Hp, (fixed_copy_og x Hx). done.
    - pose proof (fc_inner _ _ Hfc x Hx Htx) as Hge.
      destruct subs as [|b subs]; [simpl in Hdeg; lia|].
      apply Forall_cons in Hall as [Hb _].
      apply (covers_terminal (new_edges s comp)
               (λ c, from_option m_isTerminal false (in_nodeOrig (nodes_after s comp) !! c))
               (copy_of s comp <$> c_nodes comp) (copy_of s comp x) b fixed_new_ends);
        [|done].
      intros c (y & -> & Hy)%list_elem_of_fmap. rewrite (fixed_copy_og y Hy). simpl.
      intros Hty. rewrite (fixed_degree y Hy). by apply (fc_inner _ _ Hfc). }
  apply tag_edges_elem in Hr as (_ & e & He & Hre). simpl in Hre. subst r.
  exists e. split; [done|]. destruct (fixed_ends e He) as [Hs Htg].
  destruct (isTgt a); simpl in Ht.
  - right. by rewrite (fixed_copy_og _ Htg) in Ht.
  - left. by rewrite (fixed_copy_og _ Hs) in Ht.
Qed.

(** The start handle of the new record and the branch behind it. *)
Lemma fixed_branch :
  ∃ a0 x0 B0,
    start_after (λ v, m_isTerminal (c_original comp v))
      (edgeIdCount (m_graph s)) (c_edges comp) None = Some a0 ∧
    x0 ∈ c_nodes comp ∧ m_isTerminal (c_original comp x0) = true ∧
    br_entry B0 = a0 ∧
    covers (new_edges s comp) (copy_of s comp x0) B0 ∧
    copy_of s comp x0 :: br_nodes B0 ≡ₚ copy_of s comp <$> c_nodes comp ∧
    br_edges B0 ≡ₚ (new_edges s comp).*1.
Proof.
  destruct (start_after_Some (λ v, m_isTerminal (c_original comp v))
              (edgeIdCount (m_graph s)) (c_edges comp) None) as [a0 Ha0].
  { right. apply fixed_terminal_edge. }
  destruct (start_after_elem (copy_of s comp) _ _ _ _ _ Ha0)
    as [?|(e & He & Hin & Ht)]; [done|].
  destruct (fixed_ends e He) as [Hs Htg].
  set (x0 := if isTgt a0 then ce_target e else ce_source e) in *.
  assert (x0 ∈ c_nodes comp) as Hx0 by (unfold x0; by destruct (isTgt a0)).
  assert (copy_of s comp x0 ∈ copy_of s comp <$> c_nodes comp) as Hfx
    by by apply list_elem_of_fmap_2.
  destruct (rooting _ _ fixed_tree (new_edges s comp) eq_refl _ Hfx)
    as (subs & Hinc & Hall & Hnodes & Hedges).
  pose proof (fixed_degree x0 Hx0) as Hdeg.
  rewrite (fc_leaf _ _ Hfc x0 Hx0 Ht), Hinc, length_fmap in Hdeg.
  destruct subs as [|B0 [|? ?]]; try done.
  apply Forall_cons in Hall as [Hall _].
  rewrite bind_singleton in Hnodes, Hedges.
  assert (a0 ∈ incident (new_edges s comp) (copy_of s comp x0)) as Hain.
  { pose proof (incident_elem _ _ _ (isTgt a0) Hin) as Hi. simpl in Hi.
    destruct a0 as [i d]. simpl in *. unfold x0. by destruct d. }
  rewrite Hinc in Hain. simpl in Hain. apply list_elem_of_singleton in Hain.
  exists a0, x0, B0. split_and!; done.
Qed.

Lemma fixed_new_embeds r :
  (∀ x, adjEntries (ie_graph r) !! x
        = (λ l, l ++ incident (new_edges s comp) x)
            <$> adjEntries (in_graph (nodes_after s comp)) !! x) →
  (∀ t, t ∈ new_edges s comp → edges (ie_graph r) !! t.1 = Some t.2) →
  ∀ p B, covers (new_edges s comp) p B →
         embeds (ie_graph r) (in_nodeOrig (nodes_after s comp)) p B.
Proof.
  intros Hadj Hnew p B.
  apply (covers_embeds _ _ _ _ (copy_of s comp <$> c_nodes comp)); [done|..].
  - apply fixed_new_ends.
  - intros c (y & -> & Hy)%list_elem_of_fmap.
    exists (c_original comp y). split; [by apply fixed_copy_og|].
    rewrite (fixed_degree y Hy).
    destruct (m_isTerminal (c_original comp y)) eqn:Ht.
    + by apply (fc_leaf _ _ Hfc).
    + split; [|by apply (fc_inner _ _ Hfc)].
      destruct (fixed_copy_steiner y Hy Ht) as (_ & Hnil & _).
      by rewrite Hadj, Hnil.
Qed.

Lemma fixed_old_component r s' c B :
  (∀ x, adjEntries (ie_graph r) !! x
        = (λ l, l ++ incident (new_edges s comp) x)
            <$> adjEntries (in_graph (nodes_after s comp)) !! x) →
  (∀ e, e < edgeIdCount (m_graph s) → edges (ie_graph r) !! e = edges (m_graph s) !! e) →
  m_graph s' = ie_graph r → m_nodeOrig s' = in_nodeOrig (nodes_after s comp) →
  m_nodeCopy s' = m_nodeCopy s →
  component_ok s c B → component_ok s' c B.
Proof.
  intros Hadj Hold Hg Ho Hcp [Hst (p & t & Hemb & Hp & Ht) Hterm Hcost Hshared].
  pose proof fixed_nodes_inv as Hinv.
  pose proof (sok_graph _ _ _ Hok) as HG.
  assert (∀ e, e ∈ br_edges B → edges (ie_graph r) !! e = edges (m_graph s) !! e) as Hedges.
  { intros e He. apply Hold. apply (gok_edge _ HG).
    by eapply embeds_edges_live. }
  assert (∀ x, is_Some (m_nodeOrig s !! x) →
               in_nodeOrig (nodes_after s comp) !! x = m_nodeOrig s !! x) as Hog.
  { intros x Hx. apply (ni_old_og _ _ _ _ _ _ Hinv). by apply (sok_orig_bound _ _ _ Hok). }
  split; rewrite ?Hg, ?Ho, ?Hcp; try done.
  - exists p, t. split; [|split; [|done]].
    + apply (embeds_frame _ (m_graph s) _ (m_nodeOrig s)); try done.
      * intros x l Hx Hl _.
        destruct (embeds_inner _ _ _ _ _ _ Hemb Hx) as (Halive & xO & HxO & HtO).
        pose proof (gok_node _ HG _ Halive) as Hlt.
        exists l. split; [|done].
        rewrite Hadj, (ni_old_adj _ _ _ _ _ _ Hinv) by done. rewrite Hl. simpl.
        rewrite incident_off; [by rewrite app_nil_r|].
        intros t' Ht'. destruct (fixed_new_ends t' Ht') as [Hs' Htg'].
        assert (∀ y, y ∈ c_nodes comp → copy_of s comp y ≠ x) as Hne.
        { intros y Hy <-.
          pose proof (fixed_copy_og y Hy) as Hoy.
          rewrite Hog in Hoy by eauto. rewrite HxO in Hoy. injection Hoy as ->.
          destruct (fixed_copy_steiner y Hy HtO) as (? & _). lia. }
        apply list_elem_of_fmap in Hs' as (y1 & -> & Hy1).
        apply list_elem_of_fmap in Htg' as (y2 & -> & Hy2).
        split; by apply Hne.
      * intros x Hx. apply Hog. by eapply embeds_nodes_og.
    + rewrite Hog by eauto. done.
  - rewrite Hcost. f_equal. apply list_fmap_ext. intros j e He.
    unfold edge_weight. rewrite Hedges; [done|]. by eapply list_elem_of_lookup_2.
  - intros v vO Hv HvO. destruct (embeds_theNode _ _ _ _ _ Hemb) as [Hroot _].
    assert (theNode (m_graph s) (br_entry B) = Some v ∨ v ∈ br_nodes B) as Hv'.
    { destruct Hv as [Hv|Hv]; [left|by right].
      apply theNode_Some in Hv as (r' & Hr' & Hend). apply theNode_Some.
      exists r'. split; [|done]. rewrite <-Hedges; [done|apply br_entry_edge]. }
    apply Hshared; [done|]. rewrite <-Hog; [done|].
    destruct Hv' as [Hv'|Hv']; [|by eapply embeds_nodes_og].
    rewrite Hroot in Hv'. injection Hv' as <-. eauto.
Qed.

(** [insert] on a full component: it succeeds, the invariant holds again,
    and the new record is the last one. *)
Lemma fixed_insert :
  ∃ s' c,
    insert m_isTerminal extra0 s comp = Some s' ∧ store_ok s' ∧
    m_components s' = m_components s ++ [c] ∧
    m_nodeCopy s' = m_nodeCopy s ∧
    cost c = Zsum (ce_weight <$> c_edges comp) ∧
    terminals c = quicksort (c_original comp <$>
                    filter (λ v, is_Some (m_nodeCopy s !! c_original comp v)) (c_nodes comp)) ∧
    start c = start_after (λ v, m_isTerminal (c_original comp v))
                (edgeIdCount (m_graph s)) (c_edges comp) None ∧
    extra c = extra0.
Proof.
  destruct fixed_edges as (r & Hr & HGr & Hadj & Hnew & Hold & Hnid & Heid & Hcost & Hstart).
  destruct fixed_branch as (a0 & x0 & B0 & Hst & Hx0 & Htx0 & Hentry & Hcov & Hnodes & Hedges).
  pose proof fixed_nodes_inv as Hinv.
  pose proof (sok_graph _ _ _ Hok) as HG.
  set (data := mkMetadata (ie_start r) (quicksort (in_terminals (nodes_after s comp)))
                 (ie_cost r) extra0).
  set (s' := mkStore (ie_graph r) (m_nodeCopy s) (in_nodeOrig (nodes_after s comp))
               (m_components s ++ [data])).
  assert (insert m_isTerminal extra0 s comp = Some s') as Hins.
  { unfold insert. rewrite decide_False by apply (isTree_nonempty _ _ (fc_tree _ _ Hfc)).
    fold (nodes_after s comp). rewrite Hr. simpl.
    by rewrite (nodes_inv_cleanup _ _ _ _ _ _ Hinv). }
  assert (embeds (ie_graph r) (in_nodeOrig (nodes_after s comp)) (copy_of s comp x0) B0)
    as Hemb0 by by apply fixed_new_embeds.
  assert (NoDup (copy_of s comp <$> c_nodes comp)) as HndV.
  { apply NoDup_fmap_2_strong; [|by apply (isTree_NoDup _ _ (fc_tree _ _ Hfc))].
    intros x y Hx Hy. by apply fixed_copy_inj. }
  assert (component_ok s' data B0) as Hnewc.
  { split; simpl.
    - by rewrite Hstart, Hst, Hentry.
    - exists (copy_of s comp x0), (c_original comp x0).
      split; [done|]. split; [by apply fixed_copy_og|done].
    - rewrite quicksort_perm, (ni_terms _ _ _ _ _ _ Hinv), length_fmap.
      rewrite (embeds_leaves _ _ _ _ _ Hemb0).
      transitivity (length (filter (term_node m_isTerminal (in_nodeOrig (nodes_after s comp)))
                              (copy_of s comp <$> c_nodes comp))).
      + rewrite filter_fmap_length. f_equal. apply filter_ext_in.
        intros v Hv. unfold term_node. rewrite (fixed_copy_og v Hv). simpl.
        symmetry. apply fixed_term_iff.
      + rewrite <-Hnodes, filter_cons. rewrite decide_True; [done|].
        unfold term_node. by rewrite (fixed_copy_og x0 Hx0).
    - rewrite Hcost. rewrite (Zsum_perm _ _ (fmap_Permutation _ _ _ Hedges)).
      rewrite <-(tag_edges_weights (copy_of s comp) (edgeIdCount (m_graph s))).
      fold (new_edges s comp). rewrite <-list_fmap_compose. f_equal.
      apply list_fmap_ext. intros j t Ht. simpl. unfold edge_weight.
      rewrite Hnew; [done|]. by eapply list_elem_of_lookup_2.
    - intros v vO Hv HvO HtO.
      assert (v ∈ copy_of s comp <$> c_nodes comp) as Hin.
      { rewrite <-Hnodes. destruct Hv as [Hv|Hv]; [|by right].
        destruct (embeds_theNode _ _ _ _ _ Hemb0) as [Hroot _].
        rewrite Hroot in Hv. injection Hv as <-. left. }
      apply list_elem_of_fmap in Hin as (y & -> & Hy).
      rewrite (fixed_copy_og y Hy) in HvO. injection HvO as <-.
      by destruct (fixed_copy_term y Hy HtO) as (? & _). }
  exists s', data. split; [done|]. split; [|split_and!; try done].
  2:{ simpl. by rewrite (ni_terms _ _ _ _ _ _ Hinv). }
  destruct Hok as [_ Hdom Horig Hbound (Bs & HBs & HndE & HndI)].
  split; simpl; try done.
  - intros t c Hc. destruct (Horig _ _ Hc) as [Hog Halive].
    pose proof (gok_node _ HG _ Halive) as Hlt. split.
    + by rewrite (ni_old_og _ _ _ _ _ _ Hinv).
    + rewrite Hadj, (ni_old_adj _ _ _ _ _ _ Hinv) by done. by apply fmap_is_Some.
  - intros x Hx. rewrite Hnid. by apply (ni_og_bound _ _ _ _ _ _ Hinv).
  - exists (Bs ++ [B0]). split; [|split].
    + apply Forall2_app; [|by apply Forall2_cons].
      eapply Forall2_impl; [done|]. intros c B HcB.
      by apply (fixed_old_component r).
    + rewrite bind_app, bind_singleton. apply NoDup_app. split; [done|]. split.
      * intros e He He0. apply list_elem_of_bind in He as (B & He & HB).
        apply list_elem_of_lookup_1 in HB as [i HB].
        destruct (Forall2_lookup_r _ _ _ _ _ HBs HB) as (c & _ & [_ (p & t & Hemb & _) _ _ _]).
        pose proof (gok_edge _ HG _ (embeds_edges_live _ _ _ _ _ _ Hemb He)) as Hlt.
        rewrite Hedges in He0. unfold new_edges in He0.
        rewrite tag_edges_tags in He0. apply elem_of_seq in He0. lia.
      * rewrite Hedges. unfold new_edges. rewrite tag_edges_tags. apply NoDup_seq.
    + rewrite bind_app, bind_singleton. apply NoDup_app. split; [done|]. split.
      * intros x Hx Hx0'. apply list_elem_of_bind in Hx as (B & Hx & HB).
        apply list_elem_of_lookup_1 in HB as [i HB].
        destruct (Forall2_lookup_r _ _ _ _ _ HBs HB) as (c & _ & [_ (p & t & Hemb & _) _ _ _]).
        destruct (embeds_inner _ _ _ _ _ _ Hemb Hx) as (Halive & _).
        pose proof (gok_node _ HG _ Halive) as Hlt.
        destruct (embeds_inner _ _ _ _ _ _ Hemb0 Hx0') as (_ & xO & HxO & HtO).
        assert (x ∈ copy_of s comp <$> c_nodes comp) as Hin.
        { rewrite <-Hnodes. right. by apply br_inner_nodes. }
        apply list_elem_of_fmap in Hin as (y & -> & Hy).
        rewrite (fixed_copy_og y Hy) in HxO. injection HxO as <-.
        destruct (fixed_copy_steiner y Hy HtO) as (? & _). lia.
      * eapply sublist_NoDup; [|apply br_inner_sublist].
        rewrite <-Hnodes in HndV. by apply NoDup_cons in HndV as [_ ?].
Qed.

End Fixed.

End InsertStore.

(** ** Every reachable store satisfies the invariant *)

Section Reachable.
Context (m_terminals : list nat) (m_isTerminal : nat → bool) {Y : Type} (extra0 : Y).
Hypothesis Hinst : instance_ok m_terminals m_isTerminal.
Local Open Scope nat_scope.
Notation store_ok := (store_ok m_terminals m_isTerminal).
Notation reachable := (reachable m_terminals m_isTerminal extra0).

(** What the constructor has built after the terminals [pre]. *)
Record init_inv (pre : list nat) (st : EdgeWeightedGraph * gmap nat nat * gmap nat nat)
  : Prop := mkInitInv {
  ii_graph : graph_ok st.1.1;
  ii_dom : ∀ v, is_Some (st.1.2 !! v) ↔ v ∈ pre;
  ii_orig : ∀ t c, st.1.2 !! t = Some c →
            st.2 !! c = Some t ∧ is_Some (adjEntries st.1.1 !! c);
  ii_bound : ∀ v, is_Some (st.2 !! v) → v < nodeIdCount st.1.1
}.

Lemma init_inv_step pre st v :
  init_inv pre st → init_inv (pre ++ [v]) (init_step st v).
Proof.
  destruct st as [[G cp] og]. intros [HG Hdom Horig Hbound]. simpl in *.
  assert (cp !! v = None ∨ True) as _ by auto.
  split; simpl.
  - by apply graph_ok_newNode.
  - intros w. rewrite lookup_insert, elem_of_app, list_elem_of_singleton.
    case_decide; [subst; split; eauto|]. rewrite Hdom. naive_solver.
  - intros t c. rewrite lookup_insert. case_decide.
    + intros [= <-]. subst. rewrite !lookup_insert_eq. eauto.
    + intros Hc. destruct (Horig _ _ Hc) as [Hog Halive].
      pose proof (gok_node _ HG _ Halive).
      rewrite !lookup_insert_ne by lia. done.
  - intros w. rewrite lookup_insert. case_decide; [lia|].
    intros Hw. apply Hbound in Hw. lia.
Qed.

Lemma init_inv_fold suf :
  ∀ pre st, init_inv pre st → init_inv (pre ++ suf) (foldl init_step st suf).
Proof.
  induction suf as [|v suf IH]; intros pre st Hinv; simpl.
  - by rewrite app_nil_r.
  - rewrite (cons_middle v pre suf), app_assoc. apply IH. by apply init_inv_step.
Qed.

Lemma init_ok : store_ok (init (Y:=Y) m_terminals).
Proof.
  assert (init_inv [] (emptyGraph, ∅, ∅)) as H0.
  { split; simpl.
    - split; simpl.
      + intros x l a. by rewrite lookup_empty.
      + intros x. rewrite lookup_empty. by intros [? ?].
      + intros e. rewrite lookup_empty. by intros [? ?].
    - intros v. rewrite lookup_empty. split; [by intros [? ?]|by intros ?%elem_of_nil].
    - intros t c. by rewrite lookup_empty.
    - intros v. rewrite lookup_empty. by intros [? ?]. }
  apply (init_inv_fold m_terminals) in H0. simpl in H0.
  unfold init. destruct (foldl init_step (emptyGraph, ∅, ∅) m_terminals) as [[G cp] og].
  destruct H0 as [HG Hdom Horig Hbound]. simpl in *.
  split; simpl; try done.
  exists []. split; [constructor|]. split; constructor.
Qed.

(** The invariant holds in every reachable store. *)
Lemma reachable_ok (s : Store Y) : reachable s → store_ok s.
Proof.
  induction 1 as [|s comp s' _ IH Hfc Hins|s fuel id s' _ IH Hrem].
  - apply init_ok.
  - destruct (fixed_insert m_terminals m_isTerminal extra0 Hinst s comp IH Hfc)
      as (s'' & c & Hins' & Hok' & _).
    rewrite Hins in Hins'. by injection Hins' as ->.
  - by eapply remove_store_ok.
Qed.

End Reachable.

(** ** A concrete instance

    Three terminals 1, 2, 3 and one full component: the star with the
    Steiner node 7 in the middle and the weights 2, 3 and 4. *)

Definition ex_terminals : list nat := [1; 2; 3]%nat.

Definition ex_isTerminal (v : nat) : bool := bool_decide (v ∈ ex_terminals).

Definition ex_star : EdgeWeightedGraphCopy :=
  mkCopy [10; 11; 12; 13]%nat
         [CopyE 10 13 2; CopyE 13 11 3; CopyE 12 13 4]
         (λ v, match v with 10 => 1 | 11 => 2 | 12 => 3 | _ => 7 end)%nat.

Definition ex_empty : Store unit := init ex_terminals.

Definition ex_store : Store unit :=
  default ex_empty (insert ex_isTerminal tt ex_empty ex_star).

Lemma ex_instance_ok : instance_ok ex_terminals ex_isTerminal.
Proof. intros v. unfold ex_isTerminal. apply bool_decide_eq_true. Defined.

Lemma ex_star_tree : isTree (c_nodes ex_star) (copy_pairs ex_star).
Proof.
  apply isTree_perm with [12; 11; 10; 13]%nat [(12, 13); (13, 11); (10, 13)]%nat.
  - apply NoDup_Permutation; [by apply (bool_decide_unpack _)..|set_solver].
  - symmetry. exact (Permutation_rev [(10, 13); (13, 11); (12, 13)]%nat).
  - apply isTree_leaf_rev; [|set_solver|set_solver].
    apply isTree_leaf; [|set_solver|set_solver].
    apply isTree_leaf_rev; [|set_solver|set_solver].
    apply isTree_single.
Defined.

Lemma ex_star_full : full_component ex_isTerminal ex_star.
Proof.
  split.
  - apply ex_star_tree.
  - intros u v Hu Hv. simpl in Hu, Hv.
    repeat (apply elem_of_cons in Hu as [->|Hu]); try (by apply elem_of_nil in Hu);
    repeat (apply elem_of_cons in Hv as [->|Hv]); try (by apply elem_of_nil in Hv);
    simpl; congruence.
  - intros v Hv. simpl in Hv.
    repeat (apply elem_of_cons in Hv as [->|Hv]); try (by apply elem_of_nil in Hv);
    vm_compute; congruence.
  - intros v Hv. simpl in Hv.
    repeat (apply elem_of_cons in Hv as [->|Hv]); try (by apply elem_of_nil in Hv);
    vm_compute; (congruence || lia).
Defined.

Lemma ex_insert : insert ex_isTerminal tt ex_empty ex_star = Some ex_store.
Proof. vm_compute. reflexivity. Defined.

Lemma ex_reachable : reachable ex_terminals ex_isTerminal tt ex_store.
Proof.
  apply reachable_insert with ex_empty ex_star.
  - apply reachable_init.
  - apply ex_star_full.
  - apply ex_insert.
Defined.

Lemma ex_component :
  component ex_store 0 = Some (mkMetadata (Some (AdjE 2 false)) [1; 2; 3]%nat 9 tt).
Proof. vm_compute. reflexivity. Defined.

(** A second component on the same store: the edge of weight 5 between the
    terminals 1 and 2. *)
Definition ex_edge : EdgeWeightedGraphCopy :=
  mkCopy [20; 21]%nat [CopyE 20 21 5]
         (λ v, match v with 20 => 1 | _ => 2 end)%nat.

Definition ex_store2 : Store unit :=
  default ex_store (insert ex_isTerminal tt ex_store ex_edge).

Lemma ex_edge_tree : isTree (c_nodes ex_edge) (copy_pairs ex_edge).
Proof.
  apply (isTree_leaf_rev [21]%nat [] 21%nat 20%nat); [|set_solver|set_solver].
  apply isTree_single.
Defined.

Lemma ex_edge_full : full_component ex_isTerminal ex_edge.
Proof.
  split.
  - apply ex_edge_tree.
  - intros u v Hu Hv. simpl in Hu, Hv.
    repeat (apply elem_of_cons in Hu as [->|Hu]); try (by apply elem_of_nil in Hu);
    repeat (apply elem_of_cons in Hv as [->|Hv]); try (by apply elem_of_nil in Hv);
    simpl; congruence.
  - intros v Hv. simpl in Hv.
    repeat (apply elem_of_cons in Hv as [->|Hv]); try (by apply elem_of_nil in Hv);
    vm_compute; congruence.
  - intros v Hv. simpl in Hv.
    repeat (apply elem_of_cons in Hv as [->|Hv]); try (by apply elem_of_nil in Hv);
    vm_compute; (congruence || lia).
Defined.

Lemma ex_insert2 : insert ex_isTerminal tt ex_store ex_edge = Some ex_store2.
Proof. vm_compute. reflexivity. Defined.

Lemma ex_reachable2 : reachable ex_terminals ex_isTerminal tt ex_store2.
Proof.
  apply reachable_insert with ex_store ex_edge.
  - apply ex_reachable.
  - apply ex_edge_full.
  - apply ex_insert2.
Defined.

Lemma ex_component2 :
  component ex_store2 1 = Some (mkMetadata (Some (AdjE 3 false)) [1; 2]%nat 5 tt).
Proof. vm_compute. reflexivity. Defined.

(** The same star in a store with loss data, and a minimum spanning tree of
    its graph with the zero-cost edges 3 and 4: the Steiner node 3 hangs on
    the terminal node 0 by the edge 0. *)
Definition ex_loss_store : Store LossMetadata :=
  default (init ex_terminals)
          (insert ex_isTerminal LossMetadata0 (init ex_terminals) ex_star).

Definition ex_losses : LossStore := mkLossStore ex_loss_store ∅.

Definition ex_mst (sC : nat) (G : EdgeWeightedGraph)
  : (nat → option nat) * (nat → bool) :=
  (λ u, match u with 1 => Some 3 | 2 => Some 4 | 3 => Some 0 | _ => None end%nat,
   λ e, bool_decide (e ∈ [0; 3; 4]%nat)).

Lemma ex_loss_insert :
  insert ex_isTerminal LossMetadata0 (init ex_terminals) ex_star = Some ex_loss_store.
Proof. vm_compute. reflexivity. Defined.

Lemma ex_loss_reachable : reachable ex_terminals ex_isTerminal LossMetadata0 ex_loss_store.
Proof.
  apply reachable_insert with (init ex_terminals) ex_star.
  - apply reachable_init.
  - apply ex_star_full.
  - apply ex_loss_insert.
Defined.

(** ** Further facts about the walks *)

(** The nodes [foreachNode(id, f)] looks up: the node of the start handle and
    the node of every visited handle. *)
Definition skeleton_node {Y} (m_isTerminal : nat → bool) (fuel : nat) (s : Store Y)
    (id : Z) (v : nat) : Prop :=
  (∃ st, start_of s id = Some (Some st) ∧ theNode (m_graph s) st = Some v) ∨
  (∃ vis back, visited m_isTerminal fuel s id = Some vis ∧ back ∈ vis ∧
               theNode (m_graph s) back = Some v).

Section WalkFacts.
Context (m_terminals : list nat) (m_isTerminal : nat → bool) {Y : Type} (extra0 : Y).
Local Open Scope nat_scope.
Notation embeds := (embeds m_isTerminal).
Notation component_ok := (component_ok m_isTerminal).
Notation store_ok := (store_ok m_terminals m_isTerminal).
Implicit Types (s : Store Y) (B : branch).

Lemma foreach_walk_mono {A} s cap (f : adjEntry → A → option A) :
  ∀ fuel stack acc r, foreach_walk m_isTerminal fuel s cap f stack acc = Some r →
  ∀ fuel', fuel ≤ fuel' → foreach_walk m_isTerminal fuel' s cap f stack acc = Some r.
Proof.
  induction fuel as [|fuel IH]; intros stack acc r Hw fuel' Hle.
  - destruct stack; [|done]. by destruct fuel'.
  - destruct stack as [|top stack]; [by destruct fuel'|].
    destruct fuel' as [|fuel']; [lia|].
    rewrite foreach_walk_step in Hw |- *.
    destruct (f (twin top) acc) as [acc'|]; simpl in *; [|done].
    destruct (theNode (m_graph s) (twin top)) as [v|]; simpl in *; [|done].
    destruct (isTerminal m_isTerminal s v) as [[]|]; simpl in *; [|..|done].
    + apply IH; [done|lia].
    + destruct (adjEntries (m_graph s) !! v) as [l|]; simpl in *; [|done].
      destruct (cyclicSucc (m_graph s) (twin top)) as [adj|]; simpl in *; [|done].
      destruct (push_others (length l) (m_graph s) cap (twin top) adj stack)
        as [st'|]; simpl in *; [|done].
      apply IH; [done|lia].
Qed.

Lemma foreachAdjEntry_mono {A} s id (f : adjEntry → A → option A) fuel fuel' acc r :
  foreachAdjEntry m_isTerminal fuel s id f acc = Some r → fuel ≤ fuel' →
  foreachAdjEntry m_isTerminal fuel' s id f acc = Some r.
Proof.
  unfold foreachAdjEntry. intros Hr Hle.
  destruct (component s id) as [c|]; simpl in *; [|done].
  destruct (start c) as [st|]; simpl in *; [|done].
  case_decide; [done|].
  destruct (stack_push _ st []) as [stack|]; simpl in *; [|done].
  by eapply foreach_walk_mono.
Qed.

Lemma visit_all_collect (vis l : list adjEntry) :
  visit_all (λ back l, Some (l ++ [back])) vis l = Some (l ++ vis).
Proof.
  revert l. induction vis as [|a vis IH]; intros l; simpl.
  - by rewrite app_nil_r.
  - rewrite IH. by rewrite <-app_assoc.
Qed.

Lemma embeds_entries_nodes G og p B a :
  embeds G og p B → a ∈ br_entries B →
  is_Some (edges G !! theEdge a) ∧ ∃ v, twinNode G a = Some v ∧ v ∈ br_nodes B.
Proof.
  revert p. induction B as [a' v subs IH] using branch_induction.
  intros p Hemb. pose proof Hemb as (r & vO & Hr & Hp & Hv & HvO & Hsubs & Hall)%embeds_inv.
  rewrite br_entries_eq, br_nodes_eq. intros [->|Hin]%elem_of_cons.
  - split; [eauto|]. exists v. split; [|left].
    by destruct (embeds_theNode _ _ _ _ _ Hemb) as [_ ?].
  - apply list_elem_of_bind in Hin as (b & Hin & Hb).
    rewrite Forall_forall in IH, Hall.
    destruct (IH b Hb v (Hall b Hb) Hin) as (Hlive & w & Hw & Hwin).
    split; [done|]. exists w. split; [done|]. right. apply list_elem_of_bind. eauto.
Qed.

(** The handles [foreachAdjEntry] visits, for a store that satisfies the
    invariant. *)
Lemma visited_spec s id c :
  store_ok s → component s id = Some c →
  ∃ B vis, component_ok s c B ∧ NoDup (br_edges B) ∧
    vis ≡ₚ twin <$> br_entries B ∧
    ∀ fuel A (f : adjEntry → A → option A) acc, length (br_edges B) ≤ fuel →
      foreachAdjEntry m_isTerminal fuel s id f acc = visit_all f vis acc.
Proof.
  intros [_ _ _ _ (Bs & HBs & HndE & _)] Hc.
  pose proof Hc as [Hid Hc']%component_lookup.
  destruct (Forall2_lookup_l _ _ _ _ _ HBs Hc') as (B & HB & HcB).
  assert (NoDup (br_edges B)) as Hnd.
  { apply (NoDup_bind_elem br_edges Bs); [done|]. by eapply list_elem_of_lookup_2. }
  destruct (foreachAdjEntry_spec m_isTerminal s id c B Hc HcB Hnd) as (vis & Hvis & Hwalk).
  exists B, vis. done.
Qed.

End WalkFacts.

(** ** The properties of the store *)

Section Properties.
Context (m_terminals : list nat) (m_isTerminal : nat → bool) {Y : Type} (extra0 : Y).
Notation embeds := (embeds m_isTerminal).
Notation component_ok := (component_ok m_isTerminal).
Notation store_ok := (store_ok m_terminals m_isTerminal).
Notation reachable := (reachable m_terminals m_isTerminal extra0).
Notation instance_ok := (instance_ok m_terminals m_isTerminal).
Implicit Types (s : Store Y) (B : branch).

Lemma size_length s : size s = Z.of_nat (length (m_components s)).
Proof. done. Qed.

Lemma component_Some s id :
  0 ≤ id < size s → is_Some (component s id).
Proof.
  intros Hid. unfold component. rewrite decide_True by lia.
  apply lookup_lt_is_Some. rewrite size_length in Hid. lia.
Qed.

Lemma component_at s (j : nat) : component s (Z.of_nat j) = m_components s !! j.
Proof. unfold component. rewrite decide_True by lia. by rewrite Nat2Z.id. Qed.

Lemma component_range s id c : component s id = Some c → 0 ≤ id < size s.
Proof.
  intros [Hid Hc]%component_lookup. apply lookup_lt_Some in Hc.
  rewrite size_length. lia.
Qed.

(** The branch of a record of a store that satisfies the invariant. *)
Lemma store_ok_component s id c :
  store_ok s → component s id = Some c →
  ∃ B, component_ok s c B ∧ NoDup (br_edges B) ∧ NoDup (br_inner B).
Proof.
  intros [_ _ _ _ (Bs & HBs & HndE & HndI)] [_ Hc]%component_lookup.
  destruct (Forall2_lookup_l _ _ _ _ _ HBs Hc) as (B & HB & HcB).
  assert (B ∈ Bs) as Hin by by eapply list_elem_of_lookup_2.
  exists B. split; [done|]. split; by eapply NoDup_bind_elem.
Qed.

Lemma reachable_nodeCopy s :
  instance_ok → reachable s → m_nodeCopy s = m_nodeCopy (init (Y:=Y) m_terminals).
Proof.
  intros Hinst. induction 1 as [|s comp s' Hreach IH Hfc Hins|s fuel id s' _ IH Hrem].
  - done.
  - pose proof (reachable_ok _ _ extra0 Hinst s Hreach) as Hok.
    destruct (fixed_insert m_terminals m_isTerminal extra0 Hinst s comp Hok Hfc)
      as (s'' & c & Hins' & _ & _ & Hcopy & _).
    rewrite Hins in Hins'. injection Hins' as ->. by rewrite Hcopy.
  - unfold remove in Hrem.
    destruct (component s id); simpl in Hrem; [|done].
    destruct (remove_in_graph _ _ _ _); simpl in Hrem; [|done].
    destruct (remove_record _ _); simpl in Hrem; [|done].
    by injection Hrem as <-.
Qed.

(** C10: in a store reached from the constructor by inserting full
    components and removing components, the start handle of every record
    sits on a node of the shared graph whose original node is a terminal. *)
Theorem start_on_terminal s id c :
  instance_ok → reachable s → component s id = Some c →
  ∃ st v t, start c = Some st ∧ theNode (m_graph s) st = Some v ∧
            original s v = Some t ∧ m_isTerminal t = true ∧
            isTerminal m_isTerminal s v = Some true.
Proof.
  intros Hinst Hreach Hc.
  pose proof (reachable_ok _ _ extra0 Hinst s Hreach) as Hok.
  destruct (store_ok_component s id c Hok Hc) as (B & [Hst (p & t & Hemb & Hp & Ht) _ _ _] & _).
  destruct (embeds_theNode _ _ _ _ _ Hemb) as [Hnode _].
  exists (br_entry B), p, t. unfold isTerminal, original.
  rewrite Hp. simpl. by rewrite Ht.
Qed.

(** C1: for every store and every valid identifier, [remove(id)] makes the
    table one shorter and keeps the identifiers dense: every identifier below
    the new size has a record, the records at the other identifiers are the
    ones from before, and unless [id] was the last index the record that was
    last is now found at [id].  On a reachable store [remove] returns once it
    is given enough steps. *)
Theorem remove_reindexes s id :
  0 ≤ id < size s →
  (∀ fuel s', remove m_isTerminal fuel s id = Some s' →
     size s' = size s - 1 ∧
     (∀ j, 0 ≤ j < size s' → is_Some (component s' j)) ∧
     (∀ j, 0 ≤ j < size s' → j ≠ id → component s' j = component s j) ∧
     (id < size s' → component s' id = component s (size s - 1))) ∧
  (instance_ok → reachable s →
     ∃ n, ∀ fuel, (n ≤ fuel)%nat → is_Some (remove m_isTerminal fuel s id)).
Proof.
  intros Hid. split.
  - intros fuel s' Hrem. unfold remove in Hrem.
    destruct (component s id) as [c|]; simpl in Hrem; [|done].
    destruct (remove_in_graph m_isTerminal fuel s c) as [G'|]; simpl in Hrem; [|done].
    destruct (remove_record (m_components s) id) as [comps'|] eqn:Hrec;
      simpl in Hrem; [|done].
    injection Hrem as <-.
    destruct (remove_record_inv _ _ _ Hrec) as (Hlen & Hother & Hmoved).
    { by rewrite <-size_length. }
    rewrite !size_length in *. simpl. split; [lia|]. split; [|split].
    + intros j Hj. by apply (component_Some (mkStore G' _ _ comps')).
    + intros j Hj Hne. unfold component. simpl. case_decide; [|done].
      apply Hother; lia.
    + intros Hlt. unfold component. simpl. rewrite !decide_True by lia.
      rewrite Hmoved by lia. f_equal. lia.
  - intros Hinst Hreach. apply (remove_total m_terminals); [|by rewrite <-size_length].
    by apply (reachable_ok _ _ extra0).
Qed.

(** C7: in a reachable store, whose components are full components
    (terminals are leaves, Steiner nodes have degree at least three), the
    walk of [remove(id)] over a component with three or more terminals runs
    to its end on the bounded stack of capacity [2·|terminals| − 3]: no push
    finds the stack full. *)
Theorem remove_stack_bound s id c :
  instance_ok → reachable s → component s id = Some c →
  (3 ≤ length (terminals c))%nat →
  ∃ st v G1,
    start c = Some st ∧ twinNode (m_graph s) st = Some v ∧
    delEdge (m_graph s) (theEdge st) = Some G1 ∧
    ∃ n, ∀ fuel, (n ≤ fuel)%nat →
      remove_in_graph m_isTerminal fuel s c =
        remove_walk m_isTerminal fuel s
          (2 * Z.of_nat (length (terminals c)) - 3) G1 [v] ∧
      is_Some (remove_walk m_isTerminal fuel s
                 (2 * Z.of_nat (length (terminals c)) - 3) G1 [v]).
Proof.
  intros Hinst Hreach Hc Hlen.
  pose proof (reachable_ok _ _ extra0 Hinst s Hreach) as Hok.
  destruct (store_ok_component s id c Hok Hc) as (B & HcB & HndE & HndI).
  pose proof (sok_graph _ _ _ Hok) as HG.
  pose proof (remove_in_graph_spec m_isTerminal s c B HG HcB HndE HndI) as Hspec.
  destruct HcB as [Hst (p & t & Hemb & _) Hterm _ _].
  destruct B as [a v subs]. simpl in Hst.
  pose proof Hemb as (r & vO & Hr & _)%embeds_inv.
  destruct (embeds_theNode _ _ _ _ _ Hemb) as [_ Htw]. simpl in Htw.
  exists a, v, (prune (m_graph s) [theEdge a] []).
  split; [done|]. split; [done|]. split; [by apply delEdge_prune with r|].
  exists (length (br_nodes (Br a v subs))). intros fuel Hfuel.
  specialize (Hspec fuel Hfuel). unfold remove_in_graph in Hspec |- *.
  rewrite Hst in Hspec |- *. simpl in Hspec |- *.
  rewrite decide_False in Hspec |- * by lia.
  rewrite Htw in Hspec |- *. simpl in Hspec |- *.
  unfold stack_push in Hspec |- *. rewrite decide_True in Hspec |- * by (simpl; lia).
  simpl in Hspec |- *. rewrite (delEdge_prune _ _ _ HG Hr) in Hspec |- *.
  simpl in Hspec |- *. split; [done|]. rewrite Hspec. eauto.
Qed.

(** C2: for every record of a reachable store, [foreachAdjEntry(id, f)]
    calls [f] on a fixed list of handles, no edge occurs twice among them,
    and [cost(id)] is the sum of the weights of their edges. *)
Theorem cost_is_visited_weight s id c :
  instance_ok → reachable s → component s id = Some c →
  ∃ n vis,
    (∀ fuel, (n ≤ fuel)%nat →
       visited m_isTerminal fuel s id = Some vis ∧
       ∀ A (f : adjEntry → A → option A) acc,
         foreachAdjEntry m_isTerminal fuel s id f acc = visit_all f vis acc) ∧
    NoDup (theEdge <$> vis) ∧
    cost_of s id = Some (Zsum ((λ a, edge_weight (m_graph s) (theEdge a)) <$> vis)).
Proof.
  intros Hinst Hreach Hc.
  pose proof (reachable_ok _ _ extra0 Hinst s Hreach) as Hok.
  destruct (visited_spec m_terminals m_isTerminal s id c Hok Hc)
    as (B & vis & HcB & HndE & Hvis & Hwalk).
  assert (theEdge <$> vis ≡ₚ br_edges B) as Hedges.
  { rewrite Hvis, <-list_fmap_compose, <-br_entries_edges.
    assert (theEdge ∘ twin <$> br_entries B = theEdge <$> br_entries B) as ->; [|done].
    apply list_fmap_ext. by intros _ [e b] _. }
  exists (length (br_edges B)), vis. split; [|split].
  - intros fuel Hfuel. split; [|intros; by apply Hwalk].
    unfold visited. rewrite Hwalk by done. by rewrite visit_all_collect.
  - by rewrite Hedges.
  - unfold cost_of, assert_id. pose proof (component_range s id c Hc) as Hid.
    rewrite decide_True by done. simpl. rewrite Hc. simpl. f_equal.
    rewrite (cok_cost _ _ _ _ HcB).
    change (λ a, edge_weight (m_graph s) (theEdge a))
      with (edge_weight (m_graph s) ∘ theEdge).
    rewrite list_fmap_compose. apply Zsum_perm. by rewrite Hedges.
Qed.

(** C8: in a reachable store the table from terminals to nodes of the shared
    graph is the one the constructor made; every terminal has its node, whose
    original is that terminal; and whenever the skeletons of two records both
    have a node whose original is the terminal [t], it is the same node, the
    one the constructor made for [t]. *)
Theorem terminal_sharing s :
  instance_ok → reachable s →
  m_nodeCopy s = m_nodeCopy (init (Y:=Y) m_terminals) ∧
  (∀ t, t ∈ m_terminals →
     ∃ v, m_nodeCopy s !! t = Some v ∧ original s v = Some t) ∧
  (∀ t fuel1 id1 v1 fuel2 id2 v2, m_isTerminal t = true →
     skeleton_node m_isTerminal fuel1 s id1 v1 → original s v1 = Some t →
     skeleton_node m_isTerminal fuel2 s id2 v2 → original s v2 = Some t →
     v1 = v2 ∧ m_nodeCopy (init (Y:=Y) m_terminals) !! t = Some v1).
Proof.
  intros Hinst Hreach.
  pose proof (reachable_ok _ _ extra0 Hinst s Hreach) as Hok.
  pose proof (reachable_nodeCopy s Hinst Hreach) as Hcopy.
  split; [done|]. split.
  - intros t Ht. apply (sok_copy_dom _ _ _ Hok) in Ht as [v Hv].
    exists v. split; [done|]. by apply (sok_copy_orig _ _ _ Hok).
  - assert (∀ t fuel id v, m_isTerminal t = true →
              skeleton_node m_isTerminal fuel s id v → original s v = Some t →
              m_nodeCopy s !! t = Some v) as Hone.
    { intros t fuel id v Ht Hsk Hv.
      assert (∃ c, component s id = Some c) as [c Hc].
      { destruct Hsk as [(st & Hst & _)|(vis & back & Hvis & _)].
        - unfold start_of in Hst. destruct (assert_id s id); simpl in Hst; [|done].
          destruct (component s id); eauto. done.
        - unfold visited, foreachAdjEntry in Hvis.
          destruct (component s id); eauto. done. }
      destruct (visited_spec m_terminals m_isTerminal s id c Hok Hc)
        as (B & vis & HcB & HndE & Hvis & Hwalk).
      apply (cok_shared _ _ _ _ HcB v t); [|done..].
      destruct Hsk as [(st & Hst & Hnode)|(vis' & back & Hvis' & Hback & Hnode)].
      - left. unfold start_of in Hst. destruct (assert_id s id); simpl in Hst; [|done].
        rewrite Hc in Hst. simpl in Hst. rewrite (cok_start _ _ _ _ HcB) in Hst.
        by injection Hst as <-.
      - right.
        apply (foreachAdjEntry_mono _ _ _ _ _ (fuel `max` length (br_edges B))%nat) in Hvis';
          [|lia].
        unfold visited in Hvis'. rewrite Hwalk in Hvis' by lia.
        rewrite visit_all_collect in Hvis'. injection Hvis' as <-. simpl in Hback.
        rewrite Hvis in Hback. apply list_elem_of_fmap in Hback as (a & -> & Ha).
        destruct (cok_root _ _ _ _ HcB) as (p & t' & Hemb & _).
        destruct (embeds_entries_nodes _ _ _ _ _ _ Hemb Ha) as (_ & w & Hw & Hin).
        unfold twinNode in Hw. rewrite Hnode in Hw. by injection Hw as ->. }
    intros t fuel1 id1 v1 fuel2 id2 v2 Ht Hs1 Hv1 Hs2 Hv2.
    pose proof (Hone t fuel1 id1 v1 Ht Hs1 Hv1) as H1.
    pose proof (Hone t fuel2 id2 v2 Ht Hs2 Hv2) as H2.
    rewrite <-Hcopy. split; [congruence|done].
Qed.

End Properties.

(** ** Queries and [insert] *)

(** What a call hands back to its caller. *)
Inductive returned : Type := Void | Int (z : Z).

(** [void insert(const EdgeWeightedGraphCopy<T> &comp)]: a call that comes
    back hands nothing to its caller. *)
Definition insert_returned {Y} (m_isTerminal : nat → bool) (extra0 : Y)
    (s : Store Y) (comp : EdgeWeightedGraphCopy) : option returned :=
  _ ← insert m_isTerminal extra0 s comp; Some Void.

(** The reading of the specification: the handle on the first edge, in the
    order of the tree's edges, that has a terminal end. *)
Fixpoint start_first_found (isT : nat → bool) (e0 : nat) (es : list CopyEdge)
  : option adjEntry :=
  match es with
  | [] => None
  | e :: es' =>
      if isT (ce_source e) then Some (adjSource e0)
      else if isT (ce_target e) then Some (adjTarget e0)
      else start_first_found isT (S e0) es'
  end.

Lemma linearSearch_from_spec (x : nat) (l : list nat) :
  ∀ i, 0 ≤ i →
  (x ∈ l → i ≤ linearSearch_from i x l) ∧ (x ∉ l → linearSearch_from i x l = -1).
Proof.
  induction l as [|y l IH]; intros i Hi; simpl.
  - split; [by intros ?%elem_of_nil|done].
  - destruct (decide (y = x)) as [->|Hne].
    + split; [lia|]. intros []. left.
    + destruct (IH (i + 1)) as [IH1 IH2]; [lia|]. split.
      * intros [?|Hin]%elem_of_cons; [congruence|]. specialize (IH1 Hin). lia.
      * intros Hnin. apply IH2. intros ?. apply Hnin. by right.
Qed.

Lemma linearSearch_elem (x : nat) (l : list nat) : linearSearch x l ≠ -1 ↔ x ∈ l.
Proof.
  unfold linearSearch. destruct (linearSearch_from_spec x l 0) as [H1 H2]; [done|].
  split.
  - intros Hne. destruct (decide (x ∈ l)); [done|]. by destruct Hne; apply H2.
  - intros Hin. specialize (H1 Hin). lia.
Qed.

Lemma filter_fmap_comm {A B} (f : A → B) (P : B → Prop) (Q : A → Prop)
    `{∀ x, Decision (P x)} `{∀ x, Decision (Q x)} (l : list A) :
  (∀ x, P (f x) ↔ Q x) → f <$> filter Q l = filter P (f <$> l).
Proof.
  intros HPQ. induction l as [|x l IH]; [done|].
  rewrite fmap_cons, !filter_cons. destruct (decide (Q x)) as [Hq|Hq].
  - rewrite decide_True by by apply HPQ. by rewrite fmap_cons, IH.
  - rewrite decide_False; [done|]. by rewrite HPQ.
Qed.

Lemma visit_all_total {A} (f : adjEntry → A → option A) (vis : list adjEntry) (acc : A) :
  (∀ a x, is_Some (f a x)) → is_Some (visit_all f vis acc).
Proof.
  intros Hf. revert acc. induction vis as [|a vis IH]; intros acc; simpl; [eauto|].
  destruct (Hf a acc) as [acc' ->]. simpl. apply IH.
Qed.

Section InsertFacts.
Context (m_isTerminal : nat → bool) {Y : Type} (extra0 : Y).
Implicit Types (s : Store Y) (comp : EdgeWeightedGraphCopy).

Lemma insert_nodes_edgeIdCount comp (l : list nat) :
  ∀ st, edgeIdCount (in_graph (foldl (insert_node comp) st l)) = edgeIdCount (in_graph st).
Proof.
  induction l as [|v l IH]; intros st; simpl; [done|]. rewrite IH.
  unfold insert_node. by destruct (in_nodeCopy st !! c_original comp v).
Qed.

(** The second loop of [insert] without any assumption on the graph: the
    start handle it leaves, and the record of each edge it makes. *)
Lemma insert_edges_start comp cp (es : list CopyEdge) :
  ∀ st r, insert_edges m_isTerminal comp cp st es = Some r →
  ie_start r = start_after (λ v, m_isTerminal (c_original comp v))
                 (edgeIdCount (ie_graph st)) es (ie_start st) ∧
  ie_cost r = ie_cost st + Zsum (ce_weight <$> es) ∧
  edgeIdCount (ie_graph r) = (edgeIdCount (ie_graph st) + length es)%nat ∧
  (∀ j, (j < edgeIdCount (ie_graph st))%nat →
        edges (ie_graph r) !! j = edges (ie_graph st) !! j) ∧
  (∀ i e, es !! i = Some e →
     ∃ x y, edges (ie_graph r) !! (edgeIdCount (ie_graph st) + i)%nat
            = Some (EdgeE x y (ce_weight e))).
Proof.
  induction es as [|e es IH]; intros st r Hr; simpl in Hr.
  - injection Hr as <-. simpl. split; [done|]. split; [unfold Zsum; simpl; lia|].
    split; [lia|]. split; [done|]. by intros i e ?.
  - unfold insert_edge in Hr.
    destruct (cp !! c_original comp (ce_source e)) as [uC|]; simpl in Hr; [|done].
    destruct (cp !! c_original comp (ce_target e)) as [vC|]; simpl in Hr; [|done].
    unfold newEdge in Hr.
    destruct (adjEntries (ie_graph st) !! uC); simpl in Hr; [|done].
    destruct (adjEntries (ie_graph st) !! vC); simpl in Hr; [|done].
    apply IH in Hr as (Hst & Hcost & Hcnt & Hold & Hnew).
    cbn [ie_graph ie_start ie_cost edgeIdCount edges] in *.
    split; [done|]. split; [rewrite Hcost, fmap_cons; unfold Zsum; cbn [foldr]; lia|].
    split; [simpl; lia|]. split.
    + intros j Hj. rewrite Hold by lia. rewrite lookup_insert_ne; [done|lia].
    + intros [|i] e' He'; simpl in He'.
      * injection He' as <-. exists uC, vC. rewrite Nat.add_0_r, Hold by lia.
        by rewrite lookup_insert_eq.
      * destruct (Hnew i e' He') as (x & y & Hxy). exists x, y.
        by rewrite <-Hxy, Nat.add_succ_r.
Qed.

Lemma insert_inv s comp s' :
  insert m_isTerminal extra0 s comp = Some s' →
  ∃ c, m_components s' = m_components s ++ [c] ∧
    start c = start_after (λ v, m_isTerminal (c_original comp v))
                (edgeIdCount (m_graph s)) (c_edges comp) None ∧
    cost c = Zsum (ce_weight <$> c_edges comp) ∧
    ∀ i e, c_edges comp !! i = Some e →
      ∃ x y, edges (m_graph s') !! (edgeIdCount (m_graph s) + i)%nat
             = Some (EdgeE x y (ce_weight e)).
Proof.
  unfold insert. case_decide; [done|].
  destruct (insert_edges _ _ _ _ _) as [r|] eqn:Hr; simpl; [|done].
  intros [= <-]. cbn [m_components m_graph].
  apply insert_edges_start in Hr as (Hst & Hcost & _ & _ & Hnew).
  cbn [ie_graph ie_start ie_cost] in *. rewrite insert_nodes_edgeIdCount in *.
  cbn [in_graph] in *. eexists. split; [done|]. cbn [start cost].
  split; [done|]. split; [by rewrite Hcost|done].
Qed.

(** [insert] comes back on every tree when the nodes of the terminals are
    live: the first loop gives every node of the tree a live node of the
    shared graph, and the second loop finds both ends of every edge. *)
Lemma insert_nodes_live comp (l : list nat) :
  ∀ st,
  (∀ k c, in_nodeCopy st !! k = Some c → is_Some (adjEntries (in_graph st) !! c)) →
  let st' := foldl (insert_node comp) st l in
  (∀ k c, in_nodeCopy st' !! k = Some c → is_Some (adjEntries (in_graph st') !! c)) ∧
  (∀ k, is_Some (in_nodeCopy st !! k) → is_Some (in_nodeCopy st' !! k)) ∧
  (∀ v, v ∈ l → is_Some (in_nodeCopy st' !! c_original comp v)).
Proof.
  induction l as [|v l IH]; intros st Hlive; cbn [foldl].
  - split; [done|]. split; [done|]. by intros v ?%elem_of_nil.
  - destruct (IH (insert_node comp st v)) as (Hlive' & Hmono & Hall).
    { unfold insert_node. destruct (in_nodeCopy st !! c_original comp v) eqn:Hv; [done|].
      simpl. intros k c.
      rewrite lookup_insert. case_decide.
      - intros [= <-]. by rewrite lookup_insert_eq.
      - intros Hk. rewrite lookup_insert. case_decide; [done|]. by eapply Hlive. }
    assert (is_Some (in_nodeCopy (insert_node comp st v) !! c_original comp v)) as Hv.
    { unfold insert_node. destruct (in_nodeCopy st !! c_original comp v) eqn:Hv.
      - simpl. rewrite Hv. done.
      - simpl. by rewrite lookup_insert_eq. }
    split; [done|]. split.
    + intros k Hk. apply Hmono. unfold insert_node.
      destruct (in_nodeCopy st !! c_original comp v) eqn:Hv'; [done|].
      simpl. rewrite lookup_insert. by case_decide.
    + intros u [->|Hu]%elem_of_cons; [by apply Hmono|by apply Hall].
Qed.

Lemma insert_edges_total comp cp (es : list CopyEdge) :
  ∀ st,
  (∀ k c, cp !! k = Some c → is_Some (adjEntries (ie_graph st) !! c)) →
  (∀ e, e ∈ es → is_Some (cp !! c_original comp (ce_source e)) ∧
                 is_Some (cp !! c_original comp (ce_target e))) →
  is_Some (insert_edges m_isTerminal comp cp st es).
Proof.
  induction es as [|e es IH]; intros st Hlive Hes; cbn [insert_edges]; [done|].
  destruct (Hes e) as [[uC HuC] [vC HvC]]; [left|].
  unfold insert_edge. rewrite HuC, HvC. cbn [mbind option_bind].
  destruct (Hlive _ _ HuC) as [lu Hlu]. destruct (Hlive _ _ HvC) as [lv Hlv].
  unfold newEdge. rewrite Hlu, Hlv. cbn [mbind option_bind]. apply IH.
  - cbn [ie_graph adjEntries]. intros k c Hk.
    apply lookup_alter_is_Some, lookup_alter_is_Some. by eapply Hlive.
  - intros e' He'. apply Hes. by right.
Qed.

Lemma insert_total s comp :
  (∀ k c, m_nodeCopy s !! k = Some c → is_Some (adjEntries (m_graph s) !! c)) →
  isTree (c_nodes comp) (copy_pairs comp) →
  is_Some (insert m_isTerminal extra0 s comp).
Proof.
  intros Hlive Htree. unfold insert.
  rewrite decide_False by by eapply isTree_nonempty.
  set (st := foldl (insert_node comp)
               (mkInsertNodes (m_graph s) (m_nodeCopy s) (m_nodeOrig s) [] [])
               (c_nodes comp)).
  destruct (insert_nodes_live comp (c_nodes comp)
              (mkInsertNodes (m_graph s) (m_nodeCopy s) (m_nodeOrig s) [] []) Hlive)
    as (Hlive' & _ & Hall). fold st in Hlive', Hall.
  destruct (insert_edges_total comp (in_nodeCopy st) (c_edges comp)
              (mkInsertEdges (in_graph st) 0 None) Hlive') as [r ->]; [|done].
  intros e He.
  destruct (isTree_ends _ _ (ce_source e) (ce_target e) Htree) as [Hs Ht].
  { unfold copy_pairs. apply list_elem_of_fmap. by exists e. }
  split; by apply Hall.
Qed.

Lemma start_after_last (isT : nat → bool) (es1 es2 : list CopyEdge) e :
  (isT (ce_source e) = true ∨ isT (ce_target e) = true) →
  (∀ e', e' ∈ es2 → isT (ce_source e') = false ∧ isT (ce_target e') = false) →
  ∀ e0 cur, start_after isT e0 (es1 ++ e :: es2) cur
            = Some (AdjE (e0 + length es1) (negb (isT (ce_source e)))).
Proof.
  intros He Hes2.
  assert (∀ e0 cur, start_after isT e0 es2 cur = cur) as Htail.
  { clear He. induction es2 as [|e' es2 IH]; intros e0 cur; simpl; [done|].
    destruct (Hes2 e') as [-> ->]; [left|]. apply IH. intros ? ?. apply Hes2. by right. }
  induction es1 as [|e1 es1 IH]; intros e0 cur; simpl.
  - rewrite Htail, Nat.add_0_r. unfold adjSource, adjTarget.
    destruct (isT (ce_source e)); [done|]. by destruct He as [?| ->].
  - rewrite IH. do 2 f_equal. lia.
Qed.

End InsertFacts.

Section InsertProperties.
Context (m_terminals : list nat) (m_isTerminal : nat → bool) {Y : Type} (extra0 : Y).
Notation store_ok := (store_ok m_terminals m_isTerminal).
Notation reachable := (reachable m_terminals m_isTerminal extra0).
Notation instance_ok := (instance_ok m_terminals m_isTerminal).
Notation full_component := (full_component m_isTerminal).
Implicit Types (s : Store Y) (comp : EdgeWeightedGraphCopy).

(** C6: the queries [terminals(id)], [isTerminal(id, t)], [cost(id)] and
    [start(id)] and the traversals [foreachAdjEntry], [foreachNode] (both
    forms) and [foreachEdge] fail for every identifier below zero or not
    below [size()].  For an identifier in range the four queries return what the
    record at that identifier holds, and on a reachable store
    [foreachAdjEntry] with a callback that does not fail comes back. *)
Theorem queries_bounds_checked s id :
  (¬ (0 ≤ id < size s) →
     terminals_of s id = None ∧ (∀ t, isTerminal_in s id t = None) ∧
     cost_of s id = None ∧ start_of s id = None ∧
     (∀ fuel A (f : adjEntry → A → option A) acc,
        foreachAdjEntry m_isTerminal fuel s id f acc = None) ∧
     (∀ fuel A (f : nat → A → option A) acc,
        foreachNode m_isTerminal fuel s id f acc = None) ∧
     (∀ fuel A pred (f : EdgeElement → A → option A) acc,
        foreachEdge m_isTerminal fuel s id pred f acc = None) ∧
     (∀ fuel A pred (f : nat → A → option A) acc,
        foreachNode_pred m_isTerminal fuel s id pred f acc = None)) ∧
  (0 ≤ id < size s →
     ∃ c, component s id = Some c ∧
       terminals_of s id = Some (terminals c) ∧
       (∀ t, isTerminal_in s id t = Some (bool_decide (t ∈ terminals c))) ∧
       cost_of s id = Some (cost c) ∧ start_of s id = Some (start c) ∧
       (instance_ok → reachable s →
          ∃ n, ∀ fuel A (f : adjEntry → A → option A) acc,
            (n ≤ fuel)%nat → (∀ a x, is_Some (f a x)) →
            is_Some (foreachAdjEntry m_isTerminal fuel s id f acc))).
Proof.
  split.
  - intros Hout.
    assert (component s id = None) as Hnone.
    { destruct (component s id) as [c|] eqn:Hc; [|done].
      by apply component_range in Hc. }
    unfold terminals_of, isTerminal_in, cost_of, start_of, assert_id.
    rewrite decide_False by done. simpl. repeat split; try done.
    + intros. unfold foreachAdjEntry. by rewrite Hnone.
    + intros. unfold foreachNode, start_of, assert_id. by rewrite decide_False.
    + intros. unfold foreachEdge, foreachAdjEntry. by rewrite Hnone.
    + intros. unfold foreachNode_pred. by rewrite Hnone.
  - intros Hin. destruct (component_Some s id Hin) as [c Hc]. exists c.
    unfold terminals_of, isTerminal_in, cost_of, start_of, assert_id.
    rewrite decide_True by done. simpl. rewrite Hc. simpl.
    repeat split; try done.
    + intros t. f_equal. apply bool_decide_ext, linearSearch_elem.
    + intros Hinst Hreach.
      pose proof (reachable_ok _ _ extra0 Hinst s Hreach) as Hok.
      destruct (visited_spec m_terminals m_isTerminal s id c Hok Hc)
        as (B & vis & _ & _ & _ & Hwalk).
      exists (length (br_edges B)). intros fuel A f acc Hfuel Hf.
      rewrite Hwalk by done. by apply visit_all_total.
Qed.

(** C4, as amended: [insert] hands nothing back.  For a tree and a store
    built by the constructor, [insert] and [remove] it comes back, the
    table is one longer, the records that were there keep their
    identifiers, and the new record, which has the cost of the tree, has the
    identifier that was the size before the call. *)
Theorem insert_appends s comp :
  instance_ok → reachable s → isTree (c_nodes comp) (copy_pairs comp) →
  ∃ s' c, insert m_isTerminal extra0 s comp = Some s' ∧
    insert_returned m_isTerminal extra0 s comp = Some Void ∧
    size s' = size s + 1 ∧
    component s' (size s) = Some c ∧
    cost c = Zsum (ce_weight <$> c_edges comp) ∧
    ∀ j, j < size s → component s' j = component s j.
Proof.
  intros Hinst Hreach Htree.
  pose proof (reachable_ok _ _ extra0 Hinst s Hreach) as Hok.
  destruct (insert_total m_isTerminal extra0 s comp) as [s' Hins]; [|done|].
  { intros k c Hk. by apply (sok_copy_orig _ _ _ Hok) in Hk as [_ ?]. }
  destruct (insert_inv m_isTerminal extra0 s comp s' Hins) as (c & Hcomps & _ & Hcost & _).
  exists s', c. unfold insert_returned. rewrite Hins. simpl.
  split; [done|]. split; [done|]. rewrite !size_length, Hcomps, length_app. simpl.
  split; [lia|]. split; [|split; [done|]].
  - rewrite component_at, Hcomps. by rewrite lookup_app_r, Nat.sub_diag.
  - intros j Hj. unfold component. case_decide; [|done].
    rewrite Hcomps. apply lookup_app_l. lia.
Qed.

(** C5, as amended: after an [insert] that comes back, the start handle of
    the new record lies on the copy of the last edge, in the order of the
    tree's edges, that has a terminal end: on its source end when the source
    is a terminal, on its target end otherwise. *)
Theorem start_on_last_terminal_edge s comp s' (es1 es2 : list CopyEdge) e :
  insert m_isTerminal extra0 s comp = Some s' →
  c_edges comp = es1 ++ e :: es2 →
  (m_isTerminal (c_original comp (ce_source e)) = true ∨
   m_isTerminal (c_original comp (ce_target e)) = true) →
  (∀ e', e' ∈ es2 → m_isTerminal (c_original comp (ce_source e')) = false ∧
                     m_isTerminal (c_original comp (ce_target e')) = false) →
  let eC := (edgeIdCount (m_graph s) + length es1)%nat in
  start_of s' (size s)
    = Some (Some (if m_isTerminal (c_original comp (ce_source e))
                  then adjSource eC else adjTarget eC)) ∧
  ∃ x y, edges (m_graph s') !! eC = Some (EdgeE x y (ce_weight e)).
Proof.
  intros Hins Hes He Hes2 eC.
  destruct (insert_inv m_isTerminal extra0 s comp s' Hins) as (c & Hcomps & Hst & _ & Hnew).
  split.
  - unfold start_of, assert_id. rewrite !size_length, Hcomps, length_app. simpl.
    rewrite decide_True by lia. simpl.
    rewrite component_at, Hcomps, lookup_app_r, Nat.sub_diag by done. simpl.
    rewrite Hst, Hes.
    rewrite (start_after_last (λ v, m_isTerminal (c_original comp v)) es1 es2 e He Hes2).
    by destruct (m_isTerminal (c_original comp (ce_source e))).
  - apply Hnew. rewrite Hes. by rewrite lookup_app_r, Nat.sub_diag.
Qed.

(** C9: inserting the tree of one edge of weight [w] between the terminals
    [a] and [b] gives a record with cost [w] and the terminals [a] and [b]
    in the order of their index, and [foreachAdjEntry] on it calls [f]
    once, on the twin of the stored start handle. *)
Theorem single_edge_component s comp (x y : nat) (w : Z) :
  instance_ok → reachable s →
  c_nodes comp ≡ₚ [x; y] → c_edges comp = [CopyE x y w] →
  c_original comp x ≠ c_original comp y →
  m_isTerminal (c_original comp x) = true →
  m_isTerminal (c_original comp y) = true →
  ∃ s' st, insert m_isTerminal extra0 s comp = Some s' ∧
    size s' = size s + 1 ∧
    cost_of s' (size s) = Some w ∧
    terminals_of s' (size s)
      = Some [c_original comp x `min` c_original comp y;
              c_original comp x `max` c_original comp y]%nat ∧
    start_of s' (size s) = Some (Some st) ∧
    ∀ fuel A (f : adjEntry → A → option A) acc,
      foreachAdjEntry m_isTerminal fuel s' (size s) f acc = f (twin st) acc.
Proof.
  intros Hinst Hreach Hnodes Hedges Hab Ha Hb.
  pose proof (reachable_ok _ _ extra0 Hinst s Hreach) as Hok.
  assert (x ≠ y) as Hxy by congruence.
  assert (∀ v, v ∈ c_nodes comp → v = x ∨ v = y) as Hcases.
  { intros v. rewrite Hnodes. set_solver. }
  assert (full_component comp) as Hfc.
  { split.
    - apply isTree_perm with [x; y] [(x, y)]; [done| |].
      + unfold copy_pairs. by rewrite Hedges.
      + apply isTree_leaf_rev; [apply isTree_single|set_solver|set_solver].
    - intros u v [-> | ->]%Hcases [-> | ->]%Hcases; congruence.
    - intros v Hv _. unfold degree. rewrite Hedges, !filter_cons, !filter_nil. simpl.
      destruct (Hcases v Hv) as [-> | ->].
      + rewrite decide_True, decide_False by done. done.
      + rewrite decide_False, decide_True by done. done.
    - intros v [-> | ->]%Hcases; congruence. }
  destruct (fixed_insert m_terminals m_isTerminal extra0 Hinst s comp Hok Hfc)
    as (s' & c & Hins & _ & Hcomps & _ & Hcost & Hterm & Hst & _).
  assert (component s' (size s) = Some c) as Hc.
  { rewrite size_length, component_at, Hcomps. by rewrite lookup_app_r, Nat.sub_diag. }
  assert (terminals c = [c_original comp x `min` c_original comp y;
                         c_original comp x `max` c_original comp y]%nat) as Hterm'.
  { rewrite Hterm. rewrite filter_all.
    2:{ intros v [-> | ->]%Hcases; apply (sok_copy_dom _ _ _ Hok); by apply Hinst. }
    symmetry in Hnodes. apply Permutation_length_2_inv in Hnodes.
    destruct Hnodes as [-> | ->]; simpl; case_decide; f_equal; try f_equal; lia. }
  rewrite Hedges in Hst, Hcost. simpl in Hst, Hcost. rewrite Ha in Hst.
  exists s', (adjSource (edgeIdCount (m_graph s))).
  split; [done|]. split.
  { rewrite !size_length, Hcomps, length_app. simpl. lia. }
  unfold cost_of, terminals_of, start_of, assert_id.
  rewrite decide_True.
  2:{ rewrite !size_length, Hcomps, length_app. simpl. lia. }
  simpl. rewrite Hc. simpl. rewrite Hcost, Hterm', Hst.
  split; [f_equal; unfold Zsum; simpl; lia|]. split; [done|]. split; [done|].
  intros fuel A f acc. unfold foreachAdjEntry. rewrite Hc. simpl. rewrite Hst. simpl.
  rewrite Hterm'. by rewrite decide_True.
Qed.

End InsertProperties.

(** ** The loss extension *)

(** Two graphs with the same nodes, edges and adjacency lists; the index
    counters may differ. *)
Definition same_graph (G G' : EdgeWeightedGraph) : Prop :=
  adjEntries G' = adjEntries G ∧ edges G' = edges G.

Lemma filter_none {A} (P : A → Prop) `{∀ x, Decision (P x)} (l : list A) :
  (∀ x, x ∈ l → ¬ P x) → filter P l = [].
Proof.
  induction l as [|x l IH]; intros HP; [done|].
  rewrite filter_cons, decide_False by (apply HP; left).
  apply IH. intros y Hy. apply HP. by right.
Qed.

Lemma delEdges_all G (es : list nat) :
  graph_ok G → NoDup es → (∀ e, e ∈ es → is_Some (edges G !! e)) →
  foldl (λ g e, g0 ← g; delEdge g0 e) (Some G) es = Some (prune G es []).
Proof.
  intros HG Hnd Hlive.
  assert (∀ D, graph_ok (prune G D []) → (∀ e, e ∈ es → e ∉ D) →
            foldl (λ g e, g0 ← g; delEdge g0 e) (Some (prune G D [])) es
            = Some (prune G (D ++ es) [])) as Hgen.
  { induction es as [|e es IH]; intros D HD Hfresh; simpl.
    - by rewrite app_nil_r.
    - apply NoDup_cons in Hnd as [Hne Hnd].
      destruct (Hlive e) as [r Hr]; [left|].
      rewrite (delEdge_prune _ e r HD).
      2:{ rewrite lookup_prune_edges. rewrite decide_False; [done|]. apply Hfresh. left. }
      rewrite prune_prune. simpl. rewrite IH.
      + by rewrite <-app_assoc.
      + done.
      + intros e' He'. apply Hlive. by right.
      + by apply graph_ok_prune.
      + intros e' He' [Hin| ->%list_elem_of_singleton]%elem_of_app; [|done].
        revert Hin. apply Hfresh. by right. }
  rewrite <-(prune_nil G) at 1. rewrite Hgen; [done|by rewrite prune_nil|].
  intros e _. apply not_elem_of_nil.
Qed.

Section ZeroEdges.
Context (G : EdgeWeightedGraph) (cp : gmap nat nat) (sC : nat).
Hypothesis HG : graph_ok G.
Hypothesis HsC : is_Some (adjEntries G !! sC).

(** What holds while the zero-cost edges are added. *)
Record zero_inv (done : list nat) (st : EdgeWeightedGraph * gmap nat nat * list nat)
  : Prop := mkZeroInv {
  zi_ok : graph_ok st.1.1;
  zi_nodup : NoDup st.2;
  zi_live : ∀ e, e ∈ st.2 → is_Some (edges st.1.1 !! e);
  zi_same : same_graph G (prune st.1.1 st.2 []);
  zi_nodes : ∀ x, is_Some (adjEntries st.1.1 !! x) ↔ is_Some (adjEntries G !! x);
  zi_loss : ∀ v vC, v ∈ done → cp !! v = Some vC → is_Some (st.1.2 !! vC)
}.

Lemma zero_inv_step done st v :
  zero_inv done st → (∃ vC, cp !! v = Some vC ∧ is_Some (adjEntries G !! vC)) →
  ∃ st', add_zero_edge cp sC (Some st) v = Some st' ∧ zero_inv (done ++ [v]) st'.
Proof.
  destruct st as [[G1 lt] zs]. intros [Hok Hnd Hlive [Hadj Hedges] Hnodes Hloss].
  cbn [fst snd] in *. intros (vC & HvC & Hnode).
  destruct (newEdge_spec G1 sC vC 0) as (G' & Hnew & Hadj' & Hedges' & Hn & He);
    [by apply Hnodes..|].
  unfold add_zero_edge. cbn [mbind option_bind]. rewrite HvC. cbn [mbind option_bind].
  rewrite Hnew. cbn [mbind option_bind]. eexists. split; [done|].
  pose proof (graph_ok_newEdge _ _ _ _ _ _ Hok Hnew) as Hok'.
  assert (edgeIdCount G1 ∉ zs) as Hfresh.
  { intros Hin. apply Hlive, (gok_edge _ Hok) in Hin. lia. }
  split; cbn [fst snd].
  - done.
  - apply NoDup_app. split; [done|]. split; [|apply NoDup_singleton].
    by intros e He' ->%list_elem_of_singleton.
  - intros e [Hin| ->%list_elem_of_singleton]%elem_of_app; rewrite Hedges'.
    + rewrite lookup_insert. case_decide; [done|by apply Hlive].
    + by rewrite lookup_insert_eq.
  - split; apply map_eq.
    + intros x. rewrite <-Hadj, !lookup_prune_adj. rewrite !decide_False by set_solver.
      rewrite Hadj'. destruct (adjEntries G1 !! x) as [l|] eqn:Hl; simpl; [|done].
      f_equal. unfold drop_edges. rewrite filter_app.
      assert (filter (λ a, theEdge a ∉ zs ++ [edgeIdCount G1])
                (incident_one x (edgeIdCount G1, EdgeE sC vC 0)) = []) as ->.
      { apply filter_none. intros a Ha Hnot. apply Hnot.
        apply elem_of_app. right. apply list_elem_of_singleton.
        unfold incident_one in Ha. simpl in Ha.
        apply elem_of_app in Ha as [Ha|Ha]; case_decide;
          try (by apply elem_of_nil in Ha);
          by apply list_elem_of_singleton in Ha as ->. }
      rewrite app_nil_r. apply filter_ext_in. intros a Ha. cbn beta.
      rewrite elem_of_app, list_elem_of_singleton.
      assert (theEdge a ≠ edgeIdCount G1); [|tauto].
      pose proof (gok_handle _ Hok _ _ _ Hl Ha) as (r & Hr & _)%theNode_Some.
      assert (is_Some (edges G1 !! theEdge a)) as Hs%(gok_edge _ Hok) by eauto. lia.
    + intros e. rewrite <-Hedges, !lookup_prune_edges, Hedges'.
      destruct (decide (e = edgeIdCount G1)) as [->|Hne].
      * rewrite decide_True by set_solver. rewrite decide_False by done.
        destruct (edges G1 !! edgeIdCount G1) eqn:Hl; [|done].
        assert (is_Some (edges G1 !! edgeIdCount G1)) as Hs%(gok_edge _ Hok) by eauto. lia.
      * rewrite lookup_insert_ne by done.
        destruct (decide (e ∈ zs)); [by rewrite decide_True by set_solver|].
        by rewrite decide_False by set_solver.
  - intros x. rewrite Hadj', <-Hnodes. by rewrite fmap_is_Some.
  - intros v' vC' [Hin| ->%list_elem_of_singleton]%elem_of_app Hv'.
    + rewrite lookup_insert. case_decide; [done|]. by eapply Hloss.
    + rewrite HvC in Hv'. injection Hv' as <-. by rewrite lookup_insert_eq.
Qed.

Lemma zero_inv_fold (vs : list nat) :
  (∀ v, v ∈ vs → ∃ vC, cp !! v = Some vC ∧ is_Some (adjEntries G !! vC)) →
  ∀ done st, zero_inv done st →
  ∃ st', foldl (add_zero_edge cp sC) (Some st) vs = Some st' ∧ zero_inv (done ++ vs) st'.
Proof.
  induction vs as [|v vs IH]; intros Hvs done st Hinv; cbn [foldl].
  - exists st. by rewrite app_nil_r.
  - destruct (zero_inv_step done st v Hinv) as (st' & Hst' & Hinv'); [apply Hvs; left|].
    rewrite Hst'. destruct (IH (λ v' Hv', Hvs v' (list_elem_of_further _ _ _ Hv')) _ _ Hinv')
      as (st'' & Hst'' & Hinv'').
    exists st''. split; [done|]. by rewrite <-app_assoc in Hinv''.
Qed.

End ZeroEdges.

Section SameGraph.
Context (m_isTerminal : nat → bool) {Y : Type}.
Implicit Types (s : Store Y).

Lemma same_graph_refl G : same_graph G G.
Proof. done. Qed.

Lemma theNode_same G G' a : same_graph G G' → theNode G' a = theNode G a.
Proof. intros [_ He]. unfold theNode. by rewrite He. Qed.

Lemma cyclicSucc_same G G' a : same_graph G G' → cyclicSucc G' a = cyclicSucc G a.
Proof.
  intros HG. pose proof HG as [Ha _]. unfold cyclicSucc.
  by rewrite (theNode_same _ _ _ HG), Ha.
Qed.

Lemma push_others_same G G' cap back :
  same_graph G G' →
  ∀ n adj stack, push_others n G' cap back adj stack = push_others n G cap back adj stack.
Proof.
  intros HG. induction n as [|n IH]; intros adj stack; simpl; [done|].
  case_decide; [done|]. destruct (stack_push cap adj stack); simpl; [|done].
  rewrite (cyclicSucc_same _ _ _ HG). destruct (cyclicSucc G adj); simpl; [|done].
  apply IH.
Qed.

Lemma edge_weight_same G G' e : same_graph G G' → edge_weight G' e = edge_weight G e.
Proof. intros [_ He]. unfold edge_weight. by rewrite He. Qed.

(** The walk reads the graph, the table of originals, and the start handle
    and the number of terminals of the record. *)
Lemma foreach_walk_same {A} s s' cap (f : adjEntry → A → option A) :
  same_graph (m_graph s) (m_graph s') → m_nodeOrig s' = m_nodeOrig s →
  ∀ fuel stack acc,
    foreach_walk m_isTerminal fuel s' cap f stack acc
    = foreach_walk m_isTerminal fuel s cap f stack acc.
Proof.
  intros HG Hog. pose proof HG as [Ha _].
  induction fuel as [|fuel IH]; intros stack acc; [done|].
  destruct stack as [|top stack]; [done|]. cbn [foreach_walk].
  destruct (f (twin top) acc) as [acc'|]; [|done]. cbn [mbind option_bind].
  rewrite (theNode_same _ _ _ HG).
  destruct (theNode (m_graph s) (twin top)) as [v|]; [|done]. cbn [mbind option_bind].
  unfold isTerminal. rewrite Hog.
  destruct (m_nodeOrig s !! v) as [vO|]; [|done]. cbn [fmap option_fmap option_map mbind option_bind].
  destruct (m_isTerminal vO); [apply IH|].
  rewrite Ha. destruct (adjEntries (m_graph s) !! v) as [l|]; [|done].
  cbn [mbind option_bind]. rewrite (cyclicSucc_same _ _ _ HG).
  destruct (cyclicSucc (m_graph s) (twin top)); [|done]. cbn [mbind option_bind].
  rewrite (push_others_same _ _ _ _ HG).
  destruct (push_others _ _ _ _ _ _); [|done]. cbn [mbind option_bind]. apply IH.
Qed.

Lemma foreachAdjEntry_same {A} s s' id c c' (f : adjEntry → A → option A) fuel acc :
  same_graph (m_graph s) (m_graph s') → m_nodeOrig s' = m_nodeOrig s →
  component s id = Some c → component s' id = Some c' →
  start c' = start c → terminals c' = terminals c →
  foreachAdjEntry m_isTerminal fuel s' id f acc
  = foreachAdjEntry m_isTerminal fuel s id f acc.
Proof.
  intros HG Hog Hc Hc' Hst Hterm. unfold foreachAdjEntry.
  rewrite Hc, Hc'. cbn [mbind option_bind]. rewrite Hst, Hterm.
  destruct (start c); [|done]. cbn [mbind option_bind].
  case_decide; [done|]. destruct (stack_push _ _ _); [|done]. cbn [mbind option_bind].
  by apply foreach_walk_same.
Qed.

End SameGraph.

(** What the callback of [computeAllLosses] has done to the extra data [x]
    of a record once it has seen the handles [vis]. *)
Definition classified (G : EdgeWeightedGraph) (isLossEdge : nat → bool)
    (vis : list adjEntry) (x x' : LossMetadata) : Prop :=
  loss x' = loss x + Zsum (edge_weight G <$>
                             filter (λ e, isLossEdge e = true) (theEdge <$> vis)) ∧
  bridges x' = bridges x ++ filter (λ e, isLossEdge e = false) (theEdge <$> vis).

Lemma Zsum_app (l k : list Z) : Zsum (l ++ k) = Zsum l + Zsum k.
Proof. unfold Zsum. induction l as [|x l IH]; cbn [foldr app]; lia. Qed.

Lemma Zsum_filter_split (w : nat → Z) (P : nat → bool) (l : list nat) :
  Zsum (w <$> filter (λ e, P e = true) l) + Zsum (w <$> filter (λ e, P e = false) l)
  = Zsum (w <$> l).
Proof.
  induction l as [|e l IH]; [done|]. rewrite !filter_cons.
  destruct (P e) eqn:HP.
  - rewrite decide_True, decide_False by done. rewrite !fmap_cons.
    unfold Zsum in *. cbn [foldr]. lia.
  - rewrite decide_False, decide_True by done. rewrite !fmap_cons.
    unfold Zsum in *. cbn [foldr]. lia.
Qed.

Section LossWalk.
Context (G : EdgeWeightedGraph) (pred : nat → option nat) (isLossEdge : nat → bool).

Lemma classify_fold fuel (vis : list adjEntry) :
  ∀ x lt x' lt',
  visit_all (classify fuel G pred isLossEdge) vis (x, lt) = Some (x', lt') →
  classified G isLossEdge vis x x'.
Proof.
  unfold classified.
  induction vis as [|a vis IH]; intros x lt x' lt' Hv; cbn [visit_all] in Hv.
  - injection Hv as <- <-. cbn [fmap list_fmap]. rewrite !filter_nil.
    unfold Zsum. cbn [fmap list_fmap foldr]. rewrite app_nil_r. split; [lia|done].
  - destruct (classify fuel G pred isLossEdge a (x, lt)) as [[x1 lt1]|] eqn:Hcl;
      cbn [mbind option_bind] in Hv; [|done].
    apply IH in Hv as [Hloss Hbr]. rewrite Hloss, Hbr. clear Hloss Hbr IH.
    rewrite fmap_cons, !filter_cons. unfold classify in Hcl.
    destruct (edges G !! theEdge a) as [r|] eqn:Hr; cbn [mbind option_bind] in Hcl; [|done].
    assert (edge_weight G (theEdge a) = weight r) as Hw.
    { unfold edge_weight. by rewrite Hr. }
    destruct (isLossEdge (theEdge a)) eqn:Hl.
    + injection Hcl as <- <-. cbn [loss bridges].
      rewrite decide_True, decide_False by done. rewrite fmap_cons.
      unfold Zsum. cbn [foldr]. split; [lia|done].
    + destruct (findLossTerminal fuel G pred lt (source r)) as [[lt2 ?]|];
        cbn [mbind option_bind] in Hcl; [|done].
      destruct (findLossTerminal fuel G pred lt2 (target r)) as [[lt3 ?]|];
        cbn [mbind option_bind] in Hcl; [|done].
      injection Hcl as <- <-. cbn [loss bridges].
      rewrite decide_False, decide_True by done. split; [done|].
      by rewrite <-app_assoc.
Qed.

(** [findLossTerminal] comes back when the predecessor edges of the nodes
    without an entry in [m_lossTerminal] are live and lead down a rank. *)
Context (d : nat → nat).

Definition pred_ok (lt : gmap nat nat) : Prop :=
  ∀ u e, lt !! u = None → pred u = Some e →
    ∃ r, edges G !! e = Some r ∧ (d (opposite r u) < d u)%nat.

Lemma pred_ok_mono (lt lt' : gmap nat nat) :
  (∀ v, is_Some (lt !! v) → is_Some (lt' !! v)) → pred_ok lt → pred_ok lt'.
Proof.
  intros Hdom Hok u e Hu. apply Hok.
  destruct (lt !! u) eqn:Hl; [|done].
  destruct (Hdom u) as [? Hs]; [eauto|congruence].
Qed.

Lemma findLossTerminal_total (n : nat) :
  ∀ fuel lt u, (d u < n)%nat → (n ≤ fuel)%nat → pred_ok lt →
  ∃ lt' res, findLossTerminal fuel G pred lt u = Some (lt', res) ∧
             ∀ v, is_Some (lt !! v) → is_Some (lt' !! v).
Proof.
  induction n as [|n IH]; intros fuel lt u Hd Hfuel Hok; [lia|].
  destruct fuel as [|fuel]; [lia|]. cbn [findLossTerminal].
  destruct (lt !! u) as [t|] eqn:Hu; [by eauto|].
  destruct (pred u) as [e|] eqn:He; [|by eauto].
  destruct (Hok u e Hu He) as (r & Hr & Hlt). rewrite Hr. cbn [mbind option_bind].
  destruct (IH fuel lt (opposite r u)) as (lt' & res & -> & Hdom); [lia|lia|done|].
  cbn [mbind option_bind]. eexists _, _. split; [done|].
  intros v Hv. assert (v ≠ u) as Hne by (intros ->; rewrite Hu in Hv; by destruct Hv).
  destruct res; [rewrite lookup_insert_ne by done|rewrite lookup_delete_ne by done];
    by apply Hdom.
Qed.

Lemma classify_total (n fuel : nat) (vis : list adjEntry) :
  (∀ u, d u < n)%nat → (n ≤ fuel)%nat →
  (∀ a, a ∈ vis → is_Some (edges G !! theEdge a)) →
  ∀ x lt, pred_ok lt →
  ∃ x' lt', visit_all (classify fuel G pred isLossEdge) vis (x, lt) = Some (x', lt') ∧
            ∀ v, is_Some (lt !! v) → is_Some (lt' !! v).
Proof.
  intros Hd Hfuel. induction vis as [|a vis IH]; intros Hlive x lt Hok; cbn [visit_all].
  - by eauto.
  - destruct (Hlive a) as [r Hr]; [left|].
    assert (∃ x1 lt1, classify fuel G pred isLossEdge a (x, lt) = Some (x1, lt1) ∧
              ∀ v, is_Some (lt !! v) → is_Some (lt1 !! v)) as (x1 & lt1 & -> & Hdom1).
    { unfold classify. rewrite Hr. cbn [mbind option_bind].
      destruct (isLossEdge (theEdge a)); [by eauto|].
      destruct (findLossTerminal_total n fuel lt (source r)) as (lt2 & ? & -> & Hdom2);
        [done..|].
      cbn [mbind option_bind].
      destruct (findLossTerminal_total n fuel lt2 (target r)) as (lt3 & ? & -> & Hdom3);
        [done|done|by eapply pred_ok_mono|].
      cbn [mbind option_bind]. eexists _, _. split; [done|]. auto. }
    cbn [mbind option_bind].
    destruct (IH (λ b Hb, Hlive b (list_elem_of_further _ _ _ Hb)) x1 lt1)
      as (x' & lt' & -> & Hdom'); [by eapply pred_ok_mono|].
    eexists _, _. split; [done|]. auto.
Qed.

End LossWalk.

Section LossLoop.
Context (m_terminals : list nat) (m_isTerminal : nat → bool).
Implicit Types (s : Store LossMetadata) (ls : LossStore).

(** The handles [foreachAdjEntry] visits for every record, with one budget
    of steps that is enough for all of them. *)
Definition walk_facts {Y} (s : Store Y) (n : nat) : Prop :=
  ∀ j c, m_components s !! j = Some c →
    ∃ vis, NoDup (theEdge <$> vis) ∧
      (∀ a, a ∈ vis → is_Some (edges (m_graph s) !! theEdge a)) ∧
      cost c = Zsum (edge_weight (m_graph s) <$> (theEdge <$> vis)) ∧
      ∀ fuel A (f : adjEntry → A → option A) acc, (n ≤ fuel)%nat →
        foreachAdjEntry m_isTerminal fuel s (Z.of_nat j) f acc = visit_all f vis acc.

Lemma walk_facts_exists {Y} (s : Store Y) :
  store_ok m_terminals m_isTerminal s → ∃ n, walk_facts s n.
Proof.
  intros Hok.
  assert (∀ k, ∃ n, ∀ j c, (j < k)%nat → m_components s !! j = Some c →
            ∃ vis, NoDup (theEdge <$> vis) ∧
              (∀ a, a ∈ vis → is_Some (edges (m_graph s) !! theEdge a)) ∧
              cost c = Zsum (edge_weight (m_graph s) <$> (theEdge <$> vis)) ∧
              ∀ fuel A (f : adjEntry → A → option A) acc, (n ≤ fuel)%nat →
                foreachAdjEntry m_isTerminal fuel s (Z.of_nat j) f acc
                = visit_all f vis acc) as Hk.
  { induction k as [|k [n IH]].
    - exists 0%nat. intros; lia.
    - destruct (m_components s !! k) as [ck|] eqn:Hck.
      2:{ exists n. intros j c Hj Hc. apply IH; [|done].
          destruct (decide (j = k)) as [->|]; [congruence|lia]. }
      assert (component s (Z.of_nat k) = Some ck) as Hcomp by by rewrite component_at.
      destruct (visited_spec m_terminals m_isTerminal s _ ck Hok Hcomp)
        as (B & vis & HcB & HndE & Hvis & Hwalk).
      assert (theEdge <$> vis ≡ₚ br_edges B) as Hedges.
      { rewrite Hvis, <-list_fmap_compose, <-br_entries_edges.
        assert (theEdge ∘ twin <$> br_entries B = theEdge <$> br_entries B) as ->; [|done].
        apply list_fmap_ext. by intros _ [e b] _. }
      exists (n `max` length (br_edges B))%nat. intros j c Hj Hc.
      destruct (decide (j = k)) as [->|Hne].
      + assert (c = ck) as -> by congruence. exists vis.
        split; [by rewrite Hedges|]. split; [|split].
        * intros a Ha. rewrite Hvis in Ha.
          apply list_elem_of_fmap in Ha as (b & -> & Hb).
          destruct (cok_root _ _ _ _ HcB) as (p & t & Hemb & _).
          by destruct (embeds_entries_nodes _ _ _ _ _ _ Hemb Hb) as [? _].
        * rewrite (cok_cost _ _ _ _ HcB). apply Zsum_perm. by rewrite Hedges.
        * intros fuel A f acc Hfuel. apply Hwalk. lia.
      + destruct (IH j c) as (vis' & ? & ? & ? & Hw); [lia|done|].
        exists vis'. split_and!; try done. intros fuel A f acc Hfuel. apply Hw. lia. }
  destruct (Hk (length (m_components s))) as [n Hn]. exists n.
  intros j c Hc. apply Hn; [|done]. by apply lookup_lt_Some in Hc.
Qed.

(** The state of the last loop of [computeAllLosses] once the records with
    an identifier in [P] have been treated. *)
Record loss_inv (s : Store LossMetadata) (n : nat) (G2 : EdgeWeightedGraph)
    (isLossEdge : nat → bool) (P : list nat) (ls : LossStore) : Prop := mkLossInv {
  li_graph : m_graph (store ls) = G2;
  li_copy : m_nodeCopy (store ls) = m_nodeCopy s;
  li_orig : m_nodeOrig (store ls) = m_nodeOrig s;
  li_length : length (m_components (store ls)) = length (m_components s);
  li_records : ∀ j c, m_components s !! j = Some c →
    ∃ c', m_components (store ls) !! j = Some c' ∧
      start c' = start c ∧ terminals c' = terminals c ∧ cost c' = cost c ∧
      (j ∉ P → extra c' = extra c) ∧
      (j ∈ P → ∃ vis,
         (∀ fuel A (f : adjEntry → A → option A) acc, (n ≤ fuel)%nat →
            foreachAdjEntry m_isTerminal fuel s (Z.of_nat j) f acc = visit_all f vis acc) ∧
         classified G2 isLossEdge vis (extra c) (extra c'))
}.

Lemma loss_inv_proper s n G2 isLossEdge (P P' : list nat) ls :
  (∀ j, j ∈ P ↔ j ∈ P') → loss_inv s n G2 isLossEdge P ls → loss_inv s n G2 isLossEdge P' ls.
Proof.
  intros HP [H1 H2 H3 H4 H5]. split; try done. intros j c Hc.
  destruct (H5 j c Hc) as (c' & ? & ? & ? & ? & Hout & Hin).
  exists c'. split_and!; try done.
  - intros Hj. apply Hout. by rewrite HP.
  - intros Hj. apply Hin. by rewrite HP.
Qed.

Lemma loss_step_inv s n G2 pred isLossEdge (P : list nat) ls fuel (id : nat) ls' :
  walk_facts s n → same_graph (m_graph s) G2 →
  loss_inv s n G2 isLossEdge P ls → id ∉ P →
  loss_step m_isTerminal fuel pred isLossEdge (Some ls) id = Some ls' →
  loss_inv s n G2 isLossEdge (id :: P) ls'.
Proof.
  intros Hwalks Hsame [Hg Hcp Hog Hlen Hrec] Hid Hstep.
  unfold loss_step in Hstep. cbn [mbind option_bind] in Hstep.
  rewrite component_at in Hstep.
  destruct (m_components (store ls) !! id) as [c'|] eqn:Hc';
    cbn [mbind option_bind] in Hstep; [|done].
  destruct (foreachAdjEntry _ _ _ _ _ _) as [[x lt]|] eqn:Hwalk;
    cbn [mbind option_bind] in Hstep; [|done].
  injection Hstep as <-.
  destruct (m_components s !! id) as [c|] eqn:Hc.
  2:{ apply lookup_ge_None in Hc. apply lookup_lt_Some in Hc'. lia. }
  destruct (Hrec id c Hc) as (c'' & Hc'' & Hst & Hterm & Hcost & Hextra & _).
  assert (c'' = c') as -> by congruence.
  destruct (Hwalks id c Hc) as (vis & _ & _ & _ & Hvis).
  rewrite (foreachAdjEntry_same m_isTerminal s (store ls) _ c c') in Hwalk;
    [|by rewrite Hg|done|by rewrite component_at|by rewrite component_at|done|done].
  apply (foreachAdjEntry_mono _ _ _ _ _ (fuel `max` n)%nat) in Hwalk; [|lia].
  rewrite Hvis in Hwalk by lia. apply classify_fold in Hwalk.
  rewrite Hg, (Hextra Hid) in Hwalk.
  split; cbn [store m_graph m_nodeCopy m_nodeOrig m_components]; try done.
  - by rewrite length_insert.
  - intros j cj Hcj. destruct (decide (j = id)) as [->|Hne].
    + exists (set_extra x c'). rewrite list_lookup_insert_eq by by eapply lookup_lt_Some.
      assert (cj = c) as -> by congruence. split_and!; try done.
      * intros []. left.
      * intros _. by exists vis.
    + destruct (Hrec j cj Hcj) as (cj' & Hcj' & ? & ? & ? & Hout & Hin).
      exists cj'. rewrite list_lookup_insert_ne by done. split_and!; try done.
      * intros Hj. apply Hout. intros ?. apply Hj. by right.
      * intros [?|Hj]%elem_of_cons; [done|]. by apply Hin.
Qed.

Lemma loss_fold_None fuel pred isLossEdge (ids : list nat) :
  foldl (loss_step m_isTerminal fuel pred isLossEdge) None ids = None.
Proof. by induction ids. Qed.

Lemma loss_fold_inv s n G2 pred isLossEdge fuel (ids : list nat) :
  walk_facts s n → same_graph (m_graph s) G2 →
  ∀ P ls ls', NoDup ids → (∀ j, j ∈ ids → j ∉ P) →
  loss_inv s n G2 isLossEdge P ls →
  foldl (loss_step m_isTerminal fuel pred isLossEdge) (Some ls) ids = Some ls' →
  loss_inv s n G2 isLossEdge (ids ++ P) ls'.
Proof.
  intros Hwalks Hsame. induction ids as [|id ids IH]; intros P ls ls' Hnd Hdisj Hinv Hfold.
  - cbn [foldl] in Hfold. by injection Hfold as <-.
  - cbn [foldl] in Hfold. apply NoDup_cons in Hnd as [Hnew Hnd].
    destruct (loss_step m_isTerminal fuel pred isLossEdge (Some ls) id) as [ls1|] eqn:Hstep.
    2:{ by rewrite loss_fold_None in Hfold. }
    apply (loss_step_inv s n G2 pred isLossEdge P ls fuel id ls1) in Hstep;
      [|done|done|done|apply Hdisj; left].
    apply (IH (id :: P) ls1 ls') in Hfold; [|done| |done].
    + eapply loss_inv_proper; [|done]. intros j. set_solver.
    + intros j Hj [->|Hin]%elem_of_cons; [done|]. revert Hin. apply Hdisj. by right.
Qed.

End LossLoop.

Section LossTotal.
Context (m_terminals : list nat) (m_isTerminal : nat → bool).
Implicit Types (s : Store LossMetadata) (ls : LossStore).

Lemma loss_fold_total s n G2 pred isLossEdge (d : nat → nat) (bound fuel : nat)
    (ids : list nat) :
  walk_facts m_isTerminal s n → same_graph (m_graph s) G2 →
  (∀ u, d u < bound)%nat → (n ≤ fuel)%nat → (bound ≤ fuel)%nat →
  ∀ P ls, NoDup ids → (∀ j, j ∈ ids → j ∉ P) →
  (∀ j, j ∈ ids → (j < length (m_components s))%nat) →
  loss_inv m_isTerminal s n G2 isLossEdge P ls →
  pred_ok G2 pred d (m_lossTerminal ls) →
  is_Some (foldl (loss_step m_isTerminal fuel pred isLossEdge) (Some ls) ids).
Proof.
  intros Hwalks Hsame Hd Hn Hbound.
  induction ids as [|id ids IH]; intros P ls Hnd Hdisj Hlt Hinv Hpred; cbn [foldl].
  - by eauto.
  - apply NoDup_cons in Hnd as [Hnew Hnd].
    assert (∃ ls1, loss_step m_isTerminal fuel pred isLossEdge (Some ls) id = Some ls1 ∧
              pred_ok G2 pred d (m_lossTerminal ls1)) as (ls1 & Hstep & Hpred1).
    { destruct (lookup_lt_is_Some_2 (m_components s) id) as [c Hc]; [apply Hlt; left|].
      pose proof Hinv as [Hg Hcp Hog Hlen Hrec].
      destruct (Hrec id c Hc) as (c' & Hc' & Hst & Hterm & _).
      destruct (Hwalks id c Hc) as (vis & _ & Hlive & _ & Hvis).
      unfold loss_step. cbn [mbind option_bind]. rewrite component_at, Hc'.
      cbn [mbind option_bind].
      rewrite (foreachAdjEntry_same m_isTerminal s (store ls) _ c c');
        [|by rewrite Hg|done|by rewrite component_at|by rewrite component_at|done|done].
      rewrite Hvis by done. rewrite Hg.
      destruct (classify_total G2 pred isLossEdge d bound fuel vis Hd Hbound)
        with (x := extra c') (lt := m_lossTerminal ls) as (x' & lt' & -> & Hdom); [|done|].
      { intros a Ha. destruct Hsame as [_ ->]. by apply Hlive. }
      cbn [mbind option_bind]. eexists. split; [done|]. cbn [m_lossTerminal].
      by eapply pred_ok_mono. }
    rewrite Hstep. apply (IH (id :: P)); try done.
    + intros j Hj [->|Hin]%elem_of_cons; [done|]. revert Hin. apply Hdisj. by right.
    + intros j Hj. apply Hlt. by right.
    + eapply loss_step_inv; [done|done|done| |done]. apply Hdisj. left.
Qed.

End LossTotal.

Section ReachableExtra.
Context (m_terminals : list nat) (m_isTerminal : nat → bool) {Y : Type} (extra0 : Y).

(** [insert] is the only place that makes a record, and it makes it with
    the extra data of the default constructor. *)
Lemma reachable_extra (s : Store Y) :
  instance_ok m_terminals m_isTerminal →
  reachable m_terminals m_isTerminal extra0 s →
  Forall (λ c, extra c = extra0) (m_components s).
Proof.
  intros Hinst. induction 1 as [|s comp s' Hreach IH Hfc Hins|s fuel id s' _ IH Hrem].
  - unfold init. destruct (foldl _ _ _) as [[? ?] ?]. apply Forall_nil_2.
  - pose proof (reachable_ok _ _ extra0 Hinst s Hreach) as Hok.
    destruct (fixed_insert m_terminals m_isTerminal extra0 Hinst s comp Hok Hfc)
      as (s'' & c & Hins' & _ & Hcomps & _ & _ & _ & _ & Hextra).
    rewrite Hins in Hins'. injection Hins' as ->. rewrite Hcomps.
    apply Forall_app. split; [done|]. by apply Forall_singleton.
  - unfold remove in Hrem.
    destruct (component s id) as [c|] eqn:Hc; cbn [mbind option_bind] in Hrem; [|done].
    destruct (remove_in_graph _ _ _ _); cbn [mbind option_bind] in Hrem; [|done].
    apply component_lookup in Hc as [Hid Hc].
    destruct (remove_record_Some _ _ _ Hid Hc) as (l' & Hl' & Hperm & _).
    rewrite Hl' in Hrem. cbn [mbind option_bind] in Hrem. injection Hrem as <-.
    cbn [m_components]. rewrite Hperm in IH. by apply Forall_cons in IH as [_ ?].
Qed.

End ReachableExtra.

(** The shared graph with the zero-cost edges, as [computeMinST] sees it,
    and the node of the first terminal. *)
Definition with_zero_edges {Y} (m_terminals : list nat) (s : Store Y)
  : option (nat * EdgeWeightedGraph) :=
  t ← head m_terminals;
  sC ← m_nodeCopy s !! t;
  '(G1, _, _) ← foldl (add_zero_edge (m_nodeCopy s) sC)
                      (Some (m_graph s, {[sC := t]}, [])) (tail m_terminals);
  Some (sC, G1).

(** The predecessor edges lead from every Steiner node along live edges of
    the shared graph down a rank: they form no cycle. *)
Definition mst_ok {Y} (s : Store Y) (pred : nat → option nat) : Prop :=
  ∃ (d : nat → nat) (bound : nat), (∀ u, d u < bound)%nat ∧
    ∀ u e, (∀ t, m_nodeCopy s !! t ≠ Some u) → pred u = Some e →
      ∃ r, edges (m_graph s) !! e = Some r ∧ (d (opposite r u) < d u)%nat.

Section LossProperties.
Context (m_terminals : list nat) (m_isTerminal : nat → bool).
Context (computeMinST : nat → EdgeWeightedGraph → (nat → option nat) * (nat → bool)).
Notation store_ok := (store_ok m_terminals m_isTerminal).
Notation reachable := (reachable m_terminals m_isTerminal LossMetadata0).
Notation instance_ok := (instance_ok m_terminals m_isTerminal).
Notation computeAll := (computeAllLosses m_terminals m_isTerminal computeMinST).
Implicit Types (s : Store LossMetadata) (ls : LossStore).

Lemma computeAllLosses_unfold ls t ts :
  store_ok (store ls) → m_terminals = t :: ts →
  ∃ sC G1 lt G2,
    with_zero_edges m_terminals (store ls) = Some (sC, G1) ∧
    same_graph (m_graph (store ls)) G2 ∧
    (∀ u, lt !! u = None → ∀ v, m_nodeCopy (store ls) !! v ≠ Some u) ∧
    ∀ fuel, computeAll fuel ls =
      foldl (loss_step m_isTerminal fuel (computeMinST sC G1).1 (computeMinST sC G1).2)
        (Some (mkLossStore
                 (mkStore G2 (m_nodeCopy (store ls)) (m_nodeOrig (store ls))
                          (m_components (store ls))) lt))
        (seq 0 (length (m_components (store ls)))).
Proof.
  intros Hok Hts. set (s := store ls) in *.
  destruct (proj2 (sok_copy_dom _ _ _ Hok t)) as [sC HsC]; [rewrite Hts; left|].
  destruct (sok_copy_orig _ _ _ Hok _ _ HsC) as [_ Hnode].
  pose proof (sok_graph _ _ _ Hok) as HG.
  destruct (zero_inv_fold (m_graph s) (m_nodeCopy s) sC HG Hnode ts) with
    (done := [t]) (st := (m_graph s, ({[sC := t]} : gmap nat nat), @nil nat))
    as ([[G1 lt] zs] & Hfold & [Hok1 Hnd Hlive Hsame _ Hloss]).
  { intros v Hv. destruct (proj2 (sok_copy_dom _ _ _ Hok v)) as [vC HvC];
      [rewrite Hts; by right|].
    exists vC. split; [done|]. by apply (sok_copy_orig _ _ _ Hok _ _ HvC). }
  { split; cbn [fst snd]; try done.
    - apply NoDup_nil_2.
    - by intros e ?%elem_of_nil.
    - by rewrite prune_nil.
    - intros v vC ->%list_elem_of_singleton Hv.
      assert (vC = sC) as -> by congruence. by rewrite lookup_singleton_eq. }
  cbn [fst snd] in *.
  exists sC, G1, lt, (prune G1 zs []). split; [|split; [done|split]].
  - unfold with_zero_edges. rewrite Hts. cbn [head tail mbind option_bind].
    fold s. rewrite HsC. cbn [mbind option_bind]. by rewrite Hfold.
  - intros u Hu v Hv.
    assert (v ∈ t :: ts) as Hin.
    { rewrite <-Hts. apply (sok_copy_dom _ _ _ Hok). by eauto. }
    destruct (Hloss v u) as [? Hs]; [done|done|congruence].
  - intros fuel. unfold computeAllLosses. rewrite Hts. cbn [head tail mbind option_bind].
    fold s. rewrite HsC. cbn [mbind option_bind]. rewrite Hfold. cbn [mbind option_bind].
    destruct (computeMinST sC G1) as [pred isLossEdge]. cbn [fst snd].
    by rewrite (delEdges_all G1 zs Hok1 Hnd Hlive).
Qed.

(** C3: on a store built by the constructor, [insert] and [remove], after
    [computeAllLosses()] every record has its loss and its bridges, and the
    loss plus the weights of the bridges is the cost.  The split is the one
    [computeMinST] made: with [sC] the node of the first terminal and [G1]
    the shared graph with the zero-cost edges, the call [computeMinST sC G1]
    returns the flags [isLossEdge]; of the edges that [foreachAdjEntry]
    visits, each once, those the call flagged give their weight to the loss
    and those it did not flag are the bridges, in the order of the visit.
    [computeAllLosses()] comes back when there is a terminal and the
    predecessor edges that [computeMinST] returns have no cycle. *)
Theorem loss_conservation ls :
  instance_ok → reachable (store ls) →
  (∀ fuel ls', computeAll fuel ls = Some ls' →
     size (store ls') = size (store ls) ∧
     ∃ sC G1, with_zero_edges m_terminals (store ls) = Some (sC, G1) ∧
     ∀ id, 0 ≤ id < size (store ls') →
       ∃ l bs c vis n,
         loss_of ls' id = Some l ∧ lossBridges ls' id = Some bs ∧
         cost_of (store ls') id = Some c ∧ cost_of (store ls) id = Some c ∧
         l + Zsum (edge_weight (m_graph (store ls')) <$> bs) = c ∧
         (∀ fuel', (n ≤ fuel')%nat →
            visited m_isTerminal fuel' (store ls') id = Some vis) ∧
         NoDup (theEdge <$> vis) ∧
         l = Zsum (edge_weight (m_graph (store ls')) <$>
                     filter (λ e, (computeMinST sC G1).2 e = true) (theEdge <$> vis)) ∧
         bs = filter (λ e, (computeMinST sC G1).2 e = false) (theEdge <$> vis)) ∧
  (m_terminals ≠ [] →
   (∀ sC G1, with_zero_edges m_terminals (store ls) = Some (sC, G1) →
             mst_ok (store ls) (computeMinST sC G1).1) →
   ∃ n, ∀ fuel, (n ≤ fuel)%nat → is_Some (computeAll fuel ls)).
Proof.
  intros Hinst Hreach. set (s := store ls) in *.
  pose proof (reachable_ok _ _ _ Hinst s Hreach) as Hok.
  pose proof (reachable_extra _ _ _ s Hinst Hreach) as Hextra.
  destruct (walk_facts_exists m_terminals m_isTerminal s Hok) as [n Hwalks].
  assert (∀ G2 isLossEdge lt,
    loss_inv m_isTerminal s n G2 isLossEdge []
      (mkLossStore (mkStore G2 (m_nodeCopy s) (m_nodeOrig s) (m_components s)) lt)) as Hinit.
  { intros G2 isLossEdge lt. split; cbn [store m_graph m_nodeCopy m_nodeOrig m_components];
      try done.
    intros j c Hc. exists c. split_and!; try done. by intros ?%elem_of_nil. }
  split.
  - intros fuel ls' Hrun. destruct m_terminals as [|t ts] eqn:Hts.
    { by unfold computeAllLosses in Hrun. }
    rewrite <-Hts in *.
    destruct (computeAllLosses_unfold ls t ts Hok Hts)
      as (sC & G1 & lt & G2 & Hzero & Hsame & _ & Hunfold).
    rewrite Hunfold in Hrun. fold s in Hrun.
    apply (loss_fold_inv m_isTerminal s n G2 _ (computeMinST sC G1).2)
      with (P := []) in Hrun;
      [|done|done|apply NoDup_seq|by intros ? _ ?%elem_of_nil|apply Hinit].
    destruct Hrun as [Hg Hcp Hog Hlen Hrec]. rewrite !size_length, Hlen.
    split; [done|]. exists sC, G1. split; [done|]. intros id Hid.
    destruct (lookup_lt_is_Some_2 (m_components s) (Z.to_nat id)) as [c Hc]; [lia|].
    destruct (Hrec _ c Hc) as (c' & Hc' & Hst & Hterm & Hcost & _ & Hin).
    destruct Hin as (vis & Hvis & Hloss & Hbr).
    { apply elem_of_app. left. apply elem_of_seq. lia. }
    rewrite (Forall_lookup_1 _ _ _ _ Hextra Hc) in Hloss, Hbr.
    cbn [loss bridges LossMetadata0] in Hloss, Hbr. rewrite app_nil_l in Hbr.
    destruct (Hwalks _ c Hc) as (vis' & Hnd & _ & Hcostc & Hvis').
    assert (vis' = vis) as ->.
    { pose proof (Hvis n _ (λ back l, Some (l ++ [back])) [] (Nat.le_refl _)) as H1.
      rewrite Hvis' in H1 by done. rewrite !visit_all_collect in H1.
      by injection H1. }
    rewrite Z2Nat.id in Hvis by lia.
    assert (component s id = Some c) as Hcomp.
    { apply component_lookup. split; [lia|done]. }
    assert (component (store ls') id = Some c') as Hcomp'.
    { apply component_lookup. split; [lia|done]. }
    exists (loss (extra c')), (bridges (extra c')), (cost c), vis, n.
    unfold loss_of, lossBridges, cost_of, assert_id. rewrite !size_length, Hlen.
    rewrite !decide_True by done. cbn [mbind option_bind].
    rewrite Hcomp, Hcomp'. cbn [fmap option_fmap option_map]. rewrite Hcost.
    split_and!; try done.
    + rewrite Hloss, Hbr, Hg, Z.add_0_l, Zsum_filter_split.
      rewrite Hcostc. f_equal. apply list_fmap_ext. intros _ e _.
      by apply edge_weight_same.
    + intros fuel' Hfuel'. unfold visited.
      rewrite (foreachAdjEntry_same m_isTerminal s (store ls') _ c c');
        [|by rewrite Hg|done..].
      rewrite Hvis by done. by rewrite visit_all_collect.
    + by rewrite Hloss, Hg, Z.add_0_l.
  - intros Hne Hmst. destruct m_terminals as [|t ts] eqn:Hts; [done|].
    rewrite <-Hts in *.
    destruct (computeAllLosses_unfold ls t ts Hok Hts)
      as (sC & G1 & lt & G2 & Hzero & Hsame & Hlt & Hunfold).
    destruct (Hmst sC G1 Hzero) as (d & bound & Hd & Hpred).
    exists (n `max` bound)%nat. intros fuel Hfuel. rewrite Hunfold.
    apply (loss_fold_total m_isTerminal s n G2 _ _ d bound fuel) with (P := []);
      try done; try lia.
    + apply NoDup_seq.
    + by intros ? _ ?%elem_of_nil.
    + intros j Hj%elem_of_seq. unfold s. lia.
    + cbn [m_lossTerminal]. intros u e Hu He. destruct Hsame as [_ ->].
      apply Hpred; [|done]. by apply Hlt.
Qed.

End LossProperties.

(** ** The properties on the concrete instance *)

Lemma start_on_terminal_witness :
  instance_ok ex_terminals ex_isTerminal ∧
  reachable ex_terminals ex_isTerminal tt ex_store2 ∧
  component ex_store2 1 = Some (mkMetadata (Some (AdjE 3 false)) [1; 2]%nat 5 tt) ∧
  ∃ st v t, start (mkMetadata (Some (AdjE 3 false)) [1; 2]%nat 5 tt) = Some st ∧
            theNode (m_graph ex_store2) st = Some v ∧
            original ex_store2 v = Some t ∧ ex_isTerminal t = true ∧
            isTerminal ex_isTerminal ex_store2 v = Some true.
Proof.
  split; [apply ex_instance_ok|]. split; [apply ex_reachable2|].
  split; [apply ex_component2|].
  apply (start_on_terminal ex_terminals ex_isTerminal tt ex_store2 1 _
           ex_instance_ok ex_reachable2 ex_component2).
Defined.

Lemma ex_size2 : 0 ≤ 0 < size ex_store2.
Proof. vm_compute. split; [discriminate|reflexivity]. Defined.

Lemma remove_reindexes_witness :
  0 ≤ 0 < size ex_store2 ∧
  (∀ fuel s', remove ex_isTerminal fuel ex_store2 0 = Some s' →
     size s' = size ex_store2 - 1 ∧
     (∀ j, 0 ≤ j < size s' → is_Some (component s' j)) ∧
     (∀ j, 0 ≤ j < size s' → j ≠ 0 → component s' j = component ex_store2 j) ∧
     (0 < size s' → component s' 0 = component ex_store2 (size ex_store2 - 1))) ∧
  (instance_ok ex_terminals ex_isTerminal →
   reachable ex_terminals ex_isTerminal tt ex_store2 →
     ∃ n, ∀ fuel, (n ≤ fuel)%nat → is_Some (remove ex_isTerminal fuel ex_store2 0)).
Proof.
  split; [apply ex_size2|].
  apply (remove_reindexes ex_terminals ex_isTerminal tt ex_store2 0 ex_size2).
Defined.

(** On the instance: removing the star moves the record of the edge from
    the identifier 1 to the identifier 0. *)
Lemma ex_remove_moves :
  ∃ s', remove ex_isTerminal 4 ex_store2 0 = Some s' ∧ size s' = 1 ∧
        component s' 0 = component ex_store2 1.
Proof. eexists. split; [vm_compute; reflexivity|]. split; reflexivity. Qed.

Lemma ex_three_terminals :
  (3 ≤ length (terminals (mkMetadata (Some (AdjE 2 false)) [1; 2; 3]%nat 9 tt)))%nat.
Proof. simpl. lia. Defined.

Lemma remove_stack_bound_witness :
  instance_ok ex_terminals ex_isTerminal ∧
  reachable ex_terminals ex_isTerminal tt ex_store ∧
  component ex_store 0 = Some (mkMetadata (Some (AdjE 2 false)) [1; 2; 3]%nat 9 tt) ∧
  (3 ≤ length (terminals (mkMetadata (Some (AdjE 2 false)) [1; 2; 3]%nat 9 tt)))%nat ∧
  ∃ st v G1,
    start (mkMetadata (Some (AdjE 2 false)) [1; 2; 3]%nat 9 tt) = Some st ∧
    twinNode (m_graph ex_store) st = Some v ∧
    delEdge (m_graph ex_store) (theEdge st) = Some G1 ∧
    ∃ n, ∀ fuel, (n ≤ fuel)%nat →
      remove_in_graph ex_isTerminal fuel ex_store
        (mkMetadata (Some (AdjE 2 false)) [1; 2; 3]%nat 9 tt) =
        remove_walk ex_isTerminal fuel ex_store
          (2 * Z.of_nat (length (terminals
             (mkMetadata (Some (AdjE 2 false)) [1; 2; 3]%nat 9 tt))) - 3) G1 [v] ∧
      is_Some (remove_walk ex_isTerminal fuel ex_store
                 (2 * Z.of_nat (length (terminals
                    (mkMetadata (Some (AdjE 2 false)) [1; 2; 3]%nat 9 tt))) - 3) G1 [v]).
Proof.
  split; [apply ex_instance_ok|]. split; [apply ex_reachable|].
  split; [apply ex_component|]. split; [apply ex_three_terminals|].
  apply (remove_stack_bound ex_terminals ex_isTerminal tt ex_store 0 _
           ex_instance_ok ex_reachable ex_component ex_three_terminals).
Defined.

Lemma cost_is_visited_weight_witness :
  instance_ok ex_terminals ex_isTerminal ∧
  reachable ex_terminals ex_isTerminal tt ex_store ∧
  component ex_store 0 = Some (mkMetadata (Some (AdjE 2 false)) [1; 2; 3]%nat 9 tt) ∧
  ∃ n vis,
    (∀ fuel, (n ≤ fuel)%nat →
       visited ex_isTerminal fuel ex_store 0 = Some vis ∧
       ∀ A (f : adjEntry → A → option A) acc,
         foreachAdjEntry ex_isTerminal fuel ex_store 0 f acc = visit_all f vis acc) ∧
    NoDup (theEdge <$> vis) ∧
    cost_of ex_store 0
      = Some (Zsum ((λ a, edge_weight (m_graph ex_store) (theEdge a)) <$> vis)).
Proof.
  split; [apply ex_instance_ok|]. split; [apply ex_reachable|].
  split; [apply ex_component|].
  apply (cost_is_visited_weight ex_terminals ex_isTerminal tt ex_store 0 _
           ex_instance_ok ex_reachable ex_component).
Defined.

(** On the instance: the walk visits the edges 2, 1 and 0, of the weights
    4, 3 and 2, and the cost is 9. *)
Lemma ex_visited :
  visited ex_isTerminal 3 ex_store 0 = Some [AdjE 2 true; AdjE 1 true; AdjE 0 false] ∧
  cost_of ex_store 0 = Some 9 ∧
  edge_weight (m_graph ex_store) <$> [2; 1; 0]%nat = [4; 3; 2].
Proof. split; [|split]; vm_compute; reflexivity. Qed.

Lemma terminal_sharing_witness :
  instance_ok ex_terminals ex_isTerminal ∧
  reachable ex_terminals ex_isTerminal tt ex_store2 ∧
  m_nodeCopy ex_store2 = m_nodeCopy (init (Y:=unit) ex_terminals) ∧
  (∀ t, t ∈ ex_terminals →
     ∃ v, m_nodeCopy ex_store2 !! t = Some v ∧ original ex_store2 v = Some t) ∧
  (∀ t fuel1 id1 v1 fuel2 id2 v2, ex_isTerminal t = true →
     skeleton_node ex_isTerminal fuel1 ex_store2 id1 v1 → original ex_store2 v1 = Some t →
     skeleton_node ex_isTerminal fuel2 ex_store2 id2 v2 → original ex_store2 v2 = Some t →
     v1 = v2 ∧ m_nodeCopy (init (Y:=unit) ex_terminals) !! t = Some v1).
Proof.
  split; [apply ex_instance_ok|]. split; [apply ex_reachable2|].
  apply (terminal_sharing ex_terminals ex_isTerminal tt ex_store2
           ex_instance_ok ex_reachable2).
Defined.

(** On the instance: the star and the edge both span the terminal 2, on
    the node 1 of the shared graph. *)
Lemma ex_shared_node :
  skeleton_node ex_isTerminal 3 ex_store2 0 1 ∧
  skeleton_node ex_isTerminal 3 ex_store2 1 1 ∧
  original ex_store2 1 = Some 2%nat.
Proof.
  split; [|split].
  - right. exists [AdjE 2 true; AdjE 1 true; AdjE 0 false], (AdjE 1 true).
    split; [vm_compute; reflexivity|]. split; [set_solver|vm_compute; reflexivity].
  - right. exists [AdjE 3 true], (AdjE 3 true).
    split; [vm_compute; reflexivity|]. split; [set_solver|vm_compute; reflexivity].
  - vm_compute. reflexivity.
Qed.

Lemma queries_bounds_checked_witness :
  terminals_of ex_store2 2 = None ∧ cost_of ex_store2 (-1) = None ∧
  terminals_of ex_store2 1 = Some [1; 2]%nat ∧ cost_of ex_store2 1 = Some 5 ∧
  isTerminal_in ex_store2 1 3 = Some false.
Proof.
  destruct (queries_bounds_checked ex_terminals ex_isTerminal tt ex_store2 2) as [Hout _].
  destruct (queries_bounds_checked ex_terminals ex_isTerminal tt ex_store2 (-1)) as [Hneg _].
  destruct (queries_bounds_checked ex_terminals ex_isTerminal tt ex_store2 1) as [_ Hin].
  split; [apply Hout; vm_compute; intros [_ H]; discriminate H|].
  split; [apply Hneg; vm_compute; intros [H _]; by apply H|].
  destruct Hin as (c & Hc & Hterm & Hist & Hcost & _).
  { vm_compute. split; [discriminate|reflexivity]. }
  rewrite ex_component2 in Hc. injection Hc as <-.
  split; [apply Hterm|]. split; [apply Hcost|]. apply Hist.
Defined.

(** C4: [insert] hands no identifier back: on the empty store of the
    instance, where the size is 0, inserting the star hands back nothing
    rather than 0. *)
Lemma insert_returns_no_identifier :
  insert ex_isTerminal tt ex_empty ex_star = Some ex_store ∧
  insert_returned ex_isTerminal tt ex_empty ex_star = Some Void ∧
  insert_returned ex_isTerminal tt ex_empty ex_star ≠ Some (Int (size ex_empty)).
Proof.
  split; [apply ex_insert|].
  unfold insert_returned. rewrite ex_insert. split; [reflexivity|discriminate].
Qed.

Lemma insert_appends_witness :
  instance_ok ex_terminals ex_isTerminal ∧
  reachable ex_terminals ex_isTerminal tt ex_store ∧
  isTree (c_nodes ex_edge) (copy_pairs ex_edge) ∧
  ∃ s' c, insert ex_isTerminal tt ex_store ex_edge = Some s' ∧
    insert_returned ex_isTerminal tt ex_store ex_edge = Some Void ∧
    size s' = size ex_store + 1 ∧
    component s' (size ex_store) = Some c ∧
    cost c = Zsum (ce_weight <$> c_edges ex_edge) ∧
    ∀ j, j < size ex_store → component s' j = component ex_store j.
Proof.
  split; [apply ex_instance_ok|]. split; [apply ex_reachable|].
  split; [apply ex_edge_tree|].
  apply (insert_appends ex_terminals ex_isTerminal tt ex_store ex_edge
           ex_instance_ok ex_reachable ex_edge_tree).
Defined.

(** C5: on the instance the first edge of the star with a terminal end is
    its first edge, the edge 0 of the shared graph, and the stored start
    handle is on the edge 2, the last one. *)
Lemma start_not_on_first_terminal_edge :
  insert ex_isTerminal tt ex_empty ex_star = Some ex_store ∧
  start_first_found (λ v, ex_isTerminal (c_original ex_star v))
    (edgeIdCount (m_graph ex_empty)) (c_edges ex_star) = Some (adjSource 0) ∧
  start_of ex_store (size ex_empty) = Some (Some (adjSource 2)) ∧
  start_of ex_store (size ex_empty)
    ≠ Some (start_first_found (λ v, ex_isTerminal (c_original ex_star v))
              (edgeIdCount (m_graph ex_empty)) (c_edges ex_star)).
Proof.
  split; [apply ex_insert|]. split; [vm_compute; reflexivity|].
  split; [vm_compute; reflexivity|]. vm_compute. discriminate.
Qed.

Lemma ex_star_edges :
  c_edges ex_star = [CopyE 10 13 2; CopyE 13 11 3] ++ CopyE 12 13 4 :: [].
Proof. reflexivity. Defined.

Lemma ex_star_last :
  ex_isTerminal (c_original ex_star (ce_source (CopyE 12 13 4))) = true ∨
  ex_isTerminal (c_original ex_star (ce_target (CopyE 12 13 4))) = true.
Proof. left. vm_compute. reflexivity. Defined.

Lemma ex_star_rest (e' : CopyEdge) :
  e' ∈ @nil CopyEdge →
  ex_isTerminal (c_original ex_star (ce_source e')) = false ∧
  ex_isTerminal (c_original ex_star (ce_target e')) = false.
Proof. intros H. by apply elem_of_nil in H. Defined.

Lemma start_on_last_terminal_edge_witness :
  insert ex_isTerminal tt ex_empty ex_star = Some ex_store ∧
  start_of ex_store (size ex_empty) = Some (Some (adjSource 2)) ∧
  ∃ x y, edges (m_graph ex_store) !! 2%nat = Some (EdgeE x y 4).
Proof.
  split; [apply ex_insert|].
  apply (start_on_last_terminal_edge ex_isTerminal tt ex_empty ex_star ex_store
           [CopyE 10 13 2; CopyE 13 11 3] [] (CopyE 12 13 4)
           ex_insert ex_star_edges ex_star_last ex_star_rest).
Defined.

Lemma ex_edge_ends : c_original ex_edge 20%nat ≠ c_original ex_edge 21%nat.
Proof. simpl. lia. Defined.

Lemma single_edge_component_witness :
  instance_ok ex_terminals ex_isTerminal ∧
  reachable ex_terminals ex_isTerminal tt ex_store ∧
  ∃ s' st, insert ex_isTerminal tt ex_store ex_edge = Some s' ∧
    size s' = size ex_store + 1 ∧
    cost_of s' (size ex_store) = Some 5 ∧
    terminals_of s' (size ex_store) = Some [1; 2]%nat ∧
    start_of s' (size ex_store) = Some (Some st) ∧
    ∀ fuel A (f : adjEntry → A → option A) acc,
      foreachAdjEntry ex_isTerminal fuel s' (size ex_store) f acc = f (twin st) acc.
Proof.
  split; [apply ex_instance_ok|]. split; [apply ex_reachable|].
  apply (single_edge_component ex_terminals ex_isTerminal tt ex_store ex_edge
           20%nat 21%nat 5 ex_instance_ok ex_reachable
           (reflexivity _) eq_refl ex_edge_ends eq_refl eq_refl).
Defined.

Lemma ex_terminals_nonempty : ex_terminals ≠ [].
Proof. discriminate. Defined.

Lemma ex_mst_ok (sC : nat) (G1 : EdgeWeightedGraph) :
  with_zero_edges ex_terminals ex_loss_store = Some (sC, G1) →
  mst_ok ex_loss_store (ex_mst sC G1).1.
Proof.
  intros _. exists (λ u, match u with 3 => 1 | _ => 0 end)%nat, 2%nat.
  split; [intros u; repeat (destruct u as [|u]; try lia)|].
  intros u e Hu He.
  destruct u as [|[|[|[|u]]]]; simpl in He; try discriminate.
  - destruct (Hu 2%nat). vm_compute. reflexivity.
  - destruct (Hu 3%nat). vm_compute. reflexivity.
  - injection He as <-. exists (EdgeE 0 3 2). split; [vm_compute; reflexivity|].
    vm_compute. lia.
Defined.

Lemma loss_conservation_witness :
  instance_ok ex_terminals ex_isTerminal ∧
  reachable ex_terminals ex_isTerminal LossMetadata0 (store ex_losses) ∧
  (∀ fuel ls', computeAllLosses ex_terminals ex_isTerminal ex_mst fuel ex_losses = Some ls' →
     size (store ls') = size (store ex_losses) ∧
     ∃ sC G1, with_zero_edges ex_terminals (store ex_losses) = Some (sC, G1) ∧
     ∀ id, 0 ≤ id < size (store ls') →
       ∃ l bs c vis n,
         loss_of ls' id = Some l ∧ lossBridges ls' id = Some bs ∧
         cost_of (store ls') id = Some c ∧ cost_of (store ex_losses) id = Some c ∧
         l + Zsum (edge_weight (m_graph (store ls')) <$> bs) = c ∧
         (∀ fuel', (n ≤ fuel')%nat →
            visited ex_isTerminal fuel' (store ls') id = Some vis) ∧
         NoDup (theEdge <$> vis) ∧
         l = Zsum (edge_weight (m_graph (store ls')) <$>
                     filter (λ e, (ex_mst sC G1).2 e = true) (theEdge <$> vis)) ∧
         bs = filter (λ e, (ex_mst sC G1).2 e = false) (theEdge <$> vis)) ∧
  ∃ n, ∀ fuel, (n ≤ fuel)%nat →
    is_Some (computeAllLosses ex_terminals ex_isTerminal ex_mst fuel ex_losses).
Proof.
  split; [apply ex_instance_ok|]. split; [apply ex_loss_reachable|].
  destruct (loss_conservation ex_terminals ex_isTerminal ex_mst ex_losses
              ex_instance_ok ex_loss_reachable) as [Hpartial Htotal].
  split; [apply Hpartial|]. apply Htotal; [apply ex_terminals_nonempty|apply ex_mst_ok].
Defined.

(** On the instance: the edge 0 is the loss edge of the star, the edges 2
    and 1 are its bridges, and 2 + (4 + 3) is the cost 9. *)
Lemma ex_losses_run :
  ∃ ls', computeAllLosses ex_terminals ex_isTerminal ex_mst 3 ex_losses = Some ls' ∧
    loss_of ls' 0 = Some 2 ∧ lossBridges ls' 0 = Some [2; 1]%nat ∧
    cost_of (store ls') 0 = Some 9 ∧
    edge_weight (m_graph (store ls')) <$> [2; 1]%nat = [4; 3] ∧
    lossTerminal ls' 3 = Some 1%nat.
Proof. eexists. split; [vm_compute; reflexivity|]. split_and!; vm_compute; reflexivity. Qed.

(** On the instance: [computeAllLosses()] adds to the loss and the bridges
    a record already has, so a second run on the same store counts every
    edge once more. *)
Lemma ex_losses_twice :
  ∃ ls' ls'', computeAllLosses ex_terminals ex_isTerminal ex_mst 3 ex_losses = Some ls' ∧
    computeAllLosses ex_terminals ex_isTerminal ex_mst 3 ls' = Some ls'' ∧
    loss_of ls'' 0 = Some 4 ∧ lossBridges ls'' 0 = Some [2; 1; 2; 1]%nat ∧
    cost_of (store ls'') 0 = Some 9.
Proof.
  eexists _, _. split; [vm_compute; reflexivity|].
  split; [vm_compute; reflexivity|]. split_and!; vm_compute; reflexivity.
Qed.

(** ** More on the loss extension: [findLossTerminal] and [lossTerminal] *)

Section LossTerminal.
Context (G : EdgeWeightedGraph) (pred : nat → option nat).

(** The predecessor edges lead from [u] over the nodes [path], none of which
    has a loss terminal yet, to a node whose loss terminal is [t]. *)
Inductive leads (lt : gmap nat nat) : list nat → nat → nat → Prop :=
| leads_here u t : lt !! u = Some t → leads lt [] u t
| leads_step u e r path t :
    lt !! u = None → pred u = Some e → edges G !! e = Some r →
    leads lt path (opposite r u) t → leads lt (u :: path) u t.

(** The predecessor edges lead from [u] over [path] to a node that has no
    loss terminal and no predecessor edge. *)
Inductive dead_end (lt : gmap nat nat) : list nat → nat → Prop :=
| dead_here u : lt !! u = None → pred u = None → dead_end lt [] u
| dead_step u e r path :
    lt !! u = None → pred u = Some e → edges G !! e = Some r →
    dead_end lt path (opposite r u) → dead_end lt (u :: path) u.

(** X1: when the predecessor edges lead from [u] to a node with the loss
    terminal [t], [findLossTerminal(u, pred)] returns [t] and records [t]
    for [u] and for every node on the way; no other entry of
    [m_lossTerminal] changes. *)
Theorem findLossTerminal_records (lt : gmap nat nat) (path : list nat) (u t : nat)
    (fuel : nat) :
  leads lt path u t → (length path ≤ fuel)%nat →
  findLossTerminal fuel G pred lt u
  = Some (foldr (λ v m, <[v := t]> m) lt path, Some t).
Proof.
  intros Hleads. revert fuel.
  induction Hleads as [u t Hu|u e r path t Hu He Hr _ IH]; intros fuel Hfuel.
  - destruct fuel; cbn [findLossTerminal foldr]; rewrite Hu; by destruct (pred u).
  - destruct fuel as [|fuel]; [simpl in Hfuel; lia|].
    cbn [findLossTerminal foldr]. rewrite Hu, He, Hr. cbn [mbind option_bind].
    rewrite IH by (simpl in Hfuel; lia). cbn [mbind option_bind].
    by rewrite lookup_insert_eq.
Qed.

(** X2: when the predecessor edges end at a node without loss terminal,
    [findLossTerminal(u, pred)] returns null and [m_lossTerminal] is as
    before. *)
Theorem findLossTerminal_dead_end (lt : gmap nat nat) (path : list nat) (u : nat)
    (fuel : nat) :
  dead_end lt path u → (length path ≤ fuel)%nat →
  findLossTerminal fuel G pred lt u = Some (lt, None).
Proof.
  intros Hdead. revert fuel.
  induction Hdead as [u Hu He|u e r path Hu He Hr _ IH]; intros fuel Hfuel.
  - destruct fuel; cbn [findLossTerminal]; by rewrite Hu, He.
  - destruct fuel as [|fuel]; [simpl in Hfuel; lia|].
    cbn [findLossTerminal]. rewrite Hu, He, Hr. cbn [mbind option_bind].
    rewrite IH by (simpl in Hfuel; lia). cbn [mbind option_bind].
    rewrite delete_id by done. by rewrite Hu.
Qed.

(** The entries of [lt] are kept in [lt'], and every value of [lt'] is a
    value of [lt]. *)
Definition lt_extends (lt lt' : gmap nat nat) : Prop :=
  (∀ v x, lt !! v = Some x → lt' !! v = Some x) ∧
  (∀ v x, lt' !! v = Some x → ∃ w, lt !! w = Some x).

Lemma lt_extends_refl lt : lt_extends lt lt.
Proof. split; eauto. Qed.

Lemma lt_extends_trans lt1 lt2 lt3 :
  lt_extends lt1 lt2 → lt_extends lt2 lt3 → lt_extends lt1 lt3.
Proof.
  intros [H1 H2] [H3 H4]. split; [eauto|].
  intros v x Hv. destruct (H4 v x Hv) as [w Hw]. eauto.
Qed.

Lemma findLossTerminal_extends (fuel : nat) :
  ∀ lt u lt' res, findLossTerminal fuel G pred lt u = Some (lt', res) →
  lt_extends lt lt' ∧ res = lt' !! u.
Proof.
  induction fuel as [|fuel IH]; intros lt u lt' res; cbn [findLossTerminal].
  - destruct (lt !! u) eqn:Hu; [|destruct (pred u); [done|]];
      intros [= <- <-]; (split; [apply lt_extends_refl|done]).
  - destruct (lt !! u) eqn:Hu.
    { intros [= <- <-]. split; [apply lt_extends_refl|done]. }
    destruct (pred u) as [e|].
    2:{ intros [= <- <-]. split; [apply lt_extends_refl|done]. }
    destruct (edges G !! e) as [r|]; cbn [mbind option_bind]; [|done].
    destruct (findLossTerminal fuel G pred lt (opposite r u)) as [[lt1 res1]|] eqn:Hrec;
      cbn [mbind option_bind]; [|done].
    apply IH in Hrec as [[Hkeep Hvals] Hres1]. intros [= <- <-]. split; [|done].
    destruct res1 as [t|]; split.
    + intros v x Hv. rewrite lookup_insert_ne; [by apply Hkeep|]. congruence.
    + intros v x. rewrite lookup_insert. case_decide; [|by apply Hvals].
      intros [= <-]. symmetry in Hres1. by apply Hvals in Hres1.
    + intros v x Hv. rewrite lookup_delete_ne; [by apply Hkeep|]. congruence.
    + intros v x. rewrite lookup_delete. case_decide; [done|]. by apply Hvals.
Qed.

Lemma classify_extends fuel isLossEdge adj x lt x' lt' :
  classify fuel G pred isLossEdge adj (x, lt) = Some (x', lt') → lt_extends lt lt'.
Proof.
  unfold classify. destruct (edges G !! theEdge adj) as [r|]; cbn [mbind option_bind]; [|done].
  destruct (isLossEdge (theEdge adj)).
  { intros [= _ <-]. apply lt_extends_refl. }
  destruct (findLossTerminal fuel G pred lt (source r)) as [[lt1 ?]|] eqn:H1;
    cbn [mbind option_bind]; [|done].
  destruct (findLossTerminal fuel G pred lt1 (target r)) as [[lt2 ?]|] eqn:H2;
    cbn [mbind option_bind]; [|done].
  intros [= _ <-]. apply findLossTerminal_extends in H1 as [H1 _].
  apply findLossTerminal_extends in H2 as [H2 _]. by eapply lt_extends_trans.
Qed.

End LossTerminal.

Section WalkInvariant.
Context (m_isTerminal : nat → bool) {Y : Type}.

(** What the callback keeps, the walk keeps. *)
Lemma foreach_walk_keeps {A} (I : A → Prop) (s : Store Y) cap
    (f : adjEntry → A → option A) :
  (∀ a x y, I x → f a x = Some y → I y) →
  ∀ fuel stack acc r,
    foreach_walk m_isTerminal fuel s cap f stack acc = Some r → I acc → I r.
Proof.
  intros Hf. induction fuel as [|fuel IH]; intros stack acc r.
  - destruct stack; [|done]. by intros [= <-].
  - destruct stack as [|top stack]; [by intros [= <-]|]. cbn [foreach_walk].
    destruct (f (twin top) acc) as [acc'|] eqn:Hacc; cbn [mbind option_bind]; [|done].
    destruct (theNode (m_graph s) (twin top)) as [v|]; cbn [mbind option_bind]; [|done].
    destruct (isTerminal m_isTerminal s v) as [[]|]; cbn [mbind option_bind]; [| |done].
    + intros Hw Hi. eapply IH; [done|]. by eapply Hf.
    + destruct (adjEntries (m_graph s) !! v); cbn [mbind option_bind]; [|done].
      destruct (cyclicSucc _ _); cbn [mbind option_bind]; [|done].
      destruct (push_others _ _ _ _ _ _); cbn [mbind option_bind]; [|done].
      intros Hw Hi. eapply IH; [done|]. by eapply Hf.
Qed.

Lemma foreachAdjEntry_keeps {A} (I : A → Prop) (s : Store Y) id
    (f : adjEntry → A → option A) fuel acc r :
  (∀ a x y, I x → f a x = Some y → I y) →
  foreachAdjEntry m_isTerminal fuel s id f acc = Some r → I acc → I r.
Proof.
  intros Hf. unfold foreachAdjEntry.
  destruct (component s id) as [c|]; cbn [mbind option_bind]; [|done].
  destruct (start c) as [st|]; cbn [mbind option_bind]; [|done].
  case_decide; [intros Hr Hi; by eapply Hf|].
  destruct (stack_push _ _ _); cbn [mbind option_bind]; [|done].
  by apply foreach_walk_keeps.
Qed.

End WalkInvariant.

Section LossFrame.
Context (m_terminals : list nat) (m_isTerminal : nat → bool).
Context (computeMinST : nat → EdgeWeightedGraph → (nat → option nat) * (nat → bool)).
Implicit Types (s : Store LossMetadata) (ls : LossStore).

Lemma loss_step_extends fuel pred isLossEdge ls id ls' :
  loss_step m_isTerminal fuel pred isLossEdge (Some ls) id = Some ls' →
  lt_extends (m_lossTerminal ls) (m_lossTerminal ls').
Proof.
  unfold loss_step. cbn [mbind option_bind].
  destruct (component (store ls) (Z.of_nat id)) as [c|]; cbn [mbind option_bind]; [|done].
  destruct (foreachAdjEntry _ _ _ _ _ _) as [[x lt]|] eqn:Hwalk;
    cbn [mbind option_bind]; [|done].
  intros [= <-]. cbn [m_lossTerminal].
  apply (foreachAdjEntry_keeps m_isTerminal
           (λ st, lt_extends (m_lossTerminal ls) st.2)) in Hwalk.
  - done.
  - intros a [x1 lt1] [x2 lt2] Hi Hcl. cbn [snd] in *.
    eapply lt_extends_trans; [done|]. by eapply classify_extends.
  - apply lt_extends_refl.
Qed.

Lemma loss_fold_extends fuel pred isLossEdge (ids : list nat) :
  ∀ ls ls', foldl (loss_step m_isTerminal fuel pred isLossEdge) (Some ls) ids = Some ls' →
  lt_extends (m_lossTerminal ls) (m_lossTerminal ls').
Proof.
  induction ids as [|id ids IH]; intros ls ls'; cbn [foldl].
  - intros [= <-]. apply lt_extends_refl.
  - destruct (loss_step m_isTerminal fuel pred isLossEdge (Some ls) id) as [ls1|] eqn:Hstep.
    2:{ by rewrite loss_fold_None. }
    intros Hfold. eapply lt_extends_trans; [by eapply loss_step_extends|by apply IH].
Qed.

(** The first loop of [computeAllLosses]: what it leaves in
    [m_lossTerminal]. *)
Lemma zero_fold_terminals (cp : gmap nat nat) (sC : nat) (vs : list nat) :
  (∀ v v' c, cp !! v = Some c → cp !! v' = Some c → v = v') →
  ∀ done G lt zs G' lt' zs',
  foldl (add_zero_edge cp sC) (Some (G, lt, zs)) vs = Some (G', lt', zs') →
  (∀ v c, v ∈ done → cp !! v = Some c → lt !! c = Some v) →
  (∀ c v, lt !! c = Some v → v ∈ done) →
  (∀ v c, v ∈ done ++ vs → cp !! v = Some c → lt' !! c = Some v) ∧
  (∀ c v, lt' !! c = Some v → v ∈ done ++ vs).
Proof.
  intros Hinj. induction vs as [|v vs IH]; intros done G lt zs G' lt' zs'; cbn [foldl].
  - intros [= <- <- <-]. by rewrite app_nil_r.
  - unfold add_zero_edge at 2. cbn [mbind option_bind].
    destruct (cp !! v) as [vC|] eqn:HvC; cbn [mbind option_bind].
    2:{ intros Hfold. exfalso. clear -Hfold.
        induction vs as [|w vs IHvs]; [done|]. by apply IHvs. }
    destruct (newEdge G sC vC 0) as [[e G1]|]; cbn [mbind option_bind].
    2:{ intros Hfold. exfalso. clear -Hfold.
        induction vs as [|w vs IHvs]; [done|]. by apply IHvs. }
    intros Hfold Hset Hvals.
    rewrite (cons_middle v done vs), app_assoc.
    eapply (IH (done ++ [v])); [done| |].
    + intros w c [Hw| ->%list_elem_of_singleton]%elem_of_app Hc.
      * destruct (decide (vC = c)) as [<-|Hne].
        -- assert (v = w) as -> by by eapply Hinj. by rewrite lookup_insert_eq.
        -- rewrite lookup_insert_ne by done. by apply Hset.
      * assert (c = vC) as -> by congruence. by rewrite lookup_insert_eq.
    + intros c w. rewrite lookup_insert. case_decide.
      * intros [= <-]. apply elem_of_app. right. left.
      * intros Hc. apply elem_of_app. left. by eapply Hvals.
Qed.

End LossFrame.

Section LossMore.
Context (m_terminals : list nat) (m_isTerminal : nat → bool).
Context (computeMinST : nat → EdgeWeightedGraph → (nat → option nat) * (nat → bool)).
Notation store_ok := (store_ok m_terminals m_isTerminal).
Notation reachable := (reachable m_terminals m_isTerminal LossMetadata0).
Notation instance_ok := (instance_ok m_terminals m_isTerminal).
Notation computeAll := (computeAllLosses m_terminals m_isTerminal computeMinST).
Implicit Types (s : Store LossMetadata) (ls : LossStore).

(** X3: after [computeAllLosses()] the loss terminal of the node of every
    terminal is that terminal, and every loss terminal that is set is a
    terminal of the instance. *)
Theorem lossTerminal_of_terminals ls fuel ls' :
  instance_ok → reachable (store ls) → computeAll fuel ls = Some ls' →
  (∀ t v, m_nodeCopy (store ls) !! t = Some v → lossTerminal ls' v = Some t) ∧
  (∀ v t, lossTerminal ls' v = Some t → t ∈ m_terminals ∧ m_isTerminal t = true).
Proof.
  intros Hinst Hreach Hrun. set (s := store ls) in *.
  pose proof (reachable_ok _ _ _ Hinst s Hreach) as Hok.
  unfold computeAllLosses in Hrun. fold s in Hrun.
  destruct m_terminals as [|t0 ts] eqn:Hts; [done|]. cbn [head tail mbind option_bind] in Hrun.
  destruct (m_nodeCopy s !! t0) as [sC|] eqn:HsC; cbn [mbind option_bind] in Hrun; [|done].
  destruct (foldl _ _ ts) as [[[G1 lt] zs]|] eqn:Hzero; cbn [mbind option_bind] in Hrun; [|done].
  destruct (computeMinST sC G1) as [pred isLossEdge].
  destruct (foldl _ (Some G1) zs) as [G2|]; cbn [mbind option_bind] in Hrun; [|done].
  apply loss_fold_extends in Hrun as [Hkeep Hvals]. cbn [m_lossTerminal] in *.
  destruct (zero_fold_terminals (m_nodeCopy s) sC ts) with
    (done := [t0]) (G := m_graph s) (lt := ({[sC := t0]} : gmap nat nat)) (zs := @nil nat)
    (G' := G1) (lt' := lt) (zs' := zs) as [Hset Hfrom]; [|done| | |].
  { intros v v' c Hv Hv'. apply (sok_copy_orig _ _ _ Hok) in Hv as [Hv _].
    apply (sok_copy_orig _ _ _ Hok) in Hv' as [Hv' _]. congruence. }
  { intros v c ->%list_elem_of_singleton Hc. assert (c = sC) as -> by congruence.
    by rewrite lookup_singleton_eq. }
  { intros c v [_ <-]%lookup_singleton_Some. left. }
  split.
  - intros t v Hv. unfold lossTerminal. apply Hkeep. apply Hset; [|done].
    change (t ∈ t0 :: ts). apply (sok_copy_dom _ _ _ Hok). fold s. by eauto.
  - intros v t Hv. destruct (Hvals v t Hv) as [w Hw].
    apply Hfrom in Hw. change (t ∈ t0 :: ts) in Hw. split; [done|]. by apply Hinst.
Qed.

(** X4: [computeAllLosses()] fails when the instance has no terminal; when
    it comes back, the zero-cost edges are gone again: the shared graph
    has the nodes, edges and adjacency lists it had, the tables between
    original and shared nodes are as before, and every record keeps its
    terminals, its cost and its start handle. *)
Theorem computeAllLosses_frame ls :
  instance_ok → reachable (store ls) →
  (m_terminals = [] → ∀ fuel, computeAll fuel ls = None) ∧
  (∀ fuel ls', computeAll fuel ls = Some ls' →
     same_graph (m_graph (store ls)) (m_graph (store ls')) ∧
     m_nodeCopy (store ls') = m_nodeCopy (store ls) ∧
     m_nodeOrig (store ls') = m_nodeOrig (store ls) ∧
     size (store ls') = size (store ls) ∧
     ∀ id, terminals_of (store ls') id = terminals_of (store ls) id ∧
           cost_of (store ls') id = cost_of (store ls) id ∧
           start_of (store ls') id = start_of (store ls) id).
Proof.
  intros Hinst Hreach. set (s := store ls) in *.
  pose proof (reachable_ok _ _ _ Hinst s Hreach) as Hok.
  split.
  { intros Hts fuel. unfold computeAllLosses. by rewrite Hts. }
  intros fuel ls' Hrun. destruct m_terminals as [|t ts] eqn:Hts.
  { by unfold computeAllLosses in Hrun. }
  rewrite <-Hts in *.
  destruct (computeAllLosses_unfold m_terminals m_isTerminal computeMinST ls t ts Hok Hts)
    as (sC & G1 & lt & G2 & _ & Hsame & _ & Hunfold).
  rewrite Hunfold in Hrun. fold s in Hrun.
  destruct (walk_facts_exists m_terminals m_isTerminal s Hok) as [n Hwalks].
  apply (loss_fold_inv m_isTerminal s n G2 _ (computeMinST sC G1).2) with (P := []) in Hrun;
    [|done|done|apply NoDup_seq|by intros ? _ ?%elem_of_nil|].
  2:{ split; cbn [store m_graph m_nodeCopy m_nodeOrig m_components]; try done.
      intros j c Hc. exists c. split_and!; try done. by intros ?%elem_of_nil. }
  destruct Hrun as [Hg Hcp Hog Hlen Hrec].
  rewrite Hg. split; [done|]. split; [done|]. split; [done|].
  split; [by rewrite !size_length, Hlen|].
  intros id. unfold terminals_of, cost_of, start_of, assert_id.
  rewrite !size_length, Hlen. case_decide as Hid; cbn [mbind option_bind]; [|done].
  destruct (lookup_lt_is_Some_2 (m_components s) (Z.to_nat id)) as [c Hc]; [lia|].
  destruct (Hrec _ c Hc) as (c' & Hc' & Hst & Hterm & Hcost & _).
  rewrite (proj2 (component_lookup s id c)) by (split; [lia|done]).
  rewrite (proj2 (component_lookup (store ls') id c')) by (split; [lia|done]).
  cbn [fmap option_fmap option_map]. by rewrite Hst, Hterm, Hcost.
Qed.

(** X5: [loss(id)] and [lossBridges(id)] are checked against the size like
    the other queries, and before [computeAllLosses()] they are 0 and the
    empty list for every record: [insert] leaves the extra data as its
    default constructor makes it. *)
Theorem loss_before_computeAllLosses ls id :
  instance_ok → reachable (store ls) →
  (0 ≤ id < size (store ls) → loss_of ls id = Some 0 ∧ lossBridges ls id = Some []) ∧
  (¬ (0 ≤ id < size (store ls)) → loss_of ls id = None ∧ lossBridges ls id = None).
Proof.
  intros Hinst Hreach. unfold loss_of, lossBridges, assert_id. split; intros Hid.
  - rewrite !decide_True by done. cbn [mbind option_bind].
    destruct (component_Some (store ls) id Hid) as [c Hc]. rewrite Hc.
    pose proof Hc as [_ Hc']%component_lookup.
    pose proof (reachable_extra _ _ _ _ Hinst Hreach) as Hextra.
    cbn [fmap option_fmap option_map].
    by rewrite (Forall_lookup_1 _ _ _ _ Hextra Hc').
  - by rewrite !decide_False by done.
Qed.

End LossMore.

(** ** More on the store: terminal lists and terminal nodes *)

Lemma insert_sorted_sorted (x : nat) (l : list nat) :
  StronglySorted le l → StronglySorted le (insert_sorted x l).
Proof.
  induction l as [|y l IH]; intros Hl; cbn [insert_sorted].
  - apply SSorted_cons; [apply SSorted_nil|apply Forall_nil_2].
  - apply StronglySorted_cons in Hl as [Hy Hl]. case_decide as Hxy.
    + apply SSorted_cons; [by apply SSorted_cons|].
      apply Forall_cons. split; [done|].
      eapply Forall_impl; [done|]. intros z Hz. simpl in Hz. lia.
    + apply SSorted_cons; [by apply IH|].
      rewrite insert_sorted_perm. apply Forall_cons. split; [lia|done].
Qed.

Lemma quicksort_sorted (l : list nat) : StronglySorted le (quicksort l).
Proof.
  induction l as [|x l IH]; [apply SSorted_nil|]. by apply insert_sorted_sorted.
Qed.

Lemma sorted_NoDup_strict (l : list nat) :
  StronglySorted le l → NoDup l → StronglySorted lt l.
Proof.
  induction l as [|x l IH]; intros Hl Hnd; [apply SSorted_nil|].
  apply StronglySorted_cons in Hl as [Hx Hl]. apply NoDup_cons in Hnd as [Hnew Hnd].
  apply SSorted_cons; [by apply IH|].
  apply Forall_forall. intros y Hy. rewrite Forall_forall in Hx.
  specialize (Hx y Hy). assert (x ≠ y) by (intros ->; done). lia.
Qed.

Section TerminalLists.
Context (m_terminals : list nat) (m_isTerminal : nat → bool) {Y : Type} (extra0 : Y).
Notation store_ok := (store_ok m_terminals m_isTerminal).
Notation reachable := (reachable m_terminals m_isTerminal extra0).
Notation instance_ok := (instance_ok m_terminals m_isTerminal).
Implicit Types (s : Store Y).

(** The terminal list of a record: ascending without repetition, and made
    of terminals of the instance. *)
Definition terminals_ok (c : Metadata Y) : Prop :=
  StronglySorted lt (terminals c) ∧ Forall (λ t, m_isTerminal t = true) (terminals c).

Lemma reachable_terminals_ok s :
  instance_ok → reachable s → Forall terminals_ok (m_components s).
Proof.
  intros Hinst. induction 1 as [|s comp s' Hreach IH Hfc Hins|s fuel id s' _ IH Hrem].
  - unfold init. destruct (foldl _ _ _) as [[? ?] ?]. apply Forall_nil_2.
  - pose proof (reachable_ok _ _ extra0 Hinst s Hreach) as Hok.
    destruct (fixed_insert m_terminals m_isTerminal extra0 Hinst s comp Hok Hfc)
      as (s'' & c & Hins' & _ & Hcomps & _ & _ & Hterm & _).
    rewrite Hins in Hins'. injection Hins' as ->. rewrite Hcomps.
    apply Forall_app. split; [done|]. apply Forall_singleton. split; rewrite Hterm.
    + apply sorted_NoDup_strict; [apply quicksort_sorted|].
      rewrite quicksort_perm. apply NoDup_fmap_2_strong.
      * intros x y Hx%list_elem_of_filter Hy%list_elem_of_filter.
        apply (fc_injective _ _ Hfc); tauto.
      * apply NoDup_filter. apply (isTree_NoDup _ _ (fc_tree _ _ Hfc)).
    + rewrite quicksort_perm. apply Forall_forall.
      intros t (v & -> & [Hv _]%list_elem_of_filter)%list_elem_of_fmap.
      apply Hinst. by apply (sok_copy_dom _ _ _ Hok).
  - unfold remove in Hrem.
    destruct (component s id) as [c|] eqn:Hc; cbn [mbind option_bind] in Hrem; [|done].
    destruct (remove_in_graph _ _ _ _); cbn [mbind option_bind] in Hrem; [|done].
    apply component_lookup in Hc as [Hid Hc].
    destruct (remove_record_Some _ _ _ Hid Hc) as (l' & Hl' & Hperm & _).
    rewrite Hl' in Hrem. cbn [mbind option_bind] in Hrem. injection Hrem as <-.
    cbn [m_components]. rewrite Hperm in IH. by apply Forall_cons in IH as [_ ?].
Qed.

(** X6: in every store built by the constructor, [insert] and [remove],
    [terminals(id)] is strictly ascending by node index (so without
    repetition) and has at least two entries, all of them terminals of
    the instance. *)
Theorem terminals_sorted s id (l : list nat) :
  instance_ok → reachable s → terminals_of s id = Some l →
  StronglySorted lt l ∧ (2 ≤ length l)%nat ∧
  Forall (λ t, m_isTerminal t = true) l.
Proof.
  intros Hinst Hreach Hl.
  pose proof (reachable_ok _ _ extra0 Hinst s Hreach) as Hok.
  unfold terminals_of, assert_id in *.
  case_decide as Hid; cbn [mbind option_bind] in *; [|done].
  destruct (component s id) as [c|] eqn:Hc; cbn [fmap option_fmap option_map] in Hl; [|done].
  injection Hl as <-.
  pose proof Hc as [_ Hc']%component_lookup.
  destruct (Forall_lookup_1 _ _ _ _ (reachable_terminals_ok s Hinst Hreach) Hc')
    as [Hsorted Hterm].
  destruct (store_ok_component m_terminals m_isTerminal s id c Hok Hc) as (B & HcB & _).
  split; [done|]. split; [|done].
  rewrite (cok_terminals _ _ _ _ HcB). pose proof (br_leaves_pos B). lia.
Qed.

End TerminalLists.

Section TerminalNodes.
Context (m_terminals : list nat) (m_isTerminal : nat → bool) {Y : Type} (extra0 : Y).
Notation store_ok := (store_ok m_terminals m_isTerminal).
Notation reachable := (reachable m_terminals m_isTerminal extra0).
Notation instance_ok := (instance_ok m_terminals m_isTerminal).
Implicit Types (s : Store Y).

(** A node of the shared graph whose original is a terminal is the node
    the table of the terminals has for it. *)
Definition orig_ok s : Prop :=
  ∀ v t, m_nodeOrig s !! v = Some t → m_isTerminal t = true → m_nodeCopy s !! t = Some v.

Lemma init_fold_orig (suf : list nat) :
  ∀ pre st, init_inv pre st → NoDup (pre ++ suf) →
  (∀ v t, st.2 !! v = Some t → st.1.2 !! t = Some v) →
  ∀ v t, (foldl init_step st suf).2 !! v = Some t →
         (foldl init_step st suf).1.2 !! t = Some v.
Proof.
  induction suf as [|x suf IH]; intros pre st Hinv Hnd Hst; cbn [foldl]; [done|].
  rewrite (cons_middle x pre suf), app_assoc in Hnd.
  apply (IH (pre ++ [x])); [by apply init_inv_step|done|].
  destruct st as [[G cp] og]. destruct Hinv as [_ Hdom _ Hbound]. cbn [fst snd] in *.
  assert (x ∉ pre) as Hx.
  { apply NoDup_app in Hnd as [Hnd _]. apply NoDup_app in Hnd as (_ & Hnd & _).
    intros Hin. apply (Hnd x Hin). left. }
  cbn [init_step newNode fst snd]. intros v t. rewrite lookup_insert. case_decide.
  - intros [= <-]. subst v. by rewrite lookup_insert_eq.
  - intros Hv. specialize (Hst v t Hv). rewrite lookup_insert_ne; [done|].
    intros <-. apply Hx, Hdom. by eauto.
Qed.

Lemma insert_nodes_orig comp (l : list nat) :
  ∀ st v t, in_nodeOrig (foldl (insert_node comp) st l) !! v = Some t →
  in_nodeOrig st !! v = Some t ∨ in_nodeCopy st !! t = None.
Proof.
  induction l as [|x l IH]; intros st v t; cbn [foldl]; [by left|].
  intros [Hv|Hv]%IH; unfold insert_node in Hv;
    destruct (in_nodeCopy st !! c_original comp x) eqn:Hx; simpl in Hv; try by left.
  - rewrite lookup_insert in Hv. case_decide; [|by left].
    injection Hv as <-. by right.
  - by right.
  - rewrite lookup_insert in Hv. case_decide; [done|]. by right.
Qed.

Lemma insert_nodeOrig s comp s' :
  insert m_isTerminal extra0 s comp = Some s' →
  m_nodeOrig s' = in_nodeOrig (nodes_after s comp).
Proof.
  unfold insert. case_decide; [done|].
  destruct (insert_edges _ _ _ _ _); cbn [mbind option_bind]; [|done]. by intros [= <-].
Qed.

Lemma reachable_orig_ok s :
  instance_ok → NoDup m_terminals → reachable s → orig_ok s.
Proof.
  intros Hinst Hnd. induction 1 as [|s comp s' Hreach IH Hfc Hins|s fuel id s' _ IH Hrem].
  - intros v t Hv _. unfold init in *.
    pose proof (init_fold_orig m_terminals [] (emptyGraph, ∅, ∅)) as Hfold.
    destruct (foldl init_step (emptyGraph, ∅, ∅) m_terminals) as [[G cp] og].
    cbn [m_nodeOrig m_nodeCopy fst snd] in *. apply Hfold; try done.
    split; cbn [fst snd].
    + split; simpl.
      * intros x l a. by rewrite lookup_empty.
      * intros x. rewrite lookup_empty. by intros [? ?].
      * intros e. rewrite lookup_empty. by intros [? ?].
    + intros w. rewrite lookup_empty. split; [by intros [? ?]|by intros ?%elem_of_nil].
    + intros t' c. by rewrite lookup_empty.
    + intros w. rewrite lookup_empty. by intros [? ?].
  - pose proof (reachable_ok _ _ extra0 Hinst s Hreach) as Hok.
    destruct (fixed_insert m_terminals m_isTerminal extra0 Hinst s comp Hok Hfc)
      as (s'' & c & Hins' & _ & _ & Hcp & _).
    rewrite Hins in Hins'. injection Hins' as <-.
    intros v t Hv Ht. rewrite Hcp. rewrite (insert_nodeOrig _ _ _ Hins) in Hv.
    apply insert_nodes_orig in Hv as [Hv|Hv]; cbn [in_nodeOrig in_nodeCopy] in Hv.
    + by apply IH.
    + assert (is_Some (m_nodeCopy s !! t)) as [? Hs]; [|congruence].
      apply (sok_copy_dom _ _ _ Hok). by apply Hinst.
  - unfold remove in Hrem.
    destruct (component s id); cbn [mbind option_bind] in Hrem; [|done].
    destruct (remove_in_graph _ _ _ _); cbn [mbind option_bind] in Hrem; [|done].
    destruct (remove_record _ _); cbn [mbind option_bind] in Hrem; [|done].
    injection Hrem as <-. exact IH.
Qed.

(** X7: when the terminal list has no repetition, in every store built
    by the constructor, [insert] and [remove] the table of the terminals and
    [original] are inverse to each other on the terminal nodes:
    [isTerminal(v)] holds exactly for the nodes the table has, and for them
    the table gives [v] back for [original(v)]. *)
Theorem isTerminal_node s :
  instance_ok → NoDup m_terminals → reachable s →
  (∀ t v, m_nodeCopy s !! t = Some v →
          original s v = Some t ∧ isTerminal m_isTerminal s v = Some true) ∧
  (∀ v, isTerminal m_isTerminal s v = Some true →
        ∃ t, original s v = Some t ∧ m_nodeCopy s !! t = Some v).
Proof.
  intros Hinst Hnd Hreach.
  pose proof (reachable_ok _ _ extra0 Hinst s Hreach) as Hok.
  pose proof (reachable_orig_ok s Hinst Hnd Hreach) as Horig.
  unfold isTerminal, original. split.
  - intros t v Hv. destruct (sok_copy_orig _ _ _ Hok _ _ Hv) as [Hog _].
    rewrite Hog. split; [done|]. cbn [fmap option_fmap option_map]. f_equal.
    apply Hinst, (sok_copy_dom _ _ _ Hok). by eauto.
  - intros v Hv. destruct (m_nodeOrig s !! v) as [t|] eqn:Ht; [|done].
    injection Hv as Hv. exists t. split; [done|]. by apply Horig.
Qed.

End TerminalNodes.

(** ** More on the store: what [remove] frees and what [foreachNode] visits *)

(** Running a callback over a list of nodes, in order. *)
Fixpoint visit_nodes {A} (f : nat → A → option A) (l : list nat) (acc : A) : option A :=
  match l with
  | [] => Some acc
  | v :: l' => acc' ← f v acc; visit_nodes f l' acc'
  end.

(** The original node at the end of a handle, as [foreachNode] reads it. *)
Definition handle_orig {Y} (s : Store Y) (back : adjEntry) : option nat :=
  v ← theNode (m_graph s) back; original s v.

(** The non-terminal nodes at the ends of the handles [vis]. *)
Definition visited_steiner {Y} (m_isTerminal : nat → bool) (s : Store Y)
    (vis : list adjEntry) : list nat :=
  filter (λ x, isTerminal m_isTerminal s x = Some false)
         (omap (theNode (m_graph s)) vis).

Section BranchNodes.
Context (m_isTerminal : nat → bool).
Local Open Scope nat_scope.
Notation embeds := (embeds m_isTerminal).
Implicit Types (G : EdgeWeightedGraph) (og : gmap nat nat) (B : branch).

(** The nodes of a branch are the far ends of its handles, in order. *)
Lemma embeds_far_ends G og p B :
  embeds G og p B → omap (twinNode G) (br_entries B) = br_nodes B.
Proof.
  revert p. induction B as [a v subs IH] using branch_induction.
  intros p Hemb. pose proof Hemb as (r & vO & Hr & Hp & Hv & HvO & Hsubs & Hall)%embeds_inv.
  rewrite br_entries_eq, br_nodes_eq. cbn [omap list_omap].
  destruct (embeds_theNode _ _ _ _ _ Hemb) as [_ Htw]. simpl in Htw. rewrite Htw.
  f_equal. clear Hsubs Htw Hemb.
  induction Hall as [|b bs Hb Hbs IHbs]; [done|].
  apply Forall_cons in IH as [IHb IH].
  rewrite !bind_cons, omap_app. f_equal; [by eapply IHb|by apply IHbs].
Qed.

Lemma embeds_inner_iff G og p B x xO :
  embeds G og p B → x ∈ br_nodes B → og !! x = Some xO →
  x ∈ br_inner B ↔ m_isTerminal xO = false.
Proof.
  intros Hemb Hx HxO. split.
  - intros Hin. destruct (embeds_inner _ _ _ _ _ _ Hemb Hin) as (_ & xO' & HxO' & Ht).
    congruence.
  - revert p Hemb Hx. induction B as [a v subs IH] using branch_induction.
    intros p (r & vO & Hr & Hp & Hv & HvO & Hsubs & Hall)%embeds_inv.
    rewrite br_nodes_eq. intros [->|Hx]%elem_of_cons Ht.
    + assert (vO = xO) as -> by congruence. rewrite Ht in Hsubs.
      destruct Hsubs as (l & _ & _ & Hlen).
      rewrite br_inner_nonempty by (intros ->; simpl in Hlen; lia). left.
    + apply list_elem_of_bind in Hx as (b & Hx & Hb).
      rewrite Forall_forall in IH, Hall.
      assert (subs ≠ []) as Hne by (intros ->; by apply elem_of_nil in Hb).
      rewrite br_inner_nonempty by done. right.
      apply list_elem_of_bind. exists b. split; [|done]. by eapply IH; [|apply Hall|..].
Qed.

End BranchNodes.

Section RemoveFrees.
Context (m_terminals : list nat) (m_isTerminal : nat → bool) {Y : Type} (extra0 : Y).
Notation embeds := (embeds m_isTerminal).
Notation component_ok := (component_ok m_isTerminal).
Notation store_ok := (store_ok m_terminals m_isTerminal).
Notation reachable := (reachable m_terminals m_isTerminal extra0).
Notation instance_ok := (instance_ok m_terminals m_isTerminal).
Implicit Types (s : Store Y) (B : branch).

(** The handles a walk has visited are those of the branch of the record. *)
Lemma visited_branch s id c B (fuel0 : nat) (vis : list adjEntry) :
  component s id = Some c → component_ok s c B → NoDup (br_edges B) →
  visited m_isTerminal fuel0 s id = Some vis →
  vis ≡ₚ twin <$> br_entries B ∧
  ∀ fuel A (f : adjEntry → A → option A) acc, (length (br_edges B) ≤ fuel)%nat →
    foreachAdjEntry m_isTerminal fuel s id f acc = visit_all f vis acc.
Proof.
  intros Hc HcB Hnd Hvis.
  destruct (foreachAdjEntry_spec m_isTerminal s id c B Hc HcB Hnd) as (vis' & Hperm & Hwalk).
  unfold visited in Hvis.
  apply (foreachAdjEntry_mono _ _ _ _ _ (fuel0 `max` length (br_edges B))%nat) in Hvis;
    [|lia].
  rewrite Hwalk, visit_all_collect in Hvis by lia. injection Hvis as <-. done.
Qed.

Lemma visited_edges B (vis : list adjEntry) :
  vis ≡ₚ twin <$> br_entries B → theEdge <$> vis ≡ₚ br_edges B.
Proof.
  intros ->. rewrite <-list_fmap_compose, <-br_entries_edges.
  assert (theEdge ∘ twin <$> br_entries B = theEdge <$> br_entries B) as ->; [|done].
  apply list_fmap_ext. by intros _ [e b] _.
Qed.

Lemma visited_nodes s p B (vis : list adjEntry) :
  embeds (m_graph s) (m_nodeOrig s) p B → vis ≡ₚ twin <$> br_entries B →
  omap (theNode (m_graph s)) vis ≡ₚ br_nodes B.
Proof.
  intros Hemb ->. rewrite <-(embeds_far_ends m_isTerminal _ _ _ _ Hemb).
  assert (omap (theNode (m_graph s)) (twin <$> br_entries B)
          = omap (twinNode (m_graph s)) (br_entries B)) as ->; [|done].
  apply list_omap_ext. by induction (br_entries B) as [|a l IH]; constructor.
Qed.

Lemma visited_steiner_inner s p B (vis : list adjEntry) x :
  embeds (m_graph s) (m_nodeOrig s) p B → vis ≡ₚ twin <$> br_entries B →
  x ∈ visited_steiner m_isTerminal s vis ↔ x ∈ br_inner B.
Proof.
  intros Hemb Hvis. unfold visited_steiner.
  rewrite list_elem_of_filter, (visited_nodes s p B vis Hemb Hvis). split.
  - intros [Ht Hx]. unfold isTerminal in Ht.
    destruct (m_nodeOrig s !! x) as [xO|] eqn:HxO; [|done]. injection Ht as Ht.
    by apply (embeds_inner_iff m_isTerminal _ _ _ _ _ _ Hemb Hx HxO).
  - intros Hx. pose proof (br_inner_nodes _ _ Hx) as Hin. split; [|done].
    destruct (embeds_inner _ _ _ _ _ _ Hemb Hx) as (_ & xO & HxO & Ht).
    unfold isTerminal. rewrite HxO. simpl. by rewrite Ht.
Qed.

(** X8: [remove(id)] takes out of the shared graph exactly the edges that
    [foreachAdjEntry(id, ·)] visits and the non-terminal nodes at their ends.
    The tables between original and shared nodes stay as they are, and
    the node of every terminal stays in the graph. *)
Theorem remove_frees_component s id (fuel0 fuel : nat) (vis : list adjEntry) s' :
  instance_ok → reachable s →
  visited m_isTerminal fuel0 s id = Some vis →
  remove m_isTerminal fuel s id = Some s' →
  m_graph s' = prune (m_graph s) (theEdge <$> vis) (visited_steiner m_isTerminal s vis) ∧
  m_nodeCopy s' = m_nodeCopy s ∧ m_nodeOrig s' = m_nodeOrig s ∧
  ∀ t v, m_nodeCopy s !! t = Some v → is_Some (adjEntries (m_graph s') !! v).
Proof.
  intros Hinst Hreach Hvis Hrem.
  pose proof (reachable_ok _ _ extra0 Hinst s Hreach) as Hok.
  destruct (remove_characterise m_terminals m_isTerminal _ _ _ _ Hok Hrem)
    as (c & B & Bs & Bs' & comps' & Hc & HcB & HBs & HndE & HndI & Hperm & _ & _ & ->).
  assert (NoDup (br_edges B)) as HndB.
  { apply (NoDup_bind_elem br_edges Bs); [done|]. rewrite Hperm. left. }
  destruct (visited_branch s id c B fuel0 vis Hc HcB HndB Hvis) as [Hvb _].
  destruct (cok_root _ _ _ _ HcB) as (p & t0 & Hemb & _).
  cbn [m_graph m_nodeCopy m_nodeOrig].
  assert (prune (m_graph s) (br_edges B) (br_inner B)
          = prune (m_graph s) (theEdge <$> vis) (visited_steiner m_isTerminal s vis)) as Heq.
  { apply prune_ext.
    - intros e. by rewrite (visited_edges B vis Hvb).
    - intros x. by rewrite (visited_steiner_inner s p B vis x Hemb Hvb). }
  split; [done|]. split; [done|]. split; [done|].
  intros t v Hv. destruct (sok_copy_orig _ _ _ Hok _ _ Hv) as [Hog [l Hl]].
  rewrite lookup_prune_adj. rewrite decide_False.
  - by rewrite Hl.
  - intros Hin. destruct (embeds_inner _ _ _ _ _ _ Hemb Hin) as (_ & xO & HxO & Ht).
    assert (xO = t) as -> by congruence.
    assert (m_isTerminal t = true); [|congruence].
    apply Hinst, (sok_copy_dom _ _ _ Hok). by eauto.
Qed.

End RemoveFrees.

Section ForeachNode.
Context (m_terminals : list nat) (m_isTerminal : nat → bool) {Y : Type} (extra0 : Y).
Notation embeds := (embeds m_isTerminal).
Notation component_ok := (component_ok m_isTerminal).
Notation store_ok := (store_ok m_terminals m_isTerminal).
Notation reachable := (reachable m_terminals m_isTerminal extra0).
Notation instance_ok := (instance_ok m_terminals m_isTerminal).
Implicit Types (s : Store Y) (B : branch).

Lemma omap_Forall2 {A C : Type} (g : A → option C) (l : list A) :
  (∀ a, a ∈ l → is_Some (g a)) → Forall2 (λ a x, g a = Some x) l (omap g l).
Proof.
  induction l as [|a l IH]; intros Hl; [constructor|].
  destruct (Hl a) as [x Hx]; [left|]. cbn [omap list_omap]. rewrite Hx.
  constructor; [done|]. apply IH. intros b Hb. apply Hl. by right.
Qed.

Lemma visit_all_nodes {A} s (f : nat → A → option A) (vis : list adjEntry) (ns : list nat) :
  Forall2 (λ back x, handle_orig s back = Some x) vis ns →
  ∀ acc,
  visit_all (λ back a, w ← theNode (m_graph s) back; wO ← original s w; f wO a) vis acc
  = visit_nodes f ns acc.
Proof.
  induction 1 as [|back x vis ns Hx _ IH]; intros acc; [done|].
  cbn [visit_all visit_nodes]. unfold handle_orig in Hx.
  destruct (theNode (m_graph s) back) as [w|]; cbn [mbind option_bind] in *; [|done].
  rewrite Hx. cbn [mbind option_bind]. destruct (f x acc); [apply IH|done].
Qed.

Lemma terminal_ends_count s (vis : list adjEntry) :
  length (filter (λ x, m_isTerminal x = true) (omap (handle_orig s) vis))
  = length (filter (term_node m_isTerminal (m_nodeOrig s)) (omap (theNode (m_graph s)) vis)).
Proof.
  induction vis as [|back vis IH]; [done|]. cbn [omap list_omap]. unfold handle_orig at 1.
  destruct (theNode (m_graph s) back) as [w|]; cbn [mbind option_bind]; [|done].
  rewrite filter_cons. unfold original.
  destruct (m_nodeOrig s !! w) as [wO|] eqn:Hw.
  - rewrite filter_cons. destruct (m_isTerminal wO) eqn:Ht.
    + rewrite decide_True by done.
      rewrite decide_True by (unfold term_node; by rewrite Hw).
      simpl. by rewrite IH.
    + rewrite decide_False by congruence.
      rewrite decide_False by (unfold term_node; rewrite Hw; simpl; congruence).
      done.
  - rewrite decide_False by (unfold term_node; by rewrite Hw). done.
Qed.

(** X9: [foreachNode(id, f)] calls [f] first on the original of the node
    the start handle sits on, a terminal, and then once for every handle
    that [foreachAdjEntry(id, ·)] visits, on the original of the node at its
    end; as many of these calls as [terminals(id)] has entries are on
    terminals. *)
Theorem foreachNode_visits s id c :
  instance_ok → reachable s → component s id = Some c →
  ∃ (n : nat) (vis : list adjEntry) (t : nat) (ns : list nat),
    (∀ fuel, (n ≤ fuel)%nat →
       visited m_isTerminal fuel s id = Some vis ∧
       ∀ A (f : nat → A → option A) acc,
         foreachNode m_isTerminal fuel s id f acc = visit_nodes f (t :: ns) acc) ∧
    m_isTerminal t = true ∧
    Forall2 (λ back x, handle_orig s back = Some x) vis ns ∧
    length (filter (λ x, m_isTerminal x = true) (t :: ns)) = length (terminals c).
Proof.
  intros Hinst Hreach Hc.
  pose proof (reachable_ok _ _ extra0 Hinst s Hreach) as Hok.
  destruct (visited_spec m_terminals m_isTerminal s id c Hok Hc)
    as (B & vis & HcB & HndE & Hvis & Hwalk).
  destruct (cok_root _ _ _ _ HcB) as (p & t & Hemb & Hp & Ht).
  destruct (embeds_theNode _ _ _ _ _ Hemb) as [Hnode _].
  assert (Forall2 (λ back x, handle_orig s back = Some x) vis (omap (handle_orig s) vis))
    as Hns.
  { apply omap_Forall2. intros back Hback. rewrite Hvis in Hback.
    apply list_elem_of_fmap in Hback as (a & -> & Ha).
    destruct (embeds_entries_nodes _ _ _ _ _ _ Hemb Ha) as (_ & v & Hv & Hin).
    unfold handle_orig. unfold twinNode in Hv. rewrite Hv. cbn [mbind option_bind].
    by eapply embeds_nodes_og. }
  exists (length (br_edges B)), vis, t, (omap (handle_orig s) vis).
  split; [|split; [done|split; [done|]]].
  - intros fuel Hfuel. split.
    + unfold visited. rewrite Hwalk by done. by rewrite visit_all_collect.
    + intros A f acc. unfold foreachNode, start_of, assert_id.
      rewrite decide_True by by eapply component_range.
      cbn [mbind option_bind]. rewrite Hc. cbn [fmap option_fmap option_map mbind option_bind].
      rewrite (cok_start _ _ _ _ HcB). cbn [mbind option_bind].
      rewrite Hnode. cbn [mbind option_bind].
      change (original s p) with (m_nodeOrig s !! p). rewrite Hp.
      cbn [mbind option_bind visit_nodes].
      destruct (f t acc) as [acc'|]; cbn [mbind option_bind]; [|done].
      rewrite Hwalk by done. by apply visit_all_nodes.
  - rewrite filter_cons, decide_True by done. cbn [length].
    rewrite terminal_ends_count, (visited_nodes m_isTerminal s p B vis Hemb Hvis).
    by rewrite <-(embeds_leaves _ _ _ _ _ Hemb), (cok_terminals _ _ _ _ HcB).
Qed.

End ForeachNode.

Section ComponentSize.
Context (m_terminals : list nat) (m_isTerminal : nat → bool) {Y : Type} (extra0 : Y).
Local Open Scope nat_scope.
Notation embeds := (embeds m_isTerminal).
Notation component_ok := (component_ok m_isTerminal).
Notation reachable := (reachable m_terminals m_isTerminal extra0).
Notation instance_ok := (instance_ok m_terminals m_isTerminal).
Implicit Types (s : Store Y) (B : branch).

(** A branch in which every node with branches has at least two: it has
    fewer than twice as many edges as leaves. *)
Lemma embeds_edges_bound G og p B :
  embeds G og p B → length (br_edges B) + 1 ≤ 2 * br_leaves B.
Proof.
  revert p. induction B as [a v subs IH] using branch_induction.
  intros p (r & vO & Hr & Hp & Hv & HvO & Hsubs & Hall)%embeds_inv.
  rewrite br_edges_eq. cbn [length].
  destruct (m_isTerminal vO).
  { subst subs. simpl. lia. }
  destruct Hsubs as (l & _ & _ & Hlen).
  rewrite br_leaves_nonempty by (intros ->; simpl in Hlen; lia).
  assert (length (subs ≫= br_edges) + length subs ≤ 2 * sum_list (br_leaves <$> subs));
    [|lia].
  clear Hlen. induction Hall as [|b bs Hb Hbs IHbs]; [simpl; lia|].
  apply Forall_cons in IH as [IHb IH]. specialize (IHb _ Hb). specialize (IHbs IH).
  rewrite bind_cons, length_app, fmap_cons.
  set (k := br_leaves b) in *. set (e := length (br_edges b)) in *.
  set (ks := sum_list (br_leaves <$> bs)) in *.
  change (sum_list (k :: (br_leaves <$> bs))) with (k + ks). cbn [length]. lia.
Qed.

Lemma steiner_count s (l : list nat) :
  (∀ x, x ∈ l → is_Some (m_nodeOrig s !! x)) →
  length (filter (λ x, isTerminal m_isTerminal s x = Some false) l)
  + length (filter (term_node m_isTerminal (m_nodeOrig s)) l) = length l.
Proof.
  induction l as [|x l IH]; intros Hl; [done|].
  destruct (Hl x) as [xO HxO]; [left|].
  specialize (IH (λ y Hy, Hl y (list_elem_of_further _ _ _ Hy))).
  rewrite !filter_cons. destruct (m_isTerminal xO) eqn:Ht.
  - rewrite decide_False by (unfold isTerminal; rewrite HxO; simpl; congruence).
    rewrite decide_True by (unfold term_node; by rewrite HxO). cbn [length]. lia.
  - rewrite decide_True by (unfold isTerminal; rewrite HxO; simpl; congruence).
    rewrite decide_False by (unfold term_node; rewrite HxO; simpl; congruence).
    cbn [length]. lia.
Qed.

(** X10: a record with [k] terminals has at most [2k − 3] edges and at
    most [k − 2] non-terminal nodes in the shared graph, and its edges are
    one fewer than its nodes: the handles [foreachAdjEntry(id, ·)] visits
    are [k − 1] more than the non-terminal nodes at their ends. *)
Theorem component_size s id c (fuel : nat) (vis : list adjEntry) :
  instance_ok → reachable s → component s id = Some c →
  visited m_isTerminal fuel s id = Some vis →
  length vis + 3 ≤ 2 * length (terminals c) ∧
  length (visited_steiner m_isTerminal s vis) + 2 ≤ length (terminals c) ∧
  length vis + 1 = length (terminals c) + length (visited_steiner m_isTerminal s vis).
Proof.
  intros Hinst Hreach Hc Hvis.
  pose proof (reachable_ok _ _ extra0 Hinst s Hreach) as Hok.
  destruct (store_ok_component m_terminals m_isTerminal s id c Hok Hc)
    as (B & HcB & HndE & _).
  destruct (visited_branch m_isTerminal s id c B fuel vis Hc HcB HndE Hvis) as [Hperm _].
  destruct (cok_root _ _ _ _ HcB) as (p & t & Hemb & _).
  pose proof (embeds_edges_bound _ _ _ _ Hemb) as Hbound.
  pose proof (visited_edges B vis Hperm) as Hedges.
  pose proof (visited_nodes m_isTerminal s p B vis Hemb Hperm) as Hnodes.
  assert (length vis = length (br_edges B)) as Hlen.
  { by rewrite <-Hedges, length_fmap. }
  assert (length (br_nodes B) = length (br_edges B)) as Hnl.
  { rewrite <-(embeds_far_ends m_isTerminal _ _ _ _ Hemb).
    rewrite br_edges_length. clear -Hemb.
    pose proof (λ a, embeds_entries_nodes m_isTerminal _ _ _ _ a Hemb) as Hall.
    induction (br_entries B) as [|a l IH]; [done|]. cbn [omap list_omap].
    destruct (Hall a) as (_ & v & -> & _); [left|]. cbn [length]. f_equal.
    apply IH. intros b Hb. apply Hall. by right. }
  pose proof (steiner_count s (br_nodes B)) as Hcount.
  rewrite <-(embeds_leaves _ _ _ _ _ Hemb) in Hcount.
  unfold visited_steiner. rewrite Hnodes, (cok_terminals _ _ _ _ HcB).
  specialize (Hcount (λ x Hx, embeds_nodes_og _ _ _ _ _ _ Hemb Hx)).
  set (L := br_leaves B) in *. lia.
Qed.

End ComponentSize.

(** ** What [foreachEdge] visits *)

(** Running a callback over a list of edges, in order. *)
Fixpoint visit_edges {A} (f : EdgeElement → A → option A) (l : list EdgeElement) (acc : A)
  : option A :=
  match l with
  | [] => Some acc
  | e :: l' => acc' ← f e acc; visit_edges f l' acc'
  end.

(** The predecessor edges [pred[u]] followed from [v] until there is
    none. *)
Inductive pred_chain (pred : nat → nat → option EdgeElement) (u : nat)
  : nat → list EdgeElement → Prop :=
| chain_end v : pred u v = None → pred_chain pred u v []
| chain_step v e es :
    pred u v = Some e → pred_chain pred u (opposite e v) es →
    pred_chain pred u v (e :: es).

Lemma visit_edges_app {A} (f : EdgeElement → A → option A) (l k : list EdgeElement) acc :
  visit_edges f (l ++ k) acc = acc' ← visit_edges f l acc; visit_edges f k acc'.
Proof.
  revert acc. induction l as [|e l IH]; intros acc; [done|].
  cbn [app visit_edges]. destruct (f e acc); cbn [mbind option_bind]; [apply IH|done].
Qed.

Lemma path_edges_chain {A} pred (f : EdgeElement → A → option A) u v es :
  pred_chain pred u v es →
  ∀ fuel acc, (length es ≤ fuel)%nat →
  path_edges fuel pred (λ e _, f e) u v acc = visit_edges f es acc.
Proof.
  induction 1 as [v Hv|v e es He _ IH]; intros fuel acc Hfuel.
  - destruct fuel; cbn [path_edges]; by rewrite Hv.
  - destruct fuel as [|fuel]; [simpl in Hfuel; lia|].
    cbn [path_edges visit_edges]. rewrite He.
    destruct (f e acc); cbn [mbind option_bind]; [|done].
    apply IH. simpl in Hfuel. lia.
Qed.

Section ForeachEdge.
Context (m_terminals : list nat) (m_isTerminal : nat → bool) {Y : Type} (extra0 : Y).
Notation reachable := (reachable m_terminals m_isTerminal extra0).
Notation instance_ok := (instance_ok m_terminals m_isTerminal).
Implicit Types (s : Store Y).

(** The path in the original graph that [foreachEdge] walks for the handle
    [back]: from the original at its end along the predecessor edges of the
    original at its other end. *)
Definition handle_path s (pred : nat → nat → option EdgeElement)
    (back : adjEntry) (es : list EdgeElement) : Prop :=
  ∃ x y u v, twinNode (m_graph s) back = Some x ∧ original s x = Some u ∧
             theNode (m_graph s) back = Some y ∧ original s y = Some v ∧
             pred_chain pred u v es.

Lemma visit_all_paths {A} s pred (f : EdgeElement → A → option A) (fuel : nat)
    (vis : list adjEntry) (ess : list (list EdgeElement)) :
  Forall2 (handle_path s pred) vis ess →
  Forall (λ es, (length es ≤ fuel)%nat) ess →
  ∀ acc,
  visit_all (λ back a,
       x ← twinNode (m_graph s) back; u ← original s x;
       y ← theNode (m_graph s) back; v ← original s y;
       path_edges fuel pred (λ e _, f e) u v a) vis acc
  = visit_edges f (concat ess) acc.
Proof.
  induction 1 as [|back es vis ess (x & y & u & v & Hx & Hu & Hy & Hv & Hch) _ IH];
    intros Hlen acc; [done|].
  apply Forall_cons in Hlen as [Hes Hlen].
  cbn [visit_all concat]. rewrite Hx. cbn [mbind option_bind]. rewrite Hu.
  cbn [mbind option_bind]. rewrite Hy. cbn [mbind option_bind]. rewrite Hv.
  cbn [mbind option_bind]. rewrite (path_edges_chain pred f u v es Hch) by done.
  rewrite visit_edges_app. destruct (visit_edges f es acc); cbn [mbind option_bind]; [|done].
  by apply IH.
Qed.

(** X13: [foreachEdge(id, pred, f)] calls [f] on the edges of the
    predecessor paths of the handles that [foreachAdjEntry(id, ·)] visits,
    path after path in the order of the visit and every path from the far
    end of its handle backwards. *)
Theorem foreachEdge_paths s id c :
  instance_ok → reachable s → component s id = Some c →
  ∃ (n : nat) (vis : list adjEntry),
    (∀ fuel, (n ≤ fuel)%nat → visited m_isTerminal fuel s id = Some vis) ∧
    ∀ pred (ess : list (list EdgeElement)) (fuel : nat) A
      (f : EdgeElement → A → option A) acc,
      Forall2 (handle_path s pred) vis ess →
      Forall (λ es, (length es ≤ fuel)%nat) ess → (n ≤ fuel)%nat →
      foreachEdge m_isTerminal fuel s id pred f acc = visit_edges f (concat ess) acc.
Proof.
  intros Hinst Hreach Hc.
  pose proof (reachable_ok _ _ extra0 Hinst s Hreach) as Hok.
  destruct (visited_spec m_terminals m_isTerminal s id c Hok Hc)
    as (B & vis & HcB & HndE & Hvis & Hwalk).
  exists (length (br_edges B)), vis. split.
  - intros fuel Hfuel. unfold visited. rewrite Hwalk by done. by rewrite visit_all_collect.
  - intros pred ess fuel A f acc Hpaths Hlen Hfuel.
    unfold foreachEdge. rewrite Hwalk by done. by apply visit_all_paths.
Qed.

End ForeachEdge.

(** ** What [foreachNode] with predecessors visits on three terminals *)

(** The nodes [foreachNode(id, pred, f)] passes on its way from [v] to
    [u] along the predecessor edges [pred[u]]. *)
Inductive walk_to (pred : nat → nat → option EdgeElement) (u : nat)
  : nat → list nat → Prop :=
| walk_there : walk_to pred u u []
| walk_step v e ns :
    v ≠ u → pred u v = Some e → walk_to pred u (opposite e v) ns →
    walk_to pred u v (opposite e v :: ns).

Lemma visit_nodes_app {A} (f : nat → A → option A) (l k : list nat) acc :
  visit_nodes f (l ++ k) acc = acc' ← visit_nodes f l acc; visit_nodes f k acc'.
Proof.
  revert acc. induction l as [|x l IH]; intros acc; [done|].
  cbn [app visit_nodes]. destruct (f x acc); cbn [mbind option_bind]; [apply IH|done].
Qed.

Lemma path_to_walk {A} pred (f : nat → A → option A) u v ns :
  walk_to pred u v ns →
  ∀ fuel acc, (length ns ≤ fuel)%nat →
  path_to fuel pred f u v acc = visit_nodes f ns acc.
Proof.
  induction 1 as [|v e ns Hne He _ IH]; intros fuel acc Hfuel.
  - destruct fuel; cbn [path_to]; by rewrite decide_True.
  - destruct fuel as [|fuel]; [simpl in Hfuel; lia|].
    cbn [path_to visit_nodes]. rewrite decide_False by done. rewrite He.
    cbn [mbind option_bind]. destruct (f (opposite e v) acc); cbn [mbind option_bind]; [|done].
    apply IH. simpl in Hfuel. lia.
Qed.

Section ForeachNodeThree.
Context (m_terminals : list nat) (m_isTerminal : nat → bool) {Y : Type} (extra0 : Y).
Notation embeds := (embeds m_isTerminal).
Notation reachable := (reachable m_terminals m_isTerminal extra0).
Notation instance_ok := (instance_ok m_terminals m_isTerminal).
Implicit Types (s : Store Y).

(** The original at the other end of a handle of the middle node, and the
    walk to it from the original [hO] of the middle node. *)
Definition spoke s (pred : nat → nat → option EdgeElement) (hO : nat)
    (adj : adjEntry) (ns : list nat) : Prop :=
  ∃ x u, twinNode (m_graph s) adj = Some x ∧ original s x = Some u ∧
         walk_to pred u hO ns.

Lemma hub_fold {A} s pred (f : nat → A → option A) (fuel : nat) (hO : nat)
    (l : list adjEntry) (nss : list (list nat)) :
  Forall2 (spoke s pred hO) l nss →
  Forall (λ ns, (length ns ≤ fuel)%nat) nss →
  ∀ acc, foldl (hub_step fuel s pred f hO) acc l
         = a ← acc; visit_nodes f (concat nss) a.
Proof.
  induction 1 as [|adj ns l nss (x & u & Hx & Hu & Hwalk) _ IH]; intros Hlen acc.
  - by destruct acc.
  - apply Forall_cons in Hlen as [Hns Hlen]. cbn [foldl concat]. rewrite IH by done.
    destruct acc as [a|]; [|done]. unfold hub_step. cbn [mbind option_bind].
    rewrite Hx. cbn [mbind option_bind]. rewrite Hu. cbn [mbind option_bind].
    rewrite (path_to_walk pred f u hO ns Hwalk) by done.
    by rewrite visit_nodes_app.
Qed.

(** X14: on a record with exactly three terminals, [foreachNode(id, pred,
    f)] takes its special path: the node at the other end of the start
    handle is a non-terminal node with exactly three handles, each leading
    to a terminal node; [f] is called on its original and then, for each of
    the three handles in the order of the adjacency list, on the nodes of
    the walk from that original along the predecessor edges to the original
    of the terminal. *)
Theorem foreachNode_pred_three s id c :
  instance_ok → reachable s → component s id = Some c →
  length (terminals c) = 3%nat →
  ∃ (hub hO : nat) (l : list adjEntry),
    adjEntries (m_graph s) !! hub = Some l ∧ length l = 3%nat ∧
    original s hub = Some hO ∧ m_isTerminal hO = false ∧
    Forall (λ adj, ∃ x u, twinNode (m_graph s) adj = Some x ∧
                          original s x = Some u ∧ m_isTerminal u = true) l ∧
    ∀ pred (nss : list (list nat)) (fuel : nat) A (f : nat → A → option A) acc,
      Forall2 (spoke s pred hO) l nss →
      Forall (λ ns, (length ns ≤ fuel)%nat) nss →
      foreachNode_pred m_isTerminal fuel s id pred f acc
      = visit_nodes f (hO :: concat nss) acc.
Proof.
  intros Hinst Hreach Hc Hthree.
  pose proof (reachable_ok _ _ extra0 Hinst s Hreach) as Hok.
  destruct (store_ok_component m_terminals m_isTerminal s id c Hok Hc)
    as (B & [Hst (p & t & Hemb & Hp & Ht) Hterm _ _] & _).
  rewrite Hthree in Hterm. destruct B as [a v subs]. simpl in Hst.
  pose proof Hemb as (r & vO & Hr & Hrp & Hrv & HvO & Hsubs & Hall)%embeds_inv.
  destruct (embeds_theNode _ _ _ _ _ Hemb) as [Hnode Htw]. simpl in Hnode, Htw.
  destruct (m_isTerminal vO) eqn:HtO.
  { subst subs. simpl in Hterm. lia. }
  destruct Hsubs as (l & Hl & Hperm & Hlen).
  rewrite br_leaves_nonempty in Hterm by (intros ->; simpl in Hlen; lia).
  assert (length subs = 2%nat ∧ Forall (λ b, br_leaves b = 1%nat) subs) as [Hlen2 Hleaf].
  { destruct subs as [|b1 [|b2 [|b3 subs]]]; simpl in Hlen; try lia.
    - rewrite !fmap_cons in Hterm. cbn [sum_list sum_list_with fmap list_fmap] in Hterm.
      pose proof (br_leaves_pos b1). pose proof (br_leaves_pos b2).
      split; [done|]. repeat constructor; simpl in *; lia.
    - exfalso. rewrite !fmap_cons in Hterm.
      pose proof (br_leaves_pos b1). pose proof (br_leaves_pos b2).
      pose proof (br_leaves_pos b3).
      pose proof (length_le_leaves subs).
      change (sum_list (br_leaves b1 :: br_leaves b2 :: br_leaves b3 :: (br_leaves <$> subs)))
        with (br_leaves b1 + (br_leaves b2 + (br_leaves b3 + sum_list (br_leaves <$> subs))))%nat
        in Hterm.
      lia. }
  assert (Forall (λ adj, ∃ x u, twinNode (m_graph s) adj = Some x ∧
                                original s x = Some u ∧ m_isTerminal u = true)
            (twin a :: (br_entry <$> subs))) as Hends.
  { apply Forall_cons. split.
    - exists p, t. unfold twinNode. rewrite twin_twin. done.
    - apply Forall_fmap. rewrite Forall_forall in Hall, Hleaf. apply Forall_forall.
      intros b Hb. specialize (Hall b Hb). specialize (Hleaf b Hb).
      pose proof (embeds_one_leaf _ _ _ _ _ Hall Hleaf) as Hnil.
      destruct b as [ab w bs]. simpl in Hnil. subst bs.
      pose proof Hall as (rb & wO & _ & _ & _ & HwO & Hw & _)%embeds_inv.
      destruct (embeds_theNode _ _ _ _ _ Hall) as [_ Htwb]. simpl in Htwb |- *.
      exists w, wO. split; [done|]. split; [done|].
      destruct (m_isTerminal wO); [done|].
      destruct Hw as (? & _ & _ & Hbad). simpl in Hbad. lia. }
  exists v, vO, l. split; [done|]. split.
  { rewrite Hperm. cbn [length]. rewrite length_fmap. lia. }
  split; [done|]. split; [done|]. split.
  { by rewrite Hperm. }
  intros pred nss fuel A f acc Hspokes Hfuel.
  unfold foreachNode_pred. rewrite Hc. cbn [mbind option_bind].
  rewrite decide_True by done. rewrite Hst. cbn [mbind option_bind].
  rewrite Htw. cbn [mbind option_bind].
  change (original s v) with (m_nodeOrig s !! v). rewrite HvO. cbn [mbind option_bind].
  cbn [visit_nodes]. destruct (f vO acc) as [acc'|]; cbn [mbind option_bind]; [|done].
  rewrite Hl. cbn [mbind option_bind]. by rewrite (hub_fold s pred f fuel vO l nss).
Qed.

End ForeachNodeThree.

(** ** [insert] and then [remove] *)

Lemma insert_nodes_keep comp (l : list nat) :
  ∀ st k c, in_nodeCopy st !! k = Some c →
            in_nodeCopy (foldl (insert_node comp) st l) !! k = Some c.
Proof.
  induction l as [|v l IH]; intros st k c Hk; cbn [foldl]; [done|].
  apply IH. unfold insert_node.
  destruct (in_nodeCopy st !! c_original comp v) eqn:Hv; [done|]. simpl.
  rewrite lookup_insert_ne; [done|]. congruence.
Qed.

(** A node that is live after the first loop of [insert] was live before,
    or the loop has made it for a node of the tree without entry in the
    table. *)
Lemma insert_nodes_alive comp (l : list nat) :
  ∀ st x, is_Some (adjEntries (in_graph (foldl (insert_node comp) st l)) !! x) →
  is_Some (adjEntries (in_graph st) !! x) ∨
  ∃ k, in_nodeCopy st !! k = None ∧
       in_nodeCopy (foldl (insert_node comp) st l) !! k = Some x.
Proof.
  induction l as [|v l IH]; intros st x; cbn [foldl]; [by left|].
  intros [Hx|(k & Hk & Hfin)]%IH.
  - unfold insert_node in Hx |- *.
    destruct (in_nodeCopy st !! c_original comp v) eqn:Hv; [by left|].
    simpl in Hx. rewrite lookup_insert in Hx. case_decide as Heq; [|by left].
    right. exists (c_original comp v). split; [done|].
    apply insert_nodes_keep. simpl. rewrite lookup_insert_eq. by rewrite Heq.
  - right. exists k. split; [|done]. unfold insert_node in Hk.
    destruct (in_nodeCopy st !! c_original comp v) eqn:Hv; [done|].
    simpl in Hk. rewrite lookup_insert in Hk. by case_decide.
Qed.

Section RoundTrip.
Context (m_terminals : list nat) (m_isTerminal : nat → bool) {Y : Type} (extra0 : Y).
Hypothesis Hinst : instance_ok m_terminals m_isTerminal.
Local Open Scope nat_scope.
Notation embeds := (embeds m_isTerminal).
Notation component_ok := (component_ok m_isTerminal).
Notation store_ok := (store_ok m_terminals m_isTerminal).
Notation full_component := (full_component m_isTerminal).
Implicit Types (s : Store Y) (comp : EdgeWeightedGraphCopy).

Lemma insert_then_remove s comp :
  store_ok s → full_component comp →
  ∃ s' (n : nat), insert m_isTerminal extra0 s comp = Some s' ∧
    ∀ fuel, n ≤ fuel →
    ∃ s'', remove m_isTerminal fuel s' (size s) = Some s'' ∧
      same_graph (m_graph s) (m_graph s'') ∧
      m_components s'' = m_components s ∧
      m_nodeCopy s'' = m_nodeCopy s ∧
      ∀ v, is_Some (m_nodeOrig s !! v) → m_nodeOrig s'' !! v = m_nodeOrig s !! v.
Proof.
  intros Hok Hfc.
  destruct (fixed_edges m_terminals m_isTerminal Hinst s comp Hok Hfc)
    as (r & Hr & HGr & Hadj & Hnew & Hold & Hnid & Heid & Hcost & Hstart).
  destruct (fixed_branch m_terminals m_isTerminal Hinst s comp Hok Hfc)
    as (a0 & x0 & B0 & Hst & Hx0 & Htx0 & Hentry & Hcov & Hnodes & Hedges).
  pose proof (fixed_nodes_inv m_terminals m_isTerminal s comp Hok Hfc) as Hinv.
  pose proof (sok_graph _ _ _ Hok) as HG.
  pose proof (fixed_copy_og m_terminals m_isTerminal Hinst s comp Hok Hfc) as Hcopy_og.
  set (data := mkMetadata (ie_start r) (quicksort (in_terminals (nodes_after s comp)))
                 (ie_cost r) extra0).
  set (s' := mkStore (ie_graph r) (m_nodeCopy s) (in_nodeOrig (nodes_after s comp))
               (m_components s ++ [data])).
  assert (insert m_isTerminal extra0 s comp = Some s') as Hins.
  { unfold insert. rewrite decide_False by apply (isTree_nonempty _ _ (fc_tree _ _ Hfc)).
    fold (nodes_after s comp). rewrite Hr. simpl.
    by rewrite (nodes_inv_cleanup _ _ _ _ _ _ Hinv). }
  assert (embeds (ie_graph r) (in_nodeOrig (nodes_after s comp)) (copy_of s comp x0) B0)
    as Hemb0 by by apply (fixed_new_embeds m_terminals m_isTerminal Hinst s comp Hok Hfc).
  assert (NoDup (copy_of s comp <$> c_nodes comp)) as HndV.
  { apply NoDup_fmap_2_strong; [|by apply (isTree_NoDup _ _ (fc_tree _ _ Hfc))].
    intros x y Hx Hy.
    by apply (fixed_copy_inj m_terminals m_isTerminal Hinst s comp Hok Hfc). }
  assert (component_ok s' data B0) as Hnewc.
  { split; simpl.
    - by rewrite Hstart, Hst, Hentry.
    - exists (copy_of s comp x0), (c_original comp x0).
      split; [done|]. split; [by apply Hcopy_og|done].
    - rewrite quicksort_perm, (ni_terms _ _ _ _ _ _ Hinv), length_fmap.
      rewrite (embeds_leaves _ _ _ _ _ Hemb0).
      transitivity (length (filter (term_node m_isTerminal (in_nodeOrig (nodes_after s comp)))
                              (copy_of s comp <$> c_nodes comp))).
      + rewrite filter_fmap_length. f_equal. apply filter_ext_in.
        intros v Hv. unfold term_node. rewrite (Hcopy_og v Hv). simpl.
        symmetry. by apply (fixed_term_iff m_terminals m_isTerminal Hinst s comp Hok).
      + rewrite <-Hnodes, filter_cons. rewrite decide_True; [done|].
        unfold term_node. by rewrite (Hcopy_og x0 Hx0).
    - rewrite Hcost. rewrite (Zsum_perm _ _ (fmap_Permutation _ _ _ Hedges)).
      rewrite <-(tag_edges_weights (copy_of s comp) (edgeIdCount (m_graph s))).
      fold (new_edges s comp). rewrite <-list_fmap_compose. f_equal.
      apply list_fmap_ext. intros j t Ht. simpl. unfold edge_weight.
      rewrite Hnew; [done|]. by eapply list_elem_of_lookup_2.
    - intros v vO Hv HvO HtO.
      assert (v ∈ copy_of s comp <$> c_nodes comp) as Hin.
      { rewrite <-Hnodes. destruct Hv as [Hv|Hv]; [|by right].
        destruct (embeds_theNode _ _ _ _ _ Hemb0) as [Hroot _].
        rewrite Hroot in Hv. injection Hv as <-. left. }
      apply list_elem_of_fmap in Hin as (y & -> & Hy).
      rewrite (Hcopy_og y Hy) in HvO. injection HvO as <-.
      by destruct (fixed_copy_term m_terminals m_isTerminal Hinst s comp Hok Hfc y Hy HtO)
        as (? & _). }
  assert (NoDup (br_edges B0)) as HndE0.
  { rewrite Hedges. unfold new_edges. rewrite tag_edges_tags. apply NoDup_seq. }
  assert (NoDup (br_inner B0)) as HndI0.
  { eapply sublist_NoDup; [|apply br_inner_sublist].
    rewrite <-Hnodes in HndV. by apply NoDup_cons in HndV as [_ ?]. }
  exists s', (length (br_nodes B0)). split; [done|]. intros fuel Hfuel.
  assert (component s' (size s) = Some data) as Hc.
  { rewrite size_length, component_at. cbn [m_components s'].
    by rewrite lookup_app_r, Nat.sub_diag. }
  exists (mkStore (prune (ie_graph r) (br_edges B0) (br_inner B0))
            (m_nodeCopy s) (in_nodeOrig (nodes_after s comp)) (m_components s)).
  split.
  { unfold remove. rewrite Hc. cbn [mbind option_bind].
    rewrite (remove_in_graph_spec m_isTerminal s' data B0 HGr Hnewc HndE0 HndI0) by done.
    cbn [mbind option_bind]. unfold remove_record. cbn [m_components s'].
    rewrite decide_True.
    2:{ rewrite length_app, size_length. simpl. lia. }
    cbn [mbind option_bind]. by rewrite removelast_last. }
  cbn [m_graph m_nodeCopy m_nodeOrig m_components].
  split; [|split; [done|split; [done|]]].
  2:{ intros v Hv. apply (ni_old_og _ _ _ _ _ _ Hinv).
      by apply (sok_orig_bound _ _ _ Hok). }
  assert (∀ e, e ∈ br_edges B0 ↔
               edgeIdCount (m_graph s) ≤ e < edgeIdCount (m_graph s) + length (c_edges comp))
    as Hnewids.
  { intros e. rewrite Hedges. unfold new_edges. rewrite tag_edges_tags.
    apply elem_of_seq. }
  split; apply map_eq.
  - intros x. rewrite lookup_prune_adj, Hadj.
    destruct (adjEntries (m_graph s) !! x) as [l|] eqn:Hl.
    + pose proof (gok_node _ HG x (mk_is_Some _ _ Hl)) as Hlt.
      rewrite decide_False.
      2:{ intros Hin. destruct (embeds_inner _ _ _ _ _ _ Hemb0 Hin) as (_ & xO & HxO & HtO).
          assert (x ∈ copy_of s comp <$> c_nodes comp) as Hxin.
          { rewrite <-Hnodes. right. by apply br_inner_nodes. }
          apply list_elem_of_fmap in Hxin as (y & -> & Hy).
          rewrite (Hcopy_og y Hy) in HxO. injection HxO as <-.
          destruct (fixed_copy_steiner m_terminals m_isTerminal Hinst s comp Hok Hfc y Hy HtO)
            as (? & _). lia. }
      rewrite (ni_old_adj _ _ _ _ _ _ Hinv x Hlt). rewrite Hl. simpl. f_equal.
      unfold drop_edges. rewrite filter_app.
      rewrite (filter_none _ (incident (new_edges s comp) x)).
      2:{ intros a Ha Hnot. apply Hnot. rewrite Hedges.
          apply incident_inv in Ha as (r' & Hr' & _).
          apply list_elem_of_fmap. by exists (theEdge a, r'). }
      rewrite app_nil_r. apply filter_all. intros a Ha. cbn beta. rewrite Hnewids.
      pose proof (gok_handle _ HG _ _ _ Hl Ha) as (r' & Hr' & _)%theNode_Some.
      pose proof (gok_edge _ HG _ (mk_is_Some _ _ Hr')). lia.
    + case_decide; [done|].
      destruct (adjEntries (in_graph (nodes_after s comp)) !! x) as [l|] eqn:Hx; [|done].
      exfalso.
      destruct (insert_nodes_alive comp (c_nodes comp)
                  (mkInsertNodes (m_graph s) (m_nodeCopy s) (m_nodeOrig s) [] []) x)
        as [[? Hs]|(k & Hk & Hfin)]; [unfold nodes_after in Hx; by rewrite Hx| |].
      { simpl in Hs. congruence. }
      simpl in Hk. fold (nodes_after s comp) in Hfin.
      destruct (ni_cp_new _ _ _ _ _ _ Hinv _ _ Hk Hfin) as (Htemp & _ & _ & Hog).
      destruct (ni_temp _ _ _ _ _ _ Hinv _ Htemp) as (_ & _ & u & Hu & Huk).
      assert (copy_of s comp u = x) as Hcu.
      { unfold copy_of. by rewrite Huk, Hfin. }
      assert (m_isTerminal k = false) as Htk.
      { destruct (m_isTerminal k) eqn:Ht; [|done].
        assert (is_Some (m_nodeCopy s !! k)) as [? Hs]; [|congruence].
        apply (sok_copy_dom _ _ _ Hok). by apply Hinst. }
      assert (x ∈ br_nodes B0) as Hxin.
      { assert (x ∈ copy_of s comp x0 :: br_nodes B0) as Hin.
        { rewrite Hnodes, <-Hcu. by apply list_elem_of_fmap_2. }
        apply elem_of_cons in Hin as [Heq|Hin]; [|done].
        rewrite <-Hcu in Heq.
        apply (fixed_copy_inj m_terminals m_isTerminal Hinst s comp Hok Hfc) in Heq;
          [|done..].
        subst u. rewrite Huk in Htx0. congruence. }
      by apply (embeds_inner_iff m_isTerminal _ _ _ _ x k Hemb0 Hxin Hog) in Htk.
  - intros e. rewrite lookup_prune_edges. case_decide as He.
    + apply Hnewids in He. destruct (edges (m_graph s) !! e) eqn:Hl; [|done].
      pose proof (gok_edge _ HG _ (mk_is_Some _ _ Hl)). lia.
    + destruct (decide (e < edgeIdCount (m_graph s))) as [Hlt|Hge]; [by apply Hold|].
      rewrite Hnewids in He.
      destruct (edges (ie_graph r) !! e) eqn:Hl.
      { pose proof (gok_edge _ HGr _ (mk_is_Some _ _ Hl)). lia. }
      destruct (edges (m_graph s) !! e) eqn:Hl'; [|done].
      pose proof (gok_edge _ HG _ (mk_is_Some _ _ Hl')). lia.
Qed.

End RoundTrip.

Section RoundTripReachable.
Context (m_terminals : list nat) (m_isTerminal : nat → bool) {Y : Type} (extra0 : Y).
Notation reachable := (reachable m_terminals m_isTerminal extra0).
Notation instance_ok := (instance_ok m_terminals m_isTerminal).
Implicit Types (s : Store Y).

(** X11: [insert] of a full component followed by [remove] of the
    identifier it got gives back the records, the table of the terminals
    and the shared graph: the same nodes, edges and adjacency lists.  Only
    the index counters have moved on, and the originals of the nodes that
    were made and deleted again are still written down. *)
Theorem insert_remove_round_trip s comp :
  instance_ok → reachable s → full_component m_isTerminal comp →
  ∃ s' (n : nat), insert m_isTerminal extra0 s comp = Some s' ∧
    ∀ fuel, (n ≤ fuel)%nat →
    ∃ s'', remove m_isTerminal fuel s' (size s) = Some s'' ∧
      same_graph (m_graph s) (m_graph s'') ∧
      m_components s'' = m_components s ∧
      m_nodeCopy s'' = m_nodeCopy s ∧
      ∀ v, is_Some (m_nodeOrig s !! v) → m_nodeOrig s'' !! v = m_nodeOrig s !! v.
Proof.
  intros Hinst Hreach Hfc. apply (insert_then_remove m_terminals); [done| |done].
  by apply (reachable_ok _ _ extra0).
Qed.

End RoundTripReachable.

(** ** The constructor *)

Lemma init_fold (l : list nat) :
  ∀ G cp og, NoDup l → (∀ x, is_Some (og !! x) → (x < nodeIdCount G)%nat) →
  let st := foldl init_step (G, cp, og) l in
  edges st.1.1 = edges G ∧ edgeIdCount st.1.1 = edgeIdCount G ∧
  nodeIdCount st.1.1 = (nodeIdCount G + length l)%nat ∧
  (∀ x, (x < nodeIdCount G)%nat → adjEntries st.1.1 !! x = adjEntries G !! x) ∧
  (∀ i t, l !! i = Some t →
     st.1.2 !! t = Some (nodeIdCount G + i)%nat ∧
     st.2 !! (nodeIdCount G + i)%nat = Some t ∧
     adjEntries st.1.1 !! (nodeIdCount G + i)%nat = Some []).
Proof.
  induction l as [|v l IH]; intros G cp og Hnd Hog; cbn [foldl].
  - cbn [fst snd length]. split_and!; done || lia.
  - apply NoDup_cons in Hnd as [Hv Hnd]. cbn [init_step newNode].
    destruct (IH (mkGraph (<[nodeIdCount G := []]> (adjEntries G)) (edges G)
                    (S (nodeIdCount G)) (edgeIdCount G))
                 (<[v := nodeIdCount G]> cp) (<[nodeIdCount G := v]> og) Hnd)
      as (He & Hei & Hn & Hadj & Hl).
    { intros x. cbn [nodeIdCount]. rewrite lookup_insert. case_decide; [lia|].
      intros Hx%Hog. lia. }
    cbn [nodeIdCount edges edgeIdCount adjEntries] in *.
    split; [done|]. split; [done|]. split; [simpl; lia|]. split.
    + intros x Hx. rewrite Hadj by lia. rewrite lookup_insert_ne; [done|lia].
    + intros [|i] t Ht; simpl in Ht.
      * injection Ht as <-. rewrite Nat.add_0_r.
        assert (∀ l' (st : EdgeWeightedGraph * gmap nat nat * gmap nat nat) k,
                  v ∉ l' → (∀ x, is_Some (st.2 !! x) → (x < nodeIdCount st.1.1)%nat) →
                  (k < nodeIdCount st.1.1)%nat →
                  (foldl init_step st l').1.2 !! v = st.1.2 !! v ∧
                  (foldl init_step st l').2 !! k = st.2 !! k) as Hkeep.
        { clear. induction l' as [|w l' IHl']; intros [[G cp] og] k Hv Hog Hk; [done|].
          cbn [foldl init_step newNode]. apply not_elem_of_cons in Hv as [Hvw Hv].
          destruct (IHl' (mkGraph (<[nodeIdCount G := []]> (adjEntries G)) (edges G)
                             (S (nodeIdCount G)) (edgeIdCount G),
                          <[w := nodeIdCount G]> cp, <[nodeIdCount G := w]> og) k Hv)
            as [H1 H2].
          - cbn [fst snd nodeIdCount]. intros x. rewrite lookup_insert.
            case_decide; [lia|]. intros Hx%Hog. simpl in Hx. lia.
          - cbn [fst snd nodeIdCount] in *. lia.
          - cbn [fst snd] in *. rewrite H1, H2.
            rewrite !lookup_insert_ne; [done|lia|done]. }
        destruct (Hkeep l (mkGraph (<[nodeIdCount G := []]> (adjEntries G)) (edges G)
                             (S (nodeIdCount G)) (edgeIdCount G),
                           <[v := nodeIdCount G]> cp, <[nodeIdCount G := v]> og)
                    (nodeIdCount G) Hv) as [H1 H2].
        { cbn [fst snd nodeIdCount]. intros x. rewrite lookup_insert.
          case_decide; [lia|]. intros Hx%Hog. lia. }
        { cbn [fst snd nodeIdCount]. lia. }
        cbn [fst snd] in H1, H2. rewrite H1, H2, !lookup_insert_eq.
        split; [done|]. split; [done|]. rewrite Hadj by lia. by rewrite lookup_insert_eq.
      * destruct (Hl i t Ht) as (H1 & H2 & H3).
        replace (nodeIdCount G + S i)%nat with (S (nodeIdCount G) + i)%nat by lia. done.
Qed.

Section Constructor.
Context (m_terminals : list nat) {Y : Type}.

(** X12: the constructor makes an empty store over a graph without edges
    that has one node, without handles, for every entry of the terminal
    list: when the list has no repetition, the node of its [i]-th terminal
    is the node [i], and [original] maps it back. *)
Theorem init_store :
  NoDup m_terminals →
  size (init (Y:=Y) m_terminals) = 0 ∧ isEmpty (init (Y:=Y) m_terminals) = true ∧
  edges (m_graph (init (Y:=Y) m_terminals)) = ∅ ∧
  nodeIdCount (m_graph (init (Y:=Y) m_terminals)) = length m_terminals ∧
  ∀ (i t : nat), m_terminals !! i = Some t →
    m_nodeCopy (init (Y:=Y) m_terminals) !! t = Some i ∧
    original (init (Y:=Y) m_terminals) i = Some t ∧
    adjEntries (m_graph (init (Y:=Y) m_terminals)) !! i = Some [].
Proof.
  intros Hnd. unfold init, original.
  destruct (init_fold m_terminals emptyGraph ∅ ∅ Hnd) as (He & _ & Hn & _ & Hl).
  { intros x. rewrite lookup_empty. by intros [? ?]. }
  destruct (foldl init_step (emptyGraph, ∅, ∅) m_terminals) as [[G cp] og].
  cbn [fst snd m_graph m_nodeCopy m_nodeOrig m_components size isEmpty] in *.
  split; [done|]. split; [done|]. split; [done|]. split; [done|].
  intros i t Ht. by apply Hl.
Qed.

End Constructor.

(** ** The further properties on the concrete instance *)

(** The loss terminals of the three terminal nodes of the instance. *)
Definition ex_lt : gmap nat nat :=
  <[0%nat := 1%nat]> (<[1%nat := 2%nat]> {[2%nat := 3%nat]}).

Definition ex_pred : nat → option nat := (ex_mst 0 emptyGraph).1.

Lemma ex_leads : leads (m_graph ex_loss_store) ex_pred ex_lt [3]%nat 3%nat 1%nat.
Proof.
  apply (leads_step _ _ _ 3%nat 0%nat (EdgeE 0 3 2)); [reflexivity..|].
  apply leads_here. reflexivity.
Defined.

Lemma ex_fuel_one : (length [3%nat] ≤ 1)%nat.
Proof. simpl. lia. Defined.

Lemma findLossTerminal_records_witness :
  leads (m_graph ex_loss_store) ex_pred ex_lt [3]%nat 3%nat 1%nat ∧
  (length [3%nat] ≤ 1)%nat ∧
  findLossTerminal 1 (m_graph ex_loss_store) ex_pred ex_lt 3
  = Some (foldr (λ v m, <[v := 1%nat]> m) ex_lt [3%nat], Some 1%nat).
Proof.
  split; [apply ex_leads|]. split; [apply ex_fuel_one|].
  apply (findLossTerminal_records _ _ _ _ _ _ _ ex_leads ex_fuel_one).
Defined.

(** Predecessor edges that end at node 0, which here has
    neither a loss terminal nor a predecessor edge: from node 1 over the
    edge 1 to the Steiner node 3 and over the edge 0 to node 0. *)
Definition ex_pred_dead : nat → option nat :=
  λ u, match u with 1 => Some 1 | 3 => Some 0 | _ => None end%nat.

Definition ex_lt_dead : gmap nat nat := {[2%nat := 3%nat]}.

Lemma ex_dead_end :
  dead_end (m_graph ex_loss_store) ex_pred_dead ex_lt_dead [1; 3]%nat 1%nat.
Proof.
  apply (dead_step _ _ _ 1%nat 1%nat (EdgeE 3 1 3)); [reflexivity..|].
  apply (dead_step _ _ _ 3%nat 0%nat (EdgeE 0 3 2)); [reflexivity..|].
  apply dead_here; reflexivity.
Defined.

Lemma ex_fuel_two : (length [1; 3]%nat ≤ 2)%nat.
Proof. simpl. lia. Defined.

Lemma findLossTerminal_dead_end_witness :
  dead_end (m_graph ex_loss_store) ex_pred_dead ex_lt_dead [1; 3]%nat 1%nat ∧
  (length [1; 3]%nat ≤ 2)%nat ∧
  findLossTerminal 2 (m_graph ex_loss_store) ex_pred_dead ex_lt_dead 1
  = Some (ex_lt_dead, None).
Proof.
  split; [apply ex_dead_end|]. split; [apply ex_fuel_two|].
  apply (findLossTerminal_dead_end _ _ _ _ _ _ ex_dead_end ex_fuel_two).
Defined.

(** The loss store of the instance after [computeAllLosses()]. *)
Definition ex_losses_done : LossStore :=
  default ex_losses (computeAllLosses ex_terminals ex_isTerminal ex_mst 3 ex_losses).

Lemma ex_losses_computed :
  computeAllLosses ex_terminals ex_isTerminal ex_mst 3 ex_losses = Some ex_losses_done.
Proof. vm_compute. reflexivity. Defined.

Lemma lossTerminal_of_terminals_witness :
  instance_ok ex_terminals ex_isTerminal ∧
  reachable ex_terminals ex_isTerminal LossMetadata0 (store ex_losses) ∧
  computeAllLosses ex_terminals ex_isTerminal ex_mst 3 ex_losses = Some ex_losses_done ∧
  (∀ t v, m_nodeCopy (store ex_losses) !! t = Some v →
          lossTerminal ex_losses_done v = Some t) ∧
  (∀ v t, lossTerminal ex_losses_done v = Some t →
          t ∈ ex_terminals ∧ ex_isTerminal t = true).
Proof.
  split; [apply ex_instance_ok|]. split; [apply ex_loss_reachable|].
  split; [apply ex_losses_computed|].
  apply (lossTerminal_of_terminals ex_terminals ex_isTerminal ex_mst ex_losses 3
           ex_losses_done ex_instance_ok ex_loss_reachable ex_losses_computed).
Defined.

Lemma computeAllLosses_frame_witness :
  instance_ok ex_terminals ex_isTerminal ∧
  reachable ex_terminals ex_isTerminal LossMetadata0 (store ex_losses) ∧
  (ex_terminals = [] →
     ∀ fuel, computeAllLosses ex_terminals ex_isTerminal ex_mst fuel ex_losses = None) ∧
  (∀ fuel ls', computeAllLosses ex_terminals ex_isTerminal ex_mst fuel ex_losses = Some ls' →
     same_graph (m_graph (store ex_losses)) (m_graph (store ls')) ∧
     m_nodeCopy (store ls') = m_nodeCopy (store ex_losses) ∧
     m_nodeOrig (store ls') = m_nodeOrig (store ex_losses) ∧
     size (store ls') = size (store ex_losses) ∧
     ∀ id, terminals_of (store ls') id = terminals_of (store ex_losses) id ∧
           cost_of (store ls') id = cost_of (store ex_losses) id ∧
           start_of (store ls') id = start_of (store ex_losses) id).
Proof.
  split; [apply ex_instance_ok|]. split; [apply ex_loss_reachable|].
  apply (computeAllLosses_frame ex_terminals ex_isTerminal ex_mst ex_losses
           ex_instance_ok ex_loss_reachable).
Defined.

Lemma loss_before_computeAllLosses_witness :
  instance_ok ex_terminals ex_isTerminal ∧
  reachable ex_terminals ex_isTerminal LossMetadata0 (store ex_losses) ∧
  (0 ≤ 0 < size (store ex_losses) →
     loss_of ex_losses 0 = Some 0 ∧ lossBridges ex_losses 0 = Some []) ∧
  (¬ (0 ≤ 0 < size (store ex_losses)) →
     loss_of ex_losses 0 = None ∧ lossBridges ex_losses 0 = None).
Proof.
  split; [apply ex_instance_ok|]. split; [apply ex_loss_reachable|].
  apply (loss_before_computeAllLosses ex_terminals ex_isTerminal ex_losses 0
           ex_instance_ok ex_loss_reachable).
Defined.

Lemma ex_terminals_of : terminals_of ex_store2 0 = Some [1; 2; 3]%nat.
Proof. vm_compute. reflexivity. Defined.

Lemma terminals_sorted_witness :
  instance_ok ex_terminals ex_isTerminal ∧
  reachable ex_terminals ex_isTerminal tt ex_store2 ∧
  terminals_of ex_store2 0 = Some [1; 2; 3]%nat ∧
  StronglySorted lt [1; 2; 3]%nat ∧ (2 ≤ length [1; 2; 3]%nat)%nat ∧
  Forall (λ t, ex_isTerminal t = true) [1; 2; 3]%nat.
Proof.
  split; [apply ex_instance_ok|]. split; [apply ex_reachable2|].
  split; [apply ex_terminals_of|].
  apply (terminals_sorted ex_terminals ex_isTerminal tt ex_store2 0 _
           ex_instance_ok ex_reachable2 ex_terminals_of).
Defined.

Lemma ex_terminals_NoDup : NoDup ex_terminals.
Proof. apply (bool_decide_unpack _). vm_compute. exact I. Defined.

Lemma isTerminal_node_witness :
  instance_ok ex_terminals ex_isTerminal ∧ NoDup ex_terminals ∧
  reachable ex_terminals ex_isTerminal tt ex_store2 ∧
  (∀ t v, m_nodeCopy ex_store2 !! t = Some v →
          original ex_store2 v = Some t ∧ isTerminal ex_isTerminal ex_store2 v = Some true) ∧
  (∀ v, isTerminal ex_isTerminal ex_store2 v = Some true →
        ∃ t, original ex_store2 v = Some t ∧ m_nodeCopy ex_store2 !! t = Some v).
Proof.
  split; [apply ex_instance_ok|]. split; [apply ex_terminals_NoDup|].
  split; [apply ex_reachable2|].
  apply (isTerminal_node ex_terminals ex_isTerminal tt ex_store2
           ex_instance_ok ex_terminals_NoDup ex_reachable2).
Defined.

(** The store of the instance after [remove(0)]. *)
Definition ex_removed : Store unit :=
  default ex_store2 (remove ex_isTerminal 4 ex_store2 0).

Lemma ex_remove : remove ex_isTerminal 4 ex_store2 0 = Some ex_removed.
Proof. vm_compute. reflexivity. Defined.

Lemma ex_visited2 :
  visited ex_isTerminal 3 ex_store2 0 = Some [AdjE 2 true; AdjE 1 true; AdjE 0 false].
Proof. vm_compute. reflexivity. Defined.

Lemma remove_frees_component_witness :
  instance_ok ex_terminals ex_isTerminal ∧
  reachable ex_terminals ex_isTerminal tt ex_store2 ∧
  visited ex_isTerminal 3 ex_store2 0 = Some [AdjE 2 true; AdjE 1 true; AdjE 0 false] ∧
  remove ex_isTerminal 4 ex_store2 0 = Some ex_removed ∧
  m_graph ex_removed
    = prune (m_graph ex_store2) (theEdge <$> [AdjE 2 true; AdjE 1 true; AdjE 0 false])
        (visited_steiner ex_isTerminal ex_store2 [AdjE 2 true; AdjE 1 true; AdjE 0 false]) ∧
  m_nodeCopy ex_removed = m_nodeCopy ex_store2 ∧
  m_nodeOrig ex_removed = m_nodeOrig ex_store2 ∧
  ∀ t v, m_nodeCopy ex_store2 !! t = Some v →
         is_Some (adjEntries (m_graph ex_removed) !! v).
Proof.
  split; [apply ex_instance_ok|]. split; [apply ex_reachable2|].
  split; [apply ex_visited2|]. split; [apply ex_remove|].
  apply (remove_frees_component ex_terminals ex_isTerminal tt ex_store2 0 3 4 _ _
           ex_instance_ok ex_reachable2 ex_visited2 ex_remove).
Defined.

(** On the instance: after [remove(0)] the edge of the other record is the
    only edge, and the node 3 of the star is gone. *)
Lemma ex_removed_graph :
  visited_steiner ex_isTerminal ex_store2 [AdjE 2 true; AdjE 1 true; AdjE 0 false]
    = [3]%nat ∧
  edges (m_graph ex_removed) = {[3%nat := EdgeE 0 1 5]} ∧
  adjEntries (m_graph ex_removed) !! 3%nat = None ∧
  adjEntries (m_graph ex_removed) !! 0%nat = Some [AdjE 3 false].
Proof. split_and!; vm_compute; reflexivity. Qed.

Lemma foreachNode_visits_witness :
  instance_ok ex_terminals ex_isTerminal ∧
  reachable ex_terminals ex_isTerminal tt ex_store ∧
  component ex_store 0 = Some (mkMetadata (Some (AdjE 2 false)) [1; 2; 3]%nat 9 tt) ∧
  ∃ (n : nat) (vis : list adjEntry) (t : nat) (ns : list nat),
    (∀ fuel, (n ≤ fuel)%nat →
       visited ex_isTerminal fuel ex_store 0 = Some vis ∧
       ∀ A (f : nat → A → option A) acc,
         foreachNode ex_isTerminal fuel ex_store 0 f acc = visit_nodes f (t :: ns) acc) ∧
    ex_isTerminal t = true ∧
    Forall2 (λ back x, handle_orig ex_store back = Some x) vis ns ∧
    length (filter (λ x, ex_isTerminal x = true) (t :: ns))
      = length (terminals (mkMetadata (Some (AdjE 2 false)) [1; 2; 3]%nat 9 tt)).
Proof.
  split; [apply ex_instance_ok|]. split; [apply ex_reachable|].
  split; [apply ex_component|].
  apply (foreachNode_visits ex_terminals ex_isTerminal tt ex_store 0 _
           ex_instance_ok ex_reachable ex_component).
Defined.

(** On the instance: [foreachNode(0, f)] sees the originals 3, 7, 2, 1. *)
Lemma ex_foreachNode :
  foreachNode ex_isTerminal 3 ex_store 0 (λ v l, Some (l ++ [v])) []
    = Some [3; 7; 2; 1]%nat.
Proof. vm_compute. reflexivity. Qed.

Lemma ex_visited_store :
  visited ex_isTerminal 3 ex_store 0 = Some [AdjE 2 true; AdjE 1 true; AdjE 0 false].
Proof. vm_compute. reflexivity. Defined.

Lemma component_size_witness :
  instance_ok ex_terminals ex_isTerminal ∧
  reachable ex_terminals ex_isTerminal tt ex_store ∧
  component ex_store 0 = Some (mkMetadata (Some (AdjE 2 false)) [1; 2; 3]%nat 9 tt) ∧
  visited ex_isTerminal 3 ex_store 0 = Some [AdjE 2 true; AdjE 1 true; AdjE 0 false] ∧
  (length [AdjE 2 true; AdjE 1 true; AdjE 0 false] + 3
     ≤ 2 * length (terminals (mkMetadata (Some (AdjE 2 false)) [1; 2; 3]%nat 9 tt)))%nat ∧
  (length (visited_steiner ex_isTerminal ex_store
             [AdjE 2 true; AdjE 1 true; AdjE 0 false]) + 2
     ≤ length (terminals (mkMetadata (Some (AdjE 2 false)) [1; 2; 3]%nat 9 tt)))%nat ∧
  (length [AdjE 2 true; AdjE 1 true; AdjE 0 false] + 1
   = length (terminals (mkMetadata (Some (AdjE 2 false)) [1; 2; 3]%nat 9 tt))
     + length (visited_steiner ex_isTerminal ex_store
                 [AdjE 2 true; AdjE 1 true; AdjE 0 false]))%nat.
Proof.
  split; [apply ex_instance_ok|]. split; [apply ex_reachable|].
  split; [apply ex_component|]. split; [apply ex_visited_store|].
  apply (component_size ex_terminals ex_isTerminal tt ex_store 0 _ 3 _
           ex_instance_ok ex_reachable ex_component ex_visited_store).
Defined.

Lemma insert_remove_round_trip_witness :
  instance_ok ex_terminals ex_isTerminal ∧
  reachable ex_terminals ex_isTerminal tt ex_store ∧
  full_component ex_isTerminal ex_edge ∧
  ∃ s' (n : nat), insert ex_isTerminal tt ex_store ex_edge = Some s' ∧
    ∀ fuel, (n ≤ fuel)%nat →
    ∃ s'', remove ex_isTerminal fuel s' (size ex_store) = Some s'' ∧
      same_graph (m_graph ex_store) (m_graph s'') ∧
      m_components s'' = m_components ex_store ∧
      m_nodeCopy s'' = m_nodeCopy ex_store ∧
      ∀ v, is_Some (m_nodeOrig ex_store !! v) →
           m_nodeOrig s'' !! v = m_nodeOrig ex_store !! v.
Proof.
  split; [apply ex_instance_ok|]. split; [apply ex_reachable|].
  split; [apply ex_edge_full|].
  apply (insert_remove_round_trip ex_terminals ex_isTerminal tt ex_store ex_edge
           ex_instance_ok ex_reachable ex_edge_full).
Defined.

Lemma init_store_witness :
  NoDup ex_terminals ∧
  size ex_empty = 0 ∧ isEmpty ex_empty = true ∧
  edges (m_graph ex_empty) = ∅ ∧
  nodeIdCount (m_graph ex_empty) = length ex_terminals ∧
  ∀ (i t : nat), ex_terminals !! i = Some t →
    m_nodeCopy ex_empty !! t = Some i ∧
    original ex_empty i = Some t ∧
    adjEntries (m_graph ex_empty) !! i = Some [].
Proof.
  split; [apply ex_terminals_NoDup|].
  apply (init_store ex_terminals (Y:=unit) ex_terminals_NoDup).
Defined.

Lemma foreachEdge_paths_witness :
  instance_ok ex_terminals ex_isTerminal ∧
  reachable ex_terminals ex_isTerminal tt ex_store ∧
  component ex_store 0 = Some (mkMetadata (Some (AdjE 2 false)) [1; 2; 3]%nat 9 tt) ∧
  ∃ (n : nat) (vis : list adjEntry),
    (∀ fuel, (n ≤ fuel)%nat → visited ex_isTerminal fuel ex_store 0 = Some vis) ∧
    ∀ pred (ess : list (list EdgeElement)) (fuel : nat) A
      (f : EdgeElement → A → option A) acc,
      Forall2 (handle_path ex_store pred) vis ess →
      Forall (λ es, (length es ≤ fuel)%nat) ess → (n ≤ fuel)%nat →
      foreachEdge ex_isTerminal fuel ex_store 0 pred f acc
      = visit_edges f (concat ess) acc.
Proof.
  split; [apply ex_instance_ok|]. split; [apply ex_reachable|].
  split; [apply ex_component|].
  apply (foreachEdge_paths ex_terminals ex_isTerminal tt ex_store 0 _
           ex_instance_ok ex_reachable ex_component).
Defined.

(** On the instance, with the original edges 7-3, 7-2 and 7-1 as the
    predecessor edges towards 7 and none towards the terminals:
    [foreachEdge(0, pred, f)] sees the edges of the handles that end on a
    terminal. *)
Definition ex_pred2 (u v : nat) : option EdgeElement :=
  match u, v with
  | 7, 3 => Some (EdgeE 7 3 4)
  | 7, 2 => Some (EdgeE 7 2 3)
  | 7, 1 => Some (EdgeE 7 1 2)
  | _, _ => None
  end%nat.

Lemma ex_foreachEdge :
  foreachEdge ex_isTerminal 3 ex_store 0 ex_pred2 (λ e l, Some (l ++ [e])) []
    = Some [EdgeE 7 2 3; EdgeE 7 1 2].
Proof. vm_compute. reflexivity. Qed.

Lemma ex_three : length (terminals (mkMetadata (Some (AdjE 2 false)) [1; 2; 3]%nat 9 tt)) = 3%nat.
Proof. reflexivity. Defined.

Lemma foreachNode_pred_three_witness :
  instance_ok ex_terminals ex_isTerminal ∧
  reachable ex_terminals ex_isTerminal tt ex_store ∧
  component ex_store 0 = Some (mkMetadata (Some (AdjE 2 false)) [1; 2; 3]%nat 9 tt) ∧
  length (terminals (mkMetadata (Some (AdjE 2 false)) [1; 2; 3]%nat 9 tt)) = 3%nat ∧
  ∃ (hub hO : nat) (l : list adjEntry),
    adjEntries (m_graph ex_store) !! hub = Some l ∧ length l = 3%nat ∧
    original ex_store hub = Some hO ∧ ex_isTerminal hO = false ∧
    Forall (λ adj, ∃ x u, twinNode (m_graph ex_store) adj = Some x ∧
                          original ex_store x = Some u ∧ ex_isTerminal u = true) l ∧
    ∀ pred (nss : list (list nat)) (fuel : nat) A (f : nat → A → option A) acc,
      Forall2 (spoke ex_store pred hO) l nss →
      Forall (λ ns, (length ns ≤ fuel)%nat) nss →
      foreachNode_pred ex_isTerminal fuel ex_store 0 pred f acc
      = visit_nodes f (hO :: concat nss) acc.
Proof.
  split; [apply ex_instance_ok|]. split; [apply ex_reachable|].
  split; [apply ex_component|]. split; [apply ex_three|].
  apply (foreachNode_pred_three ex_terminals ex_isTerminal tt ex_store 0 _
           ex_instance_ok ex_reachable ex_component ex_three).
Defined.

(** On the instance, with the original edges between 7 and the terminals
    as predecessor edges: [foreachNode(0, pred, f)] sees 7 and then the
    terminals in the order of the handles of the middle node. *)
Definition ex_pred3 (u v : nat) : option EdgeElement :=
  match v with
  | 7 => Some (EdgeE 7 u 1)
  | _ => None
  end%nat.

Lemma ex_foreachNode_pred :
  foreachNode_pred ex_isTerminal 3 ex_store 0 ex_pred3 (λ v l, Some (l ++ [v])) []
    = Some [7; 1; 2; 3]%nat.
Proof. vm_compute. reflexivity. Qed.

